(** * The response-caching middleware of src/cache.js

    A shallow embedding of [cacheMiddleware] / [cache(ctx, next)]:
    - the cache-control policy (lines 22-32),
    - the cache-key builder (lines 41-60),
    - [tryRespondWithCache] and the recache decision (lines 61-97),
    - the patched [writeHead] / [write] / [end] of the response capture and
      the shadow response [resProxy] of the recache path (lines 106-250),
    - the write-through on an origin miss (lines 251-306),
    - the two process-wide registries [PendingRequest] and [PendingRecache]
      under the interleavings that the [await] points of [cache] allow.

    JavaScript numbers that hold epoch seconds, ages and TTLs are integers
    here ([Z]), and the arithmetic on them is exact; strings are byte
    strings (the UTF-8 bytes of the JavaScript string); [undefined] is
    [None]. Where cache.js calls into Node's [http.ServerResponse] or into
    Koa's [ctx.set], what these do is modelled from their documented
    behaviour, next to the code of cache.js that calls them. *)

From Stdlib Require Import ZArith Ascii String.
From stdpp Require Import base gmap strings list pretty.

Local Open Scope Z_scope.

(* ===================================================================== *)
(** ** Strings as the source uses them                                    *)
(* ===================================================================== *)

(** [s.match(/pat/)] for a pattern without metacharacters: truthy exactly
    when [pat] occurs somewhere in [s]. *)
Fixpoint matches (pat s : string) : bool :=
  String.prefix pat s
  || match s with
     | EmptyString => false
     | String _ s' => matches pat s'
     end.

Definition is_digit (c : ascii) : bool :=
  match Ascii.is_nat c with Some _ => true | None => false end.

Fixpoint take_digits (s : string) : string :=
  match s with
  | EmptyString => EmptyString
  | String c s' => if is_digit c then String c (take_digits s') else EmptyString
  end.

Fixpoint string_drop (n : nat) (s : string) : string :=
  match n, s with
  | O, _ => s
  | S n', String _ s' => string_drop n' s'
  | S _, EmptyString => EmptyString
  end.

(** [cc.match(/max-age=(\d+)/)]: capture group 1 of the leftmost match,
    the longest run of digits after the first [max-age=] that is followed
    by a digit. *)
Fixpoint maxAgeMatch (cc : string) : option string :=
  let here :=
    if String.prefix "max-age=" cc
    then match take_digits (string_drop 8 cc) with
         | EmptyString => None
         | ds => Some ds
         end
    else None in
  match here with
  | Some ds => Some ds
  | None => match cc with
            | EmptyString => None
            | String _ cc' => maxAgeMatch cc'
            end
  end.

Definition digit_value (c : ascii) : Z :=
  match Ascii.is_nat c with Some n => Z.of_nat n | None => 0 end.

Fixpoint parseInt_from (acc : Z) (ds : string) : Z :=
  match ds with
  | EmptyString => acc
  | String c ds' => parseInt_from (10 * acc + digit_value c) ds'
  end.

(** [parseInt] on a non-empty string of decimal digits. *)
Definition parseInt (ds : string) : Z := parseInt_from 0 ds.

(** [xs.join(sep)] *)
Fixpoint join (sep : string) (xs : list string) : string :=
  match xs with
  | [] => ""
  | [x] => x
  | x :: rest => x +:+ sep +:+ join sep rest
  end.

(** [s || 'none'] on strings: the empty string is falsy. *)
Definition or_none (s : string) : string :=
  match s with EmptyString => "none" | _ => s end.

Definition bool_to_string (b : bool) : string := if b then "true" else "false".

(** Number::toString on an integer. A JavaScript number is a double: an
    integer of up to 53 bits prints as its decimal digits; a larger one
    prints the shortest digits that read back as the same double, padded
    with zeros up to 21 digits and in exponent form beyond. *)
Definition round_to_double (a : Z) : Z :=
  if a <? 2 ^ 53 then a
  else
    let e := Z.log2 a - 52 in
    let q := a / 2 ^ e in
    let r := a mod 2 ^ e in
    let half := 2 ^ (e - 1) in
    (if (half <? r) || ((r =? half) && Z.odd q) then q + 1 else q) * 2 ^ e.

Definition decimal_length (a : Z) : Z := Z.of_nat (String.length (pretty a)).

(** The decimal with [k] digits (and zeros after them) that reads back
    as the double [x], if there is one: the nearer of the two neighbours
    of [x], the even one on a tie. *)
Definition digits_candidate (x : Z) (k : Z) : option Z :=
  let u := 10 ^ (decimal_length x - k) in
  let lo := x / u * u in
  let hi := lo + u in
  let ok_lo := round_to_double lo =? x in
  let ok_hi := round_to_double hi =? x in
  if ok_lo && ok_hi then
    Some (if (x - lo <? hi - x) || ((x - lo =? hi - x) && Z.even (lo / u)) then lo else hi)
  else if ok_lo then Some lo
  else if ok_hi then Some hi
  else None.

Fixpoint shortest_digits (fuel : nat) (x : Z) (k : Z) : Z :=
  match fuel with
  | O => x
  | S fuel' =>
      match digits_candidate x k with
      | Some v => v
      | None => shortest_digits fuel' x (k + 1)
      end
  end.

Fixpoint strip_zeros (fuel : nat) (v : Z) : Z :=
  match fuel with
  | O => v
  | S fuel' => if (v mod 10 =? 0) && (0 <? v) then strip_zeros fuel' (v / 10) else v
  end.

Definition big_number_to_string (a : Z) : string :=
  let x := round_to_double a in
  if 2 ^ 1024 <=? x then "Infinity"
  else
    let v := shortest_digits 17 x 1 in
    let n := decimal_length v in
    if n <=? 21 then pretty v
    else
      match pretty (strip_zeros (Z.to_nat n) v) with
      | String d EmptyString => String d ("e+" +:+ pretty (n - 1))
      | String d ds => String d ("." +:+ ds +:+ "e+" +:+ pretty (n - 1))
      | EmptyString => EmptyString
      end.

Definition number_to_string (z : Z) : string :=
  if Z.abs z <=? 2 ^ 53 then pretty z
  else if z <? 0 then "-" +:+ big_number_to_string (- z)
  else big_number_to_string z.

(** Truthiness of a number: [0] is falsy. *)
Definition truthy (z : Z) : bool := negb (z =? 0).

(** Truthiness of a possibly missing number. *)
Definition truthy_opt (o : option Z) : bool :=
  match o with Some z => truthy z | None => false end.

(** Truthiness of a string: [''] is falsy. *)
Definition nonempty (s : string) : bool :=
  match s with EmptyString => false | _ => true end.

(** Does the character occur in the string? *)
Fixpoint occurs (c : ascii) (s : string) : bool :=
  match s with
  | EmptyString => false
  | String d s' => if Ascii.eqb c d then true else occurs c s'
  end.

(* ===================================================================== *)
(** ** CacheControlPolicy (cache.js, lines 20-32)                         *)
(* ===================================================================== *)

Record Opts := {
  noCache : bool;
  noStore : bool;
  maxAgeSeconds : option Z;
}.

Definition shouldRead (cc : string) : bool :=
  negb (matches "no-cache" cc) || negb (matches "server" cc).

Definition shouldWrite (cc : string) : bool :=
  negb (matches "no-store" cc) || negb (matches "server" cc).

(** [opts] as built in lines 28-32 from [cc = ctx.get('cache-control') || '']. *)
Definition cache_opts (cc : string) : Opts :=
  {| noCache := negb (shouldRead cc);
     noStore := negb (shouldWrite cc);
     maxAgeSeconds :=
       match maxAgeMatch cc with
       | Some ds => if matches "server" cc then Some (parseInt ds) else None
       | None => None
       end |}.

(** [!opts.maxAgeSeconds] of line 257: true when the field is missing and
    also when it holds [0]. *)
Definition no_max_age (o : Opts) : bool := negb (truthy_opt (maxAgeSeconds o)).

(** [scope] of line 27. *)
Definition scope_of (authorization : string) : string :=
  if nonempty authorization then "private" else "".

(* ===================================================================== *)
(** ** CacheKeyBuilder (cache.js, lines 38-60)                            *)
(* ===================================================================== *)

(** A value of [ctx.query]: a string, or an array of strings for a
    repeated parameter. *)
Inductive qvalue :=
| QStr (s : string)
| QArr (l : list string).

(** The resolved domain and locale; a missing [prefix], [numericFormat] or
    [tag] is the empty string (both are falsy for [||]). *)
Record Domain := { d_prefix : string; d_numericFormat : string }.
Record Locale := { l_tag : string }.

(** What [cache] reads from the Koa context of a request. [query] lists the
    own properties of [ctx.query] in enumeration order. *)
Record Ctx := {
  method : string;
  path : string;
  query : list (string * qvalue);
  cache_control : string;
  accept_encoding : string;
  authorization : string;
  user_pro : bool;
  domain : option Domain;
  locale : option Locale;
}.

(** [const query = { ...ctx.query }; delete query.lang_ID] *)
Definition strip_lang (q : list (string * qvalue)) : list (string * qvalue) :=
  filter (fun kv => fst kv ≠ "lang_ID") q.

(** Node's [querystring.escape] on bytes: the unreserved characters are
    kept, every other byte becomes [%XX]. *)
Definition unreserved (c : ascii) : bool :=
  let n := nat_of_ascii c in
  ((48 <=? n) && (n <=? 57))%nat || ((65 <=? n) && (n <=? 90))%nat
  || ((97 <=? n) && (n <=? 122))%nat
  || occurs c "-_.!~*'()".

Definition hex_digit (n : nat) : ascii :=
  if (n <? 10)%nat then ascii_of_nat (48 + n) else ascii_of_nat (55 + n).

Definition escape_char (c : ascii) : string :=
  if unreserved c then String c EmptyString
  else
    let n := nat_of_ascii c in
    String "%" (String (hex_digit (n / 16)) (String (hex_digit (n mod 16)) EmptyString)).

Fixpoint qs_escape (s : string) : string :=
  match s with
  | EmptyString => EmptyString
  | String c s' => escape_char c +:+ qs_escape s'
  end.

(** The inner loop of [querystring.stringify] over an array value:
    [if (j) fields += sep; fields += ks; fields += encode(v[j])]. *)
Fixpoint stringify_array (ks : string) (first : bool) (vs : list string)
    (fields : string) : string :=
  match vs with
  | [] => fields
  | v :: vs' =>
      let fields := if first then fields else fields +:+ "&" in
      stringify_array ks false vs' (fields +:+ ks +:+ qs_escape v)
  end.

(** One round of the outer loop of [querystring.stringify]. *)
Definition stringify_field (fields : string) (kv : string * qvalue) : string :=
  let ks := qs_escape (fst kv) +:+ "=" in
  match snd kv with
  | QArr [] => fields
  | QArr vs =>
      let fields := if nonempty fields then fields +:+ "&" else fields in
      stringify_array ks true vs fields
  | QStr v =>
      let fields := if nonempty fields then fields +:+ "&" else fields in
      fields +:+ ks +:+ qs_escape v
  end.

(** Node's [querystring.stringify(query)] with the default separators. *)
Definition qs_stringify (q : list (string * qvalue)) : string :=
  fold_left stringify_field q "".

(** Lines 49-57: the first of [br], [gzip], [deflate] that occurs in the
    [accept-encoding] header, else [identity]. *)
Definition negotiate (encoding : string) : string :=
  if matches "br" encoding then "br"
  else if matches "gzip" encoding then "gzip"
  else if matches "deflate" encoding then "deflate"
  else "identity".

Definition domain_tag (d : option Domain) : string :=
  match d with Some d => or_none (d_prefix d) | None => "none" end.

Definition lang_tag (l : option Locale) : string :=
  match l with Some l => or_none (l_tag l) | None => "none" end.

Definition format_tag (d : option Domain) : string :=
  match d with Some d => or_none (d_numericFormat d) | None => "none" end.

(** [Object.entries(cachekeys)], in insertion order. *)
Definition cachekeys (ctx : Ctx) : list (string * string) :=
  [ ("isPro", bool_to_string (user_pro ctx));
    ("domain", domain_tag (domain ctx));
    ("lang", lang_tag (locale ctx));
    ("format", format_tag (domain ctx));
    ("encoding", negotiate (accept_encoding ctx)) ].

(** [key] of lines 58-60. *)
Definition cache_key (ctx : Ctx) : string :=
  method ctx +:+ " " +:+ path ctx +:+ "?"
  +:+ qs_stringify (strip_lang (query ctx)) +:+ " "
  +:+ join " " (map (fun kv => fst kv +:+ "=" +:+ snd kv) (cachekeys ctx)).

(* ===================================================================== *)
(** ** Cache entries and [tryRespondWithCache] (cache.js, lines 61-85)    *)
(* ===================================================================== *)

(** [head] of a stored entry; [iat] and [exp] may be missing on an entry
    that another writer stored. The body is a [Buffer]. *)
Record Head := {
  h_iat : option Z;
  h_exp : option Z;
  h_status : Z;
  h_message : string;
  h_type : string;
  h_length : string;
  h_encoding : string;
}.

Record Entry := { e_head : Head; e_body : string }.

(** The header argument of [writeHead]: an object (own properties in
    order, [None] for an undefined value) or a flat array
    [[k1, v1, k2, v2, ...]]. *)
Inductive HeadersArg :=
| HObj (l : list (string * option string))
| HArr (l : list (option string)).

(** The second argument of [writeHead]. *)
Inductive MsgArg :=
| MStr (s : string)
| MHeaders (h : HeadersArg)
| MUndef.

(** A chunk handed to [write] or [end]: a string or a [Buffer]. Either
    way it is held as the bytes that [Buffer.from(chunk)] yields, for a
    string its UTF-8 bytes. *)
Inductive Chunk :=
| ChunkStr (s : string)
| ChunkBuf (b : string).

Definition chunk_bytes (c : Chunk) : string :=
  match c with ChunkStr s => s | ChunkBuf b => b end.

(** A call of one of the three writing methods of a response, with the
    arguments that cache.js looks at or hands on; the callback that may
    follow is handed on untouched and left out. *)
Inductive ResCall :=
| CallWriteHead (status : Z) (statusMessage : MsgArg) (headers : option HeadersArg)
| CallWrite (chunk : Chunk) (encoding : option string)
| CallEnd (data : option Chunk) (encoding : option string).

(** The truthy result [{ rtl, age }] of [tryRespondWithCache]. *)
Record Ended := { rtl : Z; age : Z }.

(** [[scope, `max-age=${n}`].filter(Boolean).join(', ')] *)
Definition cache_control_value (scope : string) (n : Z) : string :=
  join ", " (filter (fun s => nonempty s = true) [scope; "max-age=" +:+ number_to_string n]).

(** [tryRespondWithCache], given what [_cache.get(key)] resolved to and the
    clock: [None] is the result [false]; otherwise the result object and
    the two calls made on [ctx.res]. *)
Definition tryRespondWithCache (scope key : string) (now_ms : Z)
    (cached : option Entry) : option (Ended * list ResCall) :=
  match cached with
  | None => None
  | Some c =>
      let hd := e_head c in
      let headers :=
        [ ("content-type", Some (h_type hd));
          ("content-length", Some (h_length hd));
          ("content-encoding", Some (h_encoding hd));
          ("x-cache", Some "hit");
          ("x-cache-key", Some key) ] in
      let '(ended, headers) :=
        match h_iat hd, h_exp hd with
        | Some i, Some e =>
            if truthy i && truthy e then
              let age := now_ms / 1000 - i in
              let maxage := e - i in
              ({| rtl := maxage - age; age := age |},
               headers ++ [ ("age", Some (number_to_string age));
                            ("cache-control", Some (cache_control_value scope maxage)) ])
            else ({| rtl := 0; age := 0 |}, headers)
        | _, _ => ({| rtl := 0; age := 0 |}, headers)
        end in
      Some (ended,
            [ CallWriteHead (h_status hd)
                (if nonempty (h_message hd) then MStr (h_message hd) else MUndef)
                (Some (HObj headers));
              CallEnd (Some (ChunkBuf (e_body c))) None ])
  end.

(** [ms('15m') / 1000] *)
Definition recache_floor : Z := 900000 / 1000.

(** [recacheable] of line 95. *)
Definition recacheable (ended : Ended) : bool :=
  (rtl ended <? age ended) || (age ended >? recache_floor).

(** The request header that the recache task installs (line 101). *)
Definition recache_cache_control (ended : Ended) : string :=
  "server; max-age=" +:+ number_to_string (age ended / 2) +:+ ";".

(* ===================================================================== *)
(** ** Node's [http.ServerResponse], as far as cache.js depends on it     *)
(* ===================================================================== *)

Definition lower_char (c : ascii) : ascii :=
  let n := nat_of_ascii c in
  if ((65 <=? n) && (n <=? 90))%nat then ascii_of_nat (n + 32) else c.

(** [key.toLowerCase()] on ASCII letters. *)
Fixpoint toLowerCase (s : string) : string :=
  match s with
  | EmptyString => EmptyString
  | String c s' => String (lower_char c) (toLowerCase s')
  end.

Fixpoint all_chars (p : ascii → bool) (s : string) : bool :=
  match s with
  | EmptyString => true
  | String c s' => p c && all_chars p s'
  end.

(** The client's response object [ctx.res]. [r_headers] is the table
    behind [getHeaders()] and [getHeader()], [None] until a header is set
    with [setHeader]; [r_header] is the status line of the head once Node
    has built it, and [headersSent] is true from then on; [r_finished] is
    set by [end], [r_destroyed] when the connection is gone. The property
    [writable] is a plain property that Node itself leaves [true]. *)
Record RealRes := {
  r_writable : bool;
  r_statusCode : Z;
  r_statusMessage : string;
  r_headers : option (gmap string string);
  r_header : option (Z * string);
  r_finished : bool;
  r_destroyed : bool;
}.

Definition r_headersSent (r : RealRes) : bool :=
  match r_header r with Some _ => true | None => false end.

Definition r_table (r : RealRes) : gmap string string :=
  match r_headers r with Some hs => hs | None => ∅ end.

(** [http.STATUS_CODES] *)
Definition STATUS_CODES : list (Z * string) :=
  [ (100, "Continue"); (101, "Switching Protocols"); (102, "Processing");
    (103, "Early Hints");
    (200, "OK"); (201, "Created"); (202, "Accepted");
    (203, "Non-Authoritative Information"); (204, "No Content");
    (205, "Reset Content"); (206, "Partial Content"); (207, "Multi-Status");
    (208, "Already Reported"); (226, "IM Used");
    (300, "Multiple Choices"); (301, "Moved Permanently"); (302, "Found");
    (303, "See Other"); (304, "Not Modified"); (305, "Use Proxy");
    (307, "Temporary Redirect"); (308, "Permanent Redirect");
    (400, "Bad Request"); (401, "Unauthorized"); (402, "Payment Required");
    (403, "Forbidden"); (404, "Not Found"); (405, "Method Not Allowed");
    (406, "Not Acceptable"); (407, "Proxy Authentication Required");
    (408, "Request Timeout"); (409, "Conflict"); (410, "Gone");
    (411, "Length Required"); (412, "Precondition Failed");
    (413, "Payload Too Large"); (414, "URI Too Long");
    (415, "Unsupported Media Type"); (416, "Range Not Satisfiable");
    (417, "Expectation Failed"); (418, "I'm a Teapot");
    (421, "Misdirected Request"); (422, "Unprocessable Entity");
    (423, "Locked"); (424, "Failed Dependency"); (425, "Too Early");
    (426, "Upgrade Required"); (428, "Precondition Required");
    (429, "Too Many Requests"); (431, "Request Header Fields Too Large");
    (451, "Unavailable For Legal Reasons");
    (500, "Internal Server Error"); (501, "Not Implemented");
    (502, "Bad Gateway"); (503, "Service Unavailable");
    (504, "Gateway Timeout"); (505, "HTTP Version Not Supported");
    (506, "Variant Also Negotiates"); (507, "Insufficient Storage");
    (508, "Loop Detected"); (509, "Bandwidth Limit Exceeded");
    (510, "Not Extended"); (511, "Network Authentication Required") ].

(** [STATUS_CODES[statusCode] || 'unknown'] *)
Definition status_text (st : Z) : string :=
  match List.find (fun e => fst e =? st) STATUS_CODES with
  | Some e => snd e
  | None => "unknown"
  end.

(** [statusCode |= 0] *)
Definition to_int32 (z : Z) : Z := (z + 2 ^ 31) mod 2 ^ 32 - 2 ^ 31.

(** The characters of a header name that Node accepts. *)
Definition token_char (c : ascii) : bool :=
  let n := nat_of_ascii c in
  ((48 <=? n) && (n <=? 57))%nat || ((65 <=? n) && (n <=? 90))%nat
  || ((97 <=? n) && (n <=? 122))%nat
  || occurs c "^_`-!#$%&'*+.|~".

Definition valid_header_name (s : string) : bool :=
  nonempty s && all_chars token_char s.

(** The characters of a header value or status message that are followed
    here: tab and printable ASCII. Node accepts the characters from 0x80
    to 0xff as well and rejects all others; strings are bytes here, so a
    value with a byte above 0x7e is left out. *)
Definition header_char (c : ascii) : bool :=
  let n := nat_of_ascii c in
  (n =? 9)%nat || ((32 <=? n) && (n <=? 126))%nat.

Definition valid_header_value (s : string) : bool := all_chars header_char s.

Definition with_headers (hs : gmap string string) (r : RealRes) : RealRes :=
  {| r_writable := r_writable r; r_statusCode := r_statusCode r;
     r_statusMessage := r_statusMessage r; r_headers := Some hs;
     r_header := r_header r; r_finished := r_finished r;
     r_destroyed := r_destroyed r |}.

(** Node's [setHeader(name, value)] with a string value. [None]: Node
    throws (the head is already built, or the name or the value is
    refused), or the value is left out here. *)
Definition node_setHeader (name value : string) (r : RealRes) : option RealRes :=
  if r_headersSent r then None
  else if valid_header_name name && valid_header_value value
  then Some (with_headers (<[toLowerCase name := value]> (r_table r)) r)
  else None.

(** What Node's [writeHead] does with a header object: with a table on
    the response, [setHeader] for every property with a non-empty name
    (an undefined value throws); without one, the headers go into the
    head only and every name and value is checked there. *)
Fixpoint node_setHeaders (l : list (string * option string)) (r : RealRes)
    : option RealRes :=
  match l with
  | [] => Some r
  | (k, v) :: l' =>
      if nonempty k then
        match v with
        | Some v' => r' ← node_setHeader k v' r; node_setHeaders l' r'
        | None => None
        end
      else node_setHeaders l' r
  end.

Definition head_only_headers_ok (l : list (string * option string)) : bool :=
  forallb (fun kv =>
             valid_header_name (fst kv)
             && match snd kv with Some v => valid_header_value v | None => false end) l.

(** Node's [writeHead(statusCode, reason, obj)] for the arguments that
    line 226 hands on: a string or [undefined] for [reason], and for [obj]
    a header object with a string [reason], an empty object or an emptied
    array otherwise. [None]: Node throws (the head is already built, the
    status is not in 100..999, a header or the status message is refused),
    or the call is not one of these. *)
Definition node_writeHead (status : Z) (reason : MsgArg) (obj : option HeadersArg)
    (r : RealRes) : option RealRes :=
  if r_headersSent r then None
  else
    let st := to_int32 status in
    if (st <? 100) || (999 <? st) then None
    else
      let message :=
        match reason with
        | MStr s => s
        | _ => if nonempty (r_statusMessage r) then r_statusMessage r else status_text st
        end in
      r1 ← match reason, obj with
           | MHeaders _, _ => None
           | _, None | _, Some (HObj []) | _, Some (HArr []) => Some r
           | MUndef, Some _ => None
           | MStr _, Some (HArr _) => None
           | MStr _, Some (HObj l) =>
               match r_headers r with
               | Some _ => node_setHeaders l r
               | None => if head_only_headers_ok l then Some r else None
               end
           end;
      if valid_header_value message then
        Some {| r_writable := r_writable r1; r_statusCode := st;
                r_statusMessage := message; r_headers := r_headers r1;
                r_header := Some (st, message); r_finished := r_finished r1;
                r_destroyed := r_destroyed r1 |}
      else None.

Definition finish (r : RealRes) : RealRes :=
  {| r_writable := r_writable r; r_statusCode := r_statusCode r;
     r_statusMessage := r_statusMessage r; r_headers := r_headers r;
     r_header := r_header r; r_finished := true; r_destroyed := r_destroyed r |}.

(* ===================================================================== *)
(** ** ResponseCapture and the shadow response (lines 102-161, 189-250)   *)
(* ===================================================================== *)

(** The closure variables of [resProxy] (lines 102-104). *)
Record Shadow := {
  statusCode : Z;
  statusMessage : string;
  newHeaders : gmap string string;
}.

(** A response object as [cache] sees it: the client's response, or the
    proxy around it that the recache task hands to the application. *)
Inductive Response :=
| RealResponse (r : RealRes)
| ShadowResponse (target : RealRes) (sh : Shadow).

(** The [get] trap of [resProxy], and plain property reads on a real
    response (which has no [recache] property). *)
Definition get_recache (r : Response) : bool :=
  match r with RealResponse _ => false | ShadowResponse _ _ => true end.

Definition get_writable (r : Response) : bool :=
  match r with RealResponse r => r_writable r | ShadowResponse _ _ => true end.

Definition get_statusCode (r : Response) : Z :=
  match r with RealResponse r => r_statusCode r | ShadowResponse _ sh => statusCode sh end.

Definition get_statusMessage (r : Response) : string :=
  match r with
  | RealResponse r => r_statusMessage r
  | ShadowResponse _ sh => statusMessage sh
  end.

Definition get_headersSent (r : Response) : bool :=
  match r with RealResponse r => r_headersSent r | ShadowResponse _ _ => false end.

(** [getHeaders()]: a copy of the header table of a real response, the
    object [newHeaders] itself on the proxy. *)
Definition getHeaders (r : Response) : gmap string string :=
  match r with RealResponse r => r_table r | ShadowResponse _ sh => newHeaders sh end.

Definition getHeader (r : Response) (name : string) : option string :=
  getHeaders r !! toLowerCase name.

(** The [set] trap of [resProxy] for [statusCode] and [statusMessage], and
    plain assignment on a real response. *)
Definition set_statusCode (v : Z) (r : Response) : Response :=
  match r with
  | RealResponse r =>
      RealResponse {| r_writable := r_writable r; r_statusCode := v;
                      r_statusMessage := r_statusMessage r; r_headers := r_headers r;
                      r_header := r_header r; r_finished := r_finished r;
                      r_destroyed := r_destroyed r |}
  | ShadowResponse t sh =>
      ShadowResponse t {| statusCode := v; statusMessage := statusMessage sh;
                          newHeaders := newHeaders sh |}
  end.

Definition set_statusMessage (v : string) (r : Response) : Response :=
  match r with
  | RealResponse r =>
      RealResponse {| r_writable := r_writable r; r_statusCode := r_statusCode r;
                      r_statusMessage := v; r_headers := r_headers r;
                      r_header := r_header r; r_finished := r_finished r;
                      r_destroyed := r_destroyed r |}
  | ShadowResponse t sh =>
      ShadowResponse t {| statusCode := statusCode sh; statusMessage := v;
                          newHeaders := newHeaders sh |}
  end.

(** [setHeader(key, value)]: Node's on a real response, the function of
    lines 141-146 on the proxy, which stores whatever it is given. *)
Definition setHeader (name value : string) (r : Response) : option Response :=
  match r with
  | RealResponse r => RealResponse <$> node_setHeader name value r
  | ShadowResponse t sh =>
      Some (ShadowResponse t {| statusCode := statusCode sh;
                                statusMessage := statusMessage sh;
                                newHeaders := <[toLowerCase name := value]> (newHeaders sh) |})
  end.

(** Koa's [ctx.set(field, value)]: nothing once the head is sent,
    [res.setHeader] otherwise. *)
Definition ctx_set (name value : string) (r : Response) : option Response :=
  if get_headersSent r then Some r else setHeader name value r.

(** Writing into the object that [getHeaders()] returned: lost on a real
    response (it was a copy), visible on the proxy (it is [newHeaders]). *)
Definition write_back_headers (hs : gmap string string) (r : Response) : Response :=
  match r with
  | RealResponse r => RealResponse r
  | ShadowResponse t sh =>
      ShadowResponse t {| statusCode := statusCode sh; statusMessage := statusMessage sh;
                          newHeaders := hs |}
  end.

(** [value?.toString() ?? ''] *)
Definition str_or_empty (v : option string) : string :=
  match v with Some s => s | None => "" end.

(** The loop of lines 206-211 over a flat header array. *)
Fixpoint merge_header_array (l : list (option string)) (hs : gmap string string)
    : gmap string string :=
  match l with
  | [] => hs
  | [k] =>
      match k with
      | Some k' => if nonempty k' then <[k' := ""]> hs else hs
      | None => hs
      end
  | k :: v :: rest =>
      let hs :=
        match k with
        | Some k' => if nonempty k' then <[k' := str_or_empty v]> hs else hs
        | None => hs
        end in
      merge_header_array rest hs
  end.

(** The loop of lines 214-216 over a header object. *)
Definition merge_header_object (l : list (string * option string))
    (hs : gmap string string) : gmap string string :=
  fold_left (fun hs kv => <[fst kv := str_or_empty (snd kv)]> hs) l hs.

(** The variables that the three patched methods close over (lines
    189-193 and 228). *)
Record Capture := {
  finalStatus : Z;
  finalStatusMessage : string;
  contentType : string;
  contentLength : string;
  contentEncoding : string;
  chunks : list string;
}.

(** The per-request [cacheCtx] of line 274, as far as numbers go. *)
Record CacheCtx := { ctx_age : Z; ctx_maxage : Z }.

(** What a request does to the outside: a call handed on to one of the
    original response methods, a [_cache.set], an immediate
    [signal.emit('finish')]. *)
Inductive Effect :=
| Forward (c : ResCall)
| CacheSet (key : string) (e : Entry) (ttl : Z)
| EmitFinish.

(** The state of one request on the miss path, from line 189 on.
    [stopped]: a call was made that Node answers with an exception or an
    error event, or that is not followed here; what the request does
    after that is not described. *)
Record World := {
  res : Response;
  cap : Capture;
  cacheCtx : CacheCtx;
  onFinishFinal : bool;
  responseArmed : bool;
  trace : list Effect;
  stopped : bool;
}.

Definition empty_capture : Capture :=
  {| finalStatus := 0; finalStatusMessage := ""; contentType := "";
     contentLength := ""; contentEncoding := ""; chunks := [] |}.

(** Lines 189-280 for a fresh request: nothing captured, both listeners in
    place, [cacheCtx = { age: 0, maxage: ttlsec }]. *)
Definition init_world (r : Response) (ttlsec : Z) : World :=
  {| res := r; cap := empty_capture;
     cacheCtx := {| ctx_age := 0; ctx_maxage := ttlsec |};
     onFinishFinal := false; responseArmed := true; trace := []; stopped := false |}.

Definition with_res (f : Response → Response) (w : World) : World :=
  {| res := f (res w); cap := cap w; cacheCtx := cacheCtx w;
     onFinishFinal := onFinishFinal w; responseArmed := responseArmed w;
     trace := trace w; stopped := stopped w |}.

Definition with_cap (c : Capture) (w : World) : World :=
  {| res := res w; cap := c; cacheCtx := cacheCtx w;
     onFinishFinal := onFinishFinal w; responseArmed := responseArmed w;
     trace := trace w; stopped := stopped w |}.

Definition with_cacheCtx (cc : CacheCtx) (w : World) : World :=
  {| res := res w; cap := cap w; cacheCtx := cc;
     onFinishFinal := onFinishFinal w; responseArmed := responseArmed w;
     trace := trace w; stopped := stopped w |}.

Definition emit (es : list Effect) (w : World) : World :=
  {| res := res w; cap := cap w; cacheCtx := cacheCtx w;
     onFinishFinal := onFinishFinal w; responseArmed := responseArmed w;
     trace := trace w ++ es; stopped := stopped w |}.

Definition stop (w : World) : World :=
  {| res := res w; cap := cap w; cacheCtx := cacheCtx w;
     onFinishFinal := onFinishFinal w; responseArmed := responseArmed w;
     trace := trace w; stopped := true |}.

(** An operation on the response that may throw. *)
Definition try_res (f : Response → option Response) (w : World) : World :=
  match f (res w) with
  | Some r => with_res (fun _ => r) w
  | None => stop w
  end.

(** The guard [if (!this.writable || this['recache']) return;] *)
Definition suppressed (r : Response) : bool :=
  negb (get_writable r) || get_recache r.

(** Lines 197-204: the status message and the header argument that
    [writeHead] goes on with. Without a string status message both are
    dropped. *)
Definition writeHead_message (statusMessage : MsgArg) : MsgArg :=
  match statusMessage with MStr s => MStr s | _ => MUndef end.

Definition writeHead_headers (statusMessage : MsgArg) (headers : option HeadersArg)
    : HeadersArg :=
  match statusMessage, headers with
  | MStr _, Some h => h
  | _, _ => HObj []
  end.

(** Lines 203-217: [setHeaders] after the loop, and the header argument
    after it (an array has been emptied by [shift]). *)
Definition merged_headers (h : HeadersArg) (hs : gmap string string) : gmap string string :=
  match h with
  | HArr l => merge_header_array l hs
  | HObj l => merge_header_object l hs
  end.

Definition headers_after (h : HeadersArg) : HeadersArg :=
  match h with HArr _ => HArr [] | HObj l => HObj l end.

(** [if (setHeaders[name]) variable = setHeaders[name].toString()] *)
Definition pick_header (hs : gmap string string) (name old : string) : string :=
  match hs !! name with
  | Some v => if nonempty v then v else old
  | None => old
  end.

(** Lines 196-198 and 218-223. *)
Definition capture_head (status : Z) (statusMessage : MsgArg)
    (setHeaders : gmap string string) (c : Capture) : Capture :=
  {| finalStatus := status;
     finalStatusMessage :=
       match statusMessage with MStr s => s | _ => finalStatusMessage c end;
     contentType := pick_header setHeaders "content-type" (contentType c);
     contentLength := pick_header setHeaders "content-length" (contentLength c);
     contentEncoding := pick_header setHeaders "content-encoding" (contentEncoding c);
     chunks := chunks c |}.

(** Line 226: Node's [writeHead] on the client's response. *)
Definition forward_writeHead (status : Z) (statusMessage : MsgArg) (headers : HeadersArg)
    (w : World) : World :=
  let w' := emit [Forward (CallWriteHead status statusMessage (Some headers))] w in
  match res w with
  | RealResponse r =>
      match node_writeHead status statusMessage (Some headers) r with
      | Some r' => with_res (fun _ => RealResponse r') w'
      | None => stop w'
      end
  | ShadowResponse _ _ => w'
  end.

(** The patched [writeHead] of lines 195-227, called as a method of
    [ctx.res]. *)
Definition patched_writeHead (status : Z) (statusMessage : MsgArg)
    (headers : option HeadersArg) (w : World) : World :=
  let hdrs := writeHead_headers statusMessage headers in
  let setHeaders := merged_headers hdrs (getHeaders (res w)) in
  let w' := with_cap (capture_head status statusMessage setHeaders (cap w))
              (with_res (write_back_headers setHeaders) w) in
  if suppressed (res w) then w'
  else forward_writeHead status (writeHead_message statusMessage) (headers_after hdrs) w'.

(** Node's [_implicitHeader()]: [this.writeHead(this.statusCode)], and the
    [writeHead] it finds on the response is the patched one. *)
Definition implicit_header (w : World) : World :=
  patched_writeHead (get_statusCode (res w)) MUndef None w.

(** Node's [write(chunk, encoding)] on the client's response: an error
    after [end] or on a connection that is gone; the head is built first
    if it has not been. *)
Definition node_write (w : World) : World :=
  match res w with
  | RealResponse r =>
      if r_finished r || r_destroyed r then stop w
      else if r_headersSent r then w
      else implicit_header w
  | ShadowResponse _ _ => w
  end.

(** [if (chunk)] in Node's [end]: the empty string counts as no chunk. *)
Definition chunk_truthy (data : option Chunk) : bool :=
  match data with
  | Some (ChunkStr s) => nonempty s
  | Some (ChunkBuf _) => true
  | None => false
  end.

(** Node's [end(data, encoding)] on the client's response: a second
    [end] without data does nothing, one with data is an error; the head
    is built first if it has not been. *)
Definition node_end (data : option Chunk) (w : World) : World :=
  match res w with
  | RealResponse r =>
      if r_finished r then (if chunk_truthy data then stop w else w)
      else if r_destroyed r then stop w
      else
        let w' := if r_headersSent r then w else implicit_header w in
        match res w' with
        | RealResponse r' => with_res (fun _ => RealResponse (finish r')) w'
        | ShadowResponse _ _ => w'
        end
  | ShadowResponse _ _ => w
  end.

Definition push_chunk (bytes : string) (c : Capture) : Capture :=
  {| finalStatus := finalStatus c; finalStatusMessage := finalStatusMessage c;
     contentType := contentType c; contentLength := contentLength c;
     contentEncoding := contentEncoding c; chunks := chunks c ++ [bytes] |}.

(** The patched [write] of lines 230-235; [Buffer.from(chunk)] is taken
    without the encoding. *)
Definition patched_write (chunk : Chunk) (encoding : option string) (w : World) : World :=
  let w' := with_cap (push_chunk (chunk_bytes chunk) (cap w)) w in
  if suppressed (res w) then w'
  else node_write (emit [Forward (CallWrite chunk encoding)] w').

(** [a || b] on strings and on numbers. *)
Definition str_or (a b : string) : string := if nonempty a then a else b.
Definition num_or (a b : Z) : Z := if truthy a then a else b.

(** [onFinish] as reassigned in lines 285-305. The [signal.emit('finish')]
    that follows a [_cache.set] happens later, when the write settles. *)
Definition onFinish (key : string) (now_ms : Z) (c : Capture) (cc : CacheCtx)
    : list Effect :=
  if (finalStatus c >=? 200) && (finalStatus c <? 500) then
    let realttl := ctx_maxage cc - ctx_age cc in
    let buffer := String.concat "" (chunks c) in
    let iat := now_ms / 1000 - ctx_age cc in
    let exp := iat + ctx_maxage cc in
    let head :=
      {| h_iat := Some iat; h_exp := Some exp;
         h_status := finalStatus c;
         h_message := finalStatusMessage c;
         h_type := contentType c;
         h_length :=
           str_or (contentLength c) (number_to_string (Z.of_nat (String.length buffer)));
         h_encoding := contentEncoding c |} in
    [CacheSet key {| e_head := head; e_body := buffer |} realttl]
  else [EmitFinish].

(** [onFinish] as first defined in lines 251-253. *)
Definition onFinish_initial : list Effect := [EmitFinish].

(** Lines 239-245. *)
Definition capture_end (data : option Chunk) (r : Response) (c : Capture) : Capture :=
  {| finalStatus := num_or (finalStatus c) (get_statusCode r);
     finalStatusMessage := str_or (finalStatusMessage c) (get_statusMessage r);
     contentType := str_or (contentType c) (str_or_empty (getHeader r "content-type"));
     contentLength := str_or (contentLength c) (str_or_empty (getHeader r "content-length"));
     contentEncoding :=
       str_or (contentEncoding c) (str_or_empty (getHeader r "content-encoding"));
     chunks := match data with
               | Some d => chunks c ++ [chunk_bytes d]
               | None => chunks c
               end |}.

(** Line 246 with the listener of line 254: [onFinish] runs on the first
    ['response']. *)
Definition signalled (key : string) (now_ms : Z) (c : Capture) (w : World) : list Effect :=
  if responseArmed w
  then (if onFinishFinal w then onFinish key now_ms c (cacheCtx w) else onFinish_initial)
  else [].

(** The patched [end] of lines 238-250; [now_ms] is the clock when it
    runs; line 249 is Node's [end] on the client's response. *)
Definition patched_end (key : string) (now_ms : Z) (data : option Chunk)
    (encoding : option string) (w : World) : World :=
  let c' := capture_end data (res w) (cap w) in
  let w' :=
    {| res := res w; cap := c'; cacheCtx := cacheCtx w;
       onFinishFinal := onFinishFinal w; responseArmed := false;
       trace := trace w ++ signalled key now_ms c' w; stopped := stopped w |} in
  if suppressed (res w) then w'
  else node_end data (emit [Forward (CallEnd data encoding)] w').

(** The [finally] callback of lines 281-306: three [ctx.set] calls, then
    the new [onFinish]. *)
Definition after_next (scope : string) (w : World) : World :=
  if stopped w then w
  else
    let cc := cacheCtx w in
    match
      r1 ← ctx_set "x-cache" "miss" (res w);
      r2 ← ctx_set "age" (number_to_string (ctx_age cc)) r1;
      ctx_set "cache-control" (cache_control_value scope (ctx_maxage cc)) r2
    with
    | Some r =>
        {| res := r; cap := cap w; cacheCtx := cc;
           onFinishFinal := true; responseArmed := responseArmed w;
           trace := trace w; stopped := false |}
    | None => stop w
    end.

(** What the code behind [next], and the code that ends the response
    after it, may do with the response and with the cache context that
    [GetCacheCtx] hands out. [data] of [End] is undefined, a string or a
    [Buffer]. *)
Inductive HandlerOp :=
| SetAge (a : Z)
| SetMaxage (m : Z)
| SetStatus (s : Z)
| SetStatusMessage (m : string)
| SetHeader (name value : string)
| WriteHead (status : Z) (statusMessage : MsgArg) (headers : option HeadersArg)
| Write (chunk : Chunk) (encoding : option string)
| End (data : option Chunk) (encoding : option string) (now_ms : Z).

Definition run_op (key : string) (w : World) (op : HandlerOp) : World :=
  if stopped w then w
  else
    match op with
    | SetAge a => with_cacheCtx {| ctx_age := a; ctx_maxage := ctx_maxage (cacheCtx w) |} w
    | SetMaxage m => with_cacheCtx {| ctx_age := ctx_age (cacheCtx w); ctx_maxage := m |} w
    | SetStatus s => with_res (set_statusCode s) w
    | SetStatusMessage m => with_res (set_statusMessage m) w
    | SetHeader k v => try_res (setHeader k v) w
    | WriteHead s m h => patched_writeHead s m h w
    | Write chunk encoding => patched_write chunk encoding w
    | End data encoding now_ms => patched_end key now_ms data encoding w
    end.

Definition run_ops (key : string) (ops : list HandlerOp) (w : World) : World :=
  fold_left (run_op key) ops w.

(** An origin miss from line 189 to the end of the response: the handler
    runs, the [finally] callback runs, and the response is ended. *)
Definition miss_path (scope key : string) (ttlsec : Z) (r : Response)
    (handler : list HandlerOp) (respond : list HandlerOp) : World :=
  run_ops key respond (after_next scope (run_ops key handler (init_world r ttlsec))).

Definition is_end (op : HandlerOp) : bool :=
  match op with End _ _ _ => true | _ => false end.

(** The [_cache.set] calls in a trace. *)
Definition cache_sets (t : list Effect) : list (string * Entry * Z) :=
  omap (fun e => match e with CacheSet k en ttl => Some (k, en, ttl) | _ => None end) t.

(** The calls handed on to the original response methods in a trace. *)
Definition forwarded (t : list Effect) : list ResCall :=
  omap (fun e => match e with Forward c => Some c | _ => None end) t.

(* ===================================================================== *)
(** ** The registries [PendingRequest] and [PendingRecache]               *)
(* ===================================================================== *)

(** [cache] is an async function: it runs without interruption from one
    [await] to the next, and other requests run in between. A request is
    a task with a program point; an event resumes one task and runs it to
    its next [await]. The return of [tryRespondWithCache] to its caller
    is a resumption of its own, but nothing shared is read or written
    between the two, so the end of [tryRespondWithCache] and the code
    after the call are one step here. What the store answers and when the
    handler and the response finish are inputs, carried by the events. *)

(** How a promise settled. *)
Inductive Settled :=
| Fulfilled
| Rejected (reason : string).

(** Where a request is inside [cache]. *)
Inductive pc :=
| Bypassed                 (* line 21: not a GET, [next()] was returned *)
| AwaitPending (p : nat)   (* line 87: awaiting the promise found in PendingRequest *)
| AwaitGet (waited : bool) (* line 62, called from line 88 (true) or 93 (false) *)
| InHandler                (* line 281: [next] was called and has not settled *)
| Returned                 (* [cache] resolved *)
| Failed (reason : string) (* [cache] rejected *).

Global Instance pc_eq_dec : EqDecision pc.
Proof. solve_decision. Defined.

Record Task := {
  t_ctx : Ctx;
  t_pc : pc;
  t_armed : bool;   (* the ['finish'] listener of line 260 is waiting *)
}.

(** Where a [recache] task (lines 97-184) is. *)
Inductive rpc :=
| RWaitClose (* line 98: waiting for ['close'] on the response *)
| RReplay    (* line 163: the application was called on the proxy *).

Global Instance rpc_eq_dec : EqDecision rpc.
Proof. solve_decision. Defined.

Record Refresh := {
  r_id : nat;        (* the request that scheduled the task *)
  r_key : string;
  r_ctx : Ctx;
  r_ended : Ended;
  r_pc : rpc;
}.

(** The module-level state of cache.js together with the requests in
    flight. A promise is named by the request that created it. *)
Record State := {
  PendingRequest : gmap string nat;
  PendingRecache : gmap string nat;
  tasks : gmap nat Task;
  settled : gmap nat Settled;
  refreshes : list Refresh;
  served : list (nat * list ResCall);    (* calls of tryRespondWithCache on ctx.res *)
  console : list (string * string);      (* what console.error received *)
}.

Definition init_state : State :=
  {| PendingRequest := ∅; PendingRecache := ∅; tasks := ∅; settled := ∅;
     refreshes := []; served := []; console := [] |}.

(** What [GetUser], [GetDomain] and [GetLocale] resolve for a request.
    They are called anew for the request that a [recache] task replays,
    and what they return then is an input here. *)
Record Resolved := {
  rv_pro : bool;
  rv_domain : option Domain;
  rv_locale : option Locale;
}.

(** How the application call of a [recache] task ended: the promise
    resolved and the proxy reports a status, or something threw. *)
Inductive ReplayResult :=
| ReplayStatus (status : Z)
| ReplayThrew (reason : string).

Inductive Event :=
| Arrive (id : nat) (ctx : Ctx)
    (* a request enters [cache] *)
| PendingSettled (id : nat)
    (* the promise that request [id] awaits at line 87 has settled *)
| GetReturned (id : nat) (cached : option Entry) (now_ms : Z)
    (* [_cache.get(key)] of request [id] resolved *)
| HandlerSettled (id : nat) (r : Settled)
    (* [Cache.run(cacheCtx, next)] of request [id] settled *)
| Finish (id : nat)
    (* the signal of request [id] emits ['finish'] *)
| Closed (id : nat) (replay : nat) (rv : Resolved)
    (* ['close'] on the response of request [id]; [replay] names the
       request that the application call on the proxy creates, [rv] is
       what is resolved for it *)
| ReplaySettled (id : nat) (r : ReplayResult)
    (* the application call of the [recache] task of request [id] ended *).

Definition set_PendingRequest (m : gmap string nat) (s : State) : State :=
  {| PendingRequest := m; PendingRecache := PendingRecache s; tasks := tasks s;
     settled := settled s; refreshes := refreshes s; served := served s;
     console := console s |}.

Definition set_PendingRecache (m : gmap string nat) (s : State) : State :=
  {| PendingRequest := PendingRequest s; PendingRecache := m; tasks := tasks s;
     settled := settled s; refreshes := refreshes s; served := served s;
     console := console s |}.

Definition set_tasks (m : gmap nat Task) (s : State) : State :=
  {| PendingRequest := PendingRequest s; PendingRecache := PendingRecache s; tasks := m;
     settled := settled s; refreshes := refreshes s; served := served s;
     console := console s |}.

Definition set_settled (m : gmap nat Settled) (s : State) : State :=
  {| PendingRequest := PendingRequest s; PendingRecache := PendingRecache s;
     tasks := tasks s; settled := m; refreshes := refreshes s; served := served s;
     console := console s |}.

Definition set_refreshes (l : list Refresh) (s : State) : State :=
  {| PendingRequest := PendingRequest s; PendingRecache := PendingRecache s;
     tasks := tasks s; settled := settled s; refreshes := l; served := served s;
     console := console s |}.

Definition add_served (id : nat) (calls : list ResCall) (s : State) : State :=
  {| PendingRequest := PendingRequest s; PendingRecache := PendingRecache s;
     tasks := tasks s; settled := settled s; refreshes := refreshes s;
     served := served s ++ [(id, calls)]; console := console s |}.

Definition add_console (lines : list (string * string)) (s : State) : State :=
  {| PendingRequest := PendingRequest s; PendingRecache := PendingRecache s;
     tasks := tasks s; settled := settled s; refreshes := refreshes s;
     served := served s; console := console s ++ lines |}.

Definition set_task (id : nat) (t : Task) (s : State) : State :=
  set_tasks (<[id := t]> (tasks s)) s.

Definition at_pc (p : pc) (t : Task) : Task :=
  {| t_ctx := t_ctx t; t_pc := p; t_armed := t_armed t |}.

(** [p.catch((e) => console.error(label, e))]: the new promise is
    fulfilled either way; a rejection leaves a line on the console. *)
Definition promise_catch (label : string) (r : Settled)
    : list (string * string) * Settled :=
  match r with
  | Fulfilled => ([], Fulfilled)
  | Rejected e => ([(label, e)], Fulfilled)
  end.

(** [await p; rest]: a rejection leaves the async function rejected, a
    fulfilment continues at [rest]. *)
Definition await (r : Settled) (rest : pc) : pc :=
  match r with
  | Fulfilled => rest
  | Rejected e => Failed e
  end.

(** Lines 20-93 up to the first [await]. *)
Definition arrive (id : nat) (ctx : Ctx) (s : State) : option State :=
  match tasks s !! id with
  | Some _ => None
  | None =>
      let start :=
        if bool_decide (method ctx = "GET") then
          match PendingRequest s !! cache_key ctx with
          | Some p => AwaitPending p
          | None => AwaitGet false
          end
        else Bypassed in
      Some (set_task id {| t_ctx := ctx; t_pc := start; t_armed := false |} s)
  end.

(** Lines 94-97 and 186: the request on the path without a pending origin
    call was served from the cache. *)
Definition after_hit (id : nat) (t : Task) (ended : Ended) (s : State) : State :=
  let key := cache_key (t_ctx t) in
  match PendingRecache s !! key with
  | None =>
      if recacheable ended then
        set_refreshes
          (refreshes s ++ [ {| r_id := id; r_key := key; r_ctx := t_ctx t;
                               r_ended := ended; r_pc := RWaitClose |} ])
          (set_PendingRecache (<[key := id]> (PendingRecache s)) s)
      else s
  | Some _ => s
  end.

(** Lines 189-281 up to the [await]: the registration of lines 257-273 and
    the call of [next]. *)
Definition after_miss (id : nat) (t : Task) (s : State) : State :=
  let key := cache_key (t_ctx t) in
  if no_max_age (cache_opts (cache_control (t_ctx t))) then
    set_task id {| t_ctx := t_ctx t; t_pc := InHandler; t_armed := true |}
      (set_PendingRequest (<[key := id]> (PendingRequest s)) s)
  else
    set_task id (at_pc InHandler t) s.

(** The listener of lines 260-266. *)
Definition on_finish (id : nat) (t : Task) (s : State) : State :=
  if t_armed t then
    set_task id {| t_ctx := t_ctx t; t_pc := t_pc t; t_armed := false |}
      (set_settled (<[id := Fulfilled]> (settled s))
         (set_PendingRequest (delete (cache_key (t_ctx t)) (PendingRequest s)) s))
  else s.

(** The request that the application call of line 163 handles: the
    request object is the one of the first request, so method, url and
    headers are the same, apart from the header of line 101; the new
    context has the user, domain and locale resolved for it again. *)
Definition replay_ctx (r : Refresh) (rv : Resolved) : Ctx :=
  let c := r_ctx r in
  {| method := method c; path := path c; query := query c;
     cache_control := recache_cache_control (r_ended r);
     accept_encoding := accept_encoding c; authorization := authorization c;
     user_pro := rv_pro rv; domain := rv_domain rv; locale := rv_locale rv |}.

Definition at_rpc (p : rpc) (r : Refresh) : Refresh :=
  {| r_id := r_id r; r_key := r_key r; r_ctx := r_ctx r; r_ended := r_ended r;
     r_pc := p |}.

Definition find_refresh (id : nat) (p : rpc) (s : State) : option Refresh :=
  List.find (fun r => bool_decide (r_id r = id ∧ r_pc r = p)) (refreshes s).

(** The console lines of lines 169-182 for one application call. *)
Definition replay_lines (key : string) (r : ReplayResult) : list (string * string) :=
  match r with
  | ReplayStatus st =>
      if (st >=? 200) && (st <? 500) then []
      else [("Failed to recache", key)]
  | ReplayThrew e => [("recache error", e)]
  end.

Definition step (s : State) (e : Event) : option State :=
  match e with
  | Arrive id ctx => arrive id ctx s
  | PendingSettled id =>
      t ← tasks s !! id;
      match t_pc t with
      | AwaitPending p =>
          r ← settled s !! p;
          let '(lines, r') := promise_catch "cache pending error" r in
          Some (set_task id (at_pc (await r' (AwaitGet true)) t) (add_console lines s))
      | _ => None
      end
  | GetReturned id cached now_ms =>
      t ← tasks s !! id;
      match t_pc t with
      | AwaitGet waited =>
          let key := cache_key (t_ctx t) in
          match tryRespondWithCache (scope_of (authorization (t_ctx t))) key now_ms cached with
          | Some (ended, calls) =>
              let s := set_task id (at_pc Returned t) (add_served id calls s) in
              Some (if waited then s else after_hit id t ended s)
          | None => Some (after_miss id t s)
          end
      | _ => None
      end
  | HandlerSettled id r =>
      t ← tasks s !! id;
      match t_pc t with
      | InHandler => Some (set_task id (at_pc (await r Returned) t) s)
      | _ => None
      end
  | Finish id =>
      t ← tasks s !! id;
      match t_pc t with
      | InHandler | Returned | Failed _ => Some (on_finish id t s)
      | _ => None
      end
  | Closed id replay rv =>
      r ← find_refresh id RWaitClose s;
      arrive replay (replay_ctx r rv)
        (set_refreshes
           (map (fun r' => if bool_decide (r_id r' = id) then at_rpc RReplay r' else r')
              (refreshes s)) s)
  | ReplaySettled id res =>
      r ← find_refresh id RReplay s;
      Some (set_PendingRecache (delete (r_key r) (PendingRecache s))
              (set_refreshes (filter (fun r' => r_id r' ≠ id) (refreshes s))
                 (add_console (replay_lines (r_key r) res) s)))
  end.

(** A run of events; [None] when one of them cannot happen. *)
Fixpoint run (s : State) (es : list Event) : option State :=
  match es with
  | [] => Some s
  | e :: es' => s' ← step s e; run s' es'
  end.

Definition reachable (s : State) : Prop := ∃ es, run init_state es = Some s.

(** The requests whose origin handler is executing for a key. *)
Definition in_handler (key : string) (s : State) : gmap nat Task :=
  filter (fun it => t_pc it.2 = InHandler ∧ cache_key (t_ctx it.2) = key) (tasks s).

(** The live [recache] tasks of a key. *)
Definition refreshes_for (key : string) (s : State) : list Refresh :=
  filter (fun r => r_key r = key) (refreshes s).

(* ===================================================================== *)
(** ** Sample requests, and what the proofs keep track of                 *)
(* ===================================================================== *)

(** A client's response on which nothing has been set or sent. *)
Definition fresh_res : RealRes :=
  {| r_writable := true; r_statusCode := 200; r_statusMessage := "";
     r_headers := None; r_header := None; r_finished := false; r_destroyed := false |}.

Definition demo_ctx : Ctx :=
  {| method := "GET"; path := "/items";
     query := [("sort", QStr "asc"); ("lang_ID", QStr "fr")];
     cache_control := ""; accept_encoding := "gzip"; authorization := "";
     user_pro := false;
     domain := Some {| d_prefix := "shop"; d_numericFormat := "" |};
     locale := Some {| l_tag := "en" |} |}.

(** Two requests for the same resource that differ in the resolved domain
    only: none at all, and one whose prefix is the word [none]. *)
Definition ctx_no_domain : Ctx :=
  {| method := "GET"; path := "/items"; query := [("sort", QStr "asc")];
     cache_control := ""; accept_encoding := "gzip"; authorization := "";
     user_pro := false; domain := None; locale := Some {| l_tag := "en" |} |}.

Definition ctx_domain_none : Ctx :=
  {| method := "GET"; path := "/items"; query := [("sort", QStr "asc")];
     cache_control := ""; accept_encoding := "gzip"; authorization := "";
     user_pro := false;
     domain := Some {| d_prefix := "none"; d_numericFormat := "" |};
     locale := Some {| l_tag := "en" |} |}.

(** Two requests whose domain prefix and locale tag differ but spell the
    same words once they are joined with blanks. *)
Definition ctx_blank_a : Ctx :=
  {| method := "GET"; path := "/items"; query := [];
     cache_control := ""; accept_encoding := ""; authorization := "";
     user_pro := false;
     domain := Some {| d_prefix := "a lang=b"; d_numericFormat := "" |};
     locale := Some {| l_tag := "c" |} |}.

Definition ctx_blank_b : Ctx :=
  {| method := "GET"; path := "/items"; query := [];
     cache_control := ""; accept_encoding := ""; authorization := "";
     user_pro := false;
     domain := Some {| d_prefix := "a"; d_numericFormat := "" |};
     locale := Some {| l_tag := "b lang=c" |} |}.

(** The parts of a request that the key is built from hold no blank, and
    the path holds no question mark. *)
Definition separable (c : Ctx) : bool :=
  negb (occurs " " (method c)) && negb (occurs " " (path c))
  && negb (occurs "?" (path c))
  && negb (occurs " " (domain_tag (domain c)))
  && negb (occurs " " (lang_tag (locale c)))
  && negb (occurs " " (format_tag (domain c))).

(** A second request for the resource of [demo_ctx]: another language
    override, another list of accepted encodings, a credential. *)
Definition demo_ctx_de : Ctx :=
  {| method := "GET"; path := "/items";
     query := [("lang_ID", QStr "de"); ("sort", QStr "asc")];
     cache_control := "no-cache"; accept_encoding := "gzip, deflate";
     authorization := "Bearer t";
     user_pro := false;
     domain := Some {| d_prefix := "shop"; d_numericFormat := "" |};
     locale := Some {| l_tag := "en" |} |}.

(** The key is the join of seven words. *)
Definition key_words (c : Ctx) : list string :=
  method c
  :: (path c +:+ "?" +:+ qs_stringify (strip_lang (query c)))
  :: map (fun kv => fst kv +:+ "=" +:+ snd kv) (cachekeys c).

(** The body bytes that a sequence of handler steps writes. *)
Definition body_writes (ops : list HandlerOp) : list string :=
  omap (fun op =>
          match op with
          | Write chunk _ => Some (chunk_bytes chunk)
          | End (Some d) _ _ => Some (chunk_bytes d)
          | _ => None
          end) ops.

Definition fresh_shadow : Shadow :=
  {| statusCode := 0; statusMessage := ""; newHeaders := ∅ |}.

(** A stored entry that is ten seconds old at second 20 and expires at
    second 25. *)
Definition young_entry : Entry :=
  {| e_head := {| h_iat := Some 10; h_exp := Some 25; h_status := 200;
                  h_message := "OK"; h_type := "text/plain"; h_length := "2";
                  h_encoding := "" |};
     e_body := "ok" |}.

(** The refresh that request [id] schedules after a hit. *)
Definition new_refresh (id : nat) (t : Task) (ended : Ended) : Refresh :=
  {| r_id := id; r_key := cache_key (t_ctx t); r_ctx := t_ctx t;
     r_ended := ended; r_pc := RWaitClose |}.

(** What holds of the recache registry in every reachable state: a key
    without an entry in [PendingRecache] has no live task, and no key has
    more than one. *)
Definition recache_inv (s : State) : Prop :=
  ∀ key, (PendingRecache s !! key = None → refreshes_for key s = [])
         ∧ (length (refreshes_for key s) ≤ 1)%nat.

(** A state with one origin call in flight for the key of [demo_ctx], made
    by request 1. *)
Definition one_in_flight : State :=
  {| PendingRequest := {[ cache_key demo_ctx := 1%nat ]};
     PendingRecache := ∅;
     tasks := {[ 1%nat := {| t_ctx := demo_ctx; t_pc := InHandler; t_armed := true |} ]};
     settled := ∅; refreshes := []; served := []; console := [] |}.

(** What was resolved for a request. *)
Definition resolved_of (c : Ctx) : Resolved :=
  {| rv_pro := user_pro c; rv_domain := domain c; rv_locale := locale c |}.

(** The request that a [recache] task replays for an entry that is one
    second old: its header is [server; max-age=0;]. *)
Definition replay_of_fresh_entry : Ctx :=
  replay_ctx {| r_id := 1%nat; r_key := cache_key demo_ctx; r_ctx := demo_ctx;
                r_ended := {| rtl := 0; age := 1 |}; r_pc := RReplay |}
             (resolved_of demo_ctx).

(** The events up to the application call of a recache task: request 1
    is served [young_entry], its response closes, the replay enters as
    request 2. *)
Definition replay_events : list Event :=
  [Arrive 1 demo_ctx; GetReturned 1 (Some young_entry) 20000;
   Closed 1 2 (resolved_of demo_ctx)].

Definition replaying_state : State :=
  default init_state (run init_state replay_events).

(** The events that resume request [id] itself. *)
Definition own_event (id : nat) (e : Event) : bool :=
  match e with
  | PendingSettled i | GetReturned i _ _ | HandlerSettled i _ | Finish i =>
      bool_decide (i = id)
  | Arrive _ _ | Closed _ _ _ | ReplaySettled _ _ => false
  end.


(** A header object as the flat array [[k1, v1, k2, v2, ...]]. *)
Definition flatten_pairs (l : list (string * option string)) : list (option string) :=
  flat_map (fun kv => [Some (fst kv); snd kv]) l.

(** The same request with another query. *)
Definition with_query (q : list (string * qvalue)) (c : Ctx) : Ctx :=
  {| method := method c; path := path c; query := q;
     cache_control := cache_control c; accept_encoding := accept_encoding c;
     authorization := authorization c; user_pro := user_pro c;
     domain := domain c; locale := locale c |}.

(** The program points that lie behind the registration of lines
    257-273. *)
Definition past_registration (p : pc) : bool :=
  match p with
  | InHandler | Returned | Failed _ => true
  | Bypassed | AwaitPending _ | AwaitGet _ => false
  end.

(** What holds of [PendingRequest] and of the promises in every reachable
    state: a registration names a request of that key whose ['finish']
    listener waits; such a request is behind its registration and its
    promise has not settled; a settled promise is fulfilled and its
    request's listener has run; the console holds no line of line 87. *)
Definition pending_inv (s : State) : Prop :=
  (∀ k p, PendingRequest s !! k = Some p →
          ∃ t, tasks s !! p = Some t ∧ t_armed t = true ∧ cache_key (t_ctx t) = k)
  ∧ (∀ id t, tasks s !! id = Some t → t_armed t = true →
             past_registration (t_pc t) = true ∧ settled s !! id = None)
  ∧ (∀ id r, settled s !! id = Some r →
             r = Fulfilled
             ∧ ∃ t, tasks s !! id = Some t ∧ past_registration (t_pc t) = true
                    ∧ t_armed t = false)
  ∧ (∀ line, line ∈ console s → line.1 ≠ "cache pending error").

(** What holds of the responses served from the cache in every reachable
    state: each was served to a request that has returned without
    registering, and no request was served twice. *)
Definition served_inv (s : State) : Prop :=
  NoDup (served s).*1
  ∧ ∀ id, id ∈ (served s).*1 →
          ∃ t, tasks s !! id = Some t ∧ t_pc t = Returned ∧ t_armed t = false.

(** A request with another method than GET. *)
Definition post_ctx : Ctx :=
  {| method := "POST"; path := "/items"; query := [];
     cache_control := ""; accept_encoding := "gzip"; authorization := "";
     user_pro := false; domain := None; locale := None |}.

(** What holds of the live [recache] tasks in every reachable state: each
    is the entry of its key in [PendingRecache], was scheduled by a
    request that was served an entry that was recacheable, for the key of
    that request; every entry of [PendingRecache] has its task; and no
    request has two tasks. *)
Definition refresh_inv (s : State) : Prop :=
  (∀ r, r ∈ refreshes s →
        PendingRecache s !! r_key r = Some (r_id r)
        ∧ r_id r ∈ (served s).*1
        ∧ recacheable (r_ended r) = true
        ∧ r_key r = cache_key (r_ctx r))
  ∧ (∀ k id, PendingRecache s !! k = Some id →
             ∃ r, r ∈ refreshes s ∧ r_key r = k ∧ r_id r = id)
  ∧ NoDup (r_id <$> refreshes s).

(** A [writeHead] call without a string [statusMessage], stripped of every
    header argument: [writeHead(status)]. *)
Definition without_headers (op : HandlerOp) : HandlerOp :=
  match op with
  | WriteHead st (MStr m) h => WriteHead st (MStr m) h
  | WriteHead st _ _ => WriteHead st MUndef None
  | _ => op
  end.

(** Two states of a request with the same listeners and the same writes
    to the cache. *)
Definition same_listeners (w w' : World) : Prop :=
  onFinishFinal w' = onFinishFinal w
  ∧ responseArmed w' = responseArmed w
  ∧ cache_sets (trace w') = cache_sets (trace w).

(** Nothing about the head has been captured. *)
Definition head_untouched (c : Capture) : Prop :=
  finalStatus c = 0 ∧ finalStatusMessage c = "" ∧ contentType c = ""
  ∧ contentLength c = "" ∧ contentEncoding c = "".

(** What holds of a request on the miss path up to its first [end]
    (while the listener of line 254 waits): something about the head has
    been captured only once the head has been handed to Node, unless the
    guard of line 224 holds it back. *)
Definition head_inv (w : World) : Prop :=
  responseArmed w = true → stopped w = false →
  suppressed (res w) = true ∨ get_headersSent (res w) = true ∨ head_untouched (cap w).








(** [ctx.query] as Koa builds it with [querystring.parse]: every name
    once, and an array only for a parameter that occurs twice or more. *)
Definition parsed_value (v : qvalue) : bool :=
  match v with QStr _ => true | QArr l => (2 <=? length l)%nat end.

Definition parsed_query (q : list (string * qvalue)) : bool :=
  bool_decide (NoDup (q.*1)) && forallb (fun kv => parsed_value (snd kv)) q.

(** The [name=value] fields that [querystring.stringify] writes for one
    property, and for a whole query. *)
Definition pairs_of (kv : string * qvalue) : list (string * string) :=
  match snd kv with
  | QStr v => [(fst kv, v)]
  | QArr vs => map (pair (fst kv)) vs
  end.

Definition field_string (p : string * string) : string :=
  qs_escape (fst p) +:+ "=" +:+ qs_escape (snd p).

(** One more field behind what [querystring.stringify] has written. *)
Definition add_field (fields : string) (p : string * string) : string :=
  (if nonempty fields then fields +:+ "&" else fields) +:+ field_string p.

(** The values of a property, one for each field. *)
Definition values_of (v : qvalue) : list string :=
  match v with QStr s => [s] | QArr l => l end.

(** Reading one escaped byte back: the inverse of [escape_char]. *)
Definition hex_value (a : ascii) : nat :=
  let n := nat_of_ascii a in if (n <? 58)%nat then (n - 48)%nat else (n - 55)%nat.

Definition unescape_char (s : string) : option (ascii * string) :=
  match s with
  | EmptyString => None
  | String c t =>
      if Ascii.eqb c "%" then
        match t with
        | String h (String l t') => Some (ascii_of_nat (hex_value h * 16 + hex_value l), t')
        | _ => None
        end
      else Some (c, t)
  end.

(** The steps of a handler that leaves the body to Koa: it sets the age,
    the max-age, the status, the status message and headers, with values
    that Node accepts, and does not write to the response itself. *)
Definition plain_op (op : HandlerOp) : bool :=
  match op with
  | SetAge a => Z.abs a <=? 2 ^ 53
  | SetMaxage m => Z.abs m <=? 2 ^ 53
  | SetStatus s => (100 <=? to_int32 s) && (to_int32 s <=? 999)
  | SetStatusMessage m => valid_header_value m
  | SetHeader k v => valid_header_name k && valid_header_value v
  | WriteHead _ _ _ | Write _ _ | End _ _ _ => false
  end.

(** A client's response as a request finds it: nothing sent, not ended,
    the connection there, a status that Node accepts. *)
Definition untouched_res (r : RealRes) : Prop :=
  r_header r = None ∧ r_finished r = false ∧ r_destroyed r = false
  ∧ valid_header_value (r_statusMessage r) = true
  ∧ 100 ≤ to_int32 (r_statusCode r) ≤ 999.

Definition plain_inv (w : World) : Prop :=
  stopped w = false
  ∧ Z.abs (ctx_age (cacheCtx w)) ≤ 2 ^ 53 ∧ Z.abs (ctx_maxage (cacheCtx w)) ≤ 2 ^ 53
  ∧ ∃ r, res w = RealResponse r ∧ untouched_res r.
(* ===================================================================== *)
(** * Properties                                                          *)
(* ===================================================================== *)

(** ** CacheControlPolicy *)

(** C4, as the code has it: for every GET request, cache reads are
    disabled exactly when the cache-control header contains [no-cache]
    and also contains [server], and cache writes are disabled exactly when
    it contains [no-store] and also contains [server]. *)
Theorem policy_directives_need_server (ctx : Ctx) :
  let cc := cache_control ctx in
  (noCache (cache_opts cc) = true
   ↔ matches "no-cache" cc = true ∧ matches "server" cc = true)
  ∧ (noStore (cache_opts cc) = true
     ↔ matches "no-store" cc = true ∧ matches "server" cc = true).
Proof.
  intros cc. unfold cache_opts, shouldRead, shouldWrite. simpl.
  destruct (matches "no-cache" cc), (matches "no-store" cc), (matches "server" cc);
    simpl; intuition congruence.
Qed.

(** C4 as stated fails: with the header [no-cache, server] reads are
    disabled although the header does not lack the [server] token, and with
    [no-store, server] writes are. *)
Lemma policy_server_token_counterexample :
  noCache (cache_opts "no-cache, server") = true
  ∧ ¬ (matches "no-cache" "no-cache, server" = true
       ∧ matches "server" "no-cache, server" = false)
  ∧ noStore (cache_opts "no-store, server") = true
  ∧ ¬ (matches "no-store" "no-store, server" = true
       ∧ matches "server" "no-store, server" = false).
Proof.
  repeat split; try reflexivity; intros [_ H]; vm_compute in H; discriminate.
Qed.

(** ** CacheKeyBuilder *)

Lemma append_cons (c : ascii) (s t : string) : String c s +:+ t = String c (s +:+ t).
Proof. reflexivity. Qed.

Lemma append_empty (t : string) : "" +:+ t = t.
Proof. reflexivity. Qed.

Lemma append_assoc (a b c : string) : (a +:+ b) +:+ c = a +:+ (b +:+ c).
Proof.
  induction a as [|x a IH]; [reflexivity|].
  rewrite !append_cons. by rewrite IH.
Qed.

Lemma occurs_append (c : ascii) (a b : string) :
  occurs c (a +:+ b) = occurs c a || occurs c b.
Proof.
  induction a as [|x a IH]; [reflexivity|].
  rewrite append_cons. simpl. destruct (Ascii.eqb c x); [reflexivity|apply IH].
Qed.

(** A string is cut at the first occurrence of a character in one way
    only. *)
Lemma split_at_first (c : ascii) (a a' b b' : string) :
  occurs c a = false → occurs c a' = false →
  a +:+ String c b = a' +:+ String c b' → a = a' ∧ b = b'.
Proof.
  revert a'. induction a as [|x a IH]; intros [|x' a'] Ha Ha' E.
  - rewrite !append_empty in E. by injection E.
  - rewrite append_empty, append_cons in E. injection E as -> _.
    simpl in Ha'. by rewrite Ascii.eqb_refl in Ha'.
  - rewrite append_empty, append_cons in E. injection E as -> _.
    simpl in Ha. by rewrite Ascii.eqb_refl in Ha.
  - rewrite !append_cons in E. injection E as -> E.
    simpl in Ha, Ha'.
    destruct (Ascii.eqb c x'); [discriminate|].
    destruct (IH a' Ha Ha' E) as [-> ->]. done.
Qed.

Lemma join_cons2 (sep x y : string) (l : list string) :
  join sep (x :: y :: l) = x +:+ sep +:+ join sep (y :: l).
Proof. reflexivity. Qed.

(** Words without the separator are recovered from their [join]. *)
Lemma join_inj (c : ascii) (xs ys : list string) :
  length xs = length ys →
  Forall (fun x => occurs c x = false) xs →
  Forall (fun y => occurs c y = false) ys →
  join (String c "") xs = join (String c "") ys → xs = ys.
Proof.
  revert ys. induction xs as [|x xs IH]; intros [|y ys] Hlen Hx Hy E;
    try discriminate; [done|].
  inversion_clear Hx as [|? ? Hx0 Hxs]. inversion_clear Hy as [|? ? Hy0 Hys].
  destruct xs as [|x2 xs], ys as [|y2 ys]; try discriminate.
  - simpl in E. by subst.
  - rewrite !join_cons2, !append_cons, !append_empty in E.
    destruct (split_at_first c x y _ _ Hx0 Hy0 E) as [-> E'].
    f_equal. apply IH; auto.
Qed.

Lemma occurs_cons (c d : ascii) (s : string) :
  occurs c (String d s) = if Ascii.eqb c d then true else occurs c s.
Proof. reflexivity. Qed.

Lemma escape_char_no_blank (c : ascii) : occurs " " (escape_char c) = false.
Proof.
  unfold escape_char. destruct (unreserved c) eqn:U.
  - rewrite occurs_cons. destruct (Ascii.eqb " " c) eqn:E; [|done].
    apply Ascii.eqb_eq in E. subst c. vm_compute in U. discriminate.
  - generalize (Nat.mod_upper_bound (nat_of_ascii c) 16 ltac:(done)).
    generalize (nat_of_ascii c `mod` 16)%nat as lo.
    assert (nat_of_ascii c / 16 < 16)%nat as Hhi.
    { apply Nat.Div0.div_lt_upper_bound. pose proof (nat_ascii_bounded c). lia. }
    revert Hhi. generalize (nat_of_ascii c / 16)%nat as hi.
    intros hi Hhi lo Hlo.
    do 16 (destruct hi as [|hi]; [do 16 (destruct lo as [|lo]; [reflexivity|]); lia|]).
    lia.
Qed.

Lemma qs_escape_no_blank (s : string) : occurs " " (qs_escape s) = false.
Proof.
  induction s as [|c s IH]; [reflexivity|].
  simpl. by rewrite occurs_append, escape_char_no_blank, IH.
Qed.

Lemma stringify_array_no_blank ks vs first fields :
  occurs " " ks = false → occurs " " fields = false →
  occurs " " (stringify_array ks first vs fields) = false.
Proof.
  intros Hks. revert first fields.
  induction vs as [|v vs IH]; intros first fields Hf; [done|].
  simpl. apply IH.
  rewrite !occurs_append, Hks, qs_escape_no_blank.
  destruct first; [by rewrite Hf|]. by rewrite occurs_append, Hf.
Qed.

Lemma stringify_field_no_blank fields kv :
  occurs " " fields = false → occurs " " (stringify_field fields kv) = false.
Proof.
  intros Hf. unfold stringify_field.
  assert (occurs " " (qs_escape kv.1 +:+ "=") = false) as Hks.
  { by rewrite occurs_append, qs_escape_no_blank. }
  assert (occurs " " (if nonempty fields then fields +:+ "&" else fields) = false) as Hf'.
  { destruct (nonempty fields); [|done]. by rewrite occurs_append, Hf. }
  destruct (snd kv) as [v|[|v vs]]; [| done |].
  - by rewrite !occurs_append, Hf', !qs_escape_no_blank.
  - by apply stringify_array_no_blank.
Qed.

(** The serialized query never holds a blank: [querystring.escape]
    replaces it. *)
Lemma qs_stringify_no_blank (q : list (string * qvalue)) :
  occurs " " (qs_stringify q) = false.
Proof.
  unfold qs_stringify. generalize (eq_refl : occurs " " "" = false).
  generalize ""%string as fields. induction q as [|kv q IH]; intros fields Hf; [done|].
  simpl. apply IH. by apply stringify_field_no_blank.
Qed.

Lemma negotiate_no_blank (e : string) : occurs " " (negotiate e) = false.
Proof. unfold negotiate. by repeat case_match. Qed.

Lemma cache_key_words (c : Ctx) : cache_key c = join " " (key_words c).
Proof.
  unfold cache_key, key_words. simpl join.
  by rewrite !append_assoc.
Qed.

Lemma key_words_no_blank (c : Ctx) :
  separable c = true → Forall (fun x => occurs " " x = false) (key_words c).
Proof.
  unfold separable. rewrite !andb_true_iff, !negb_true_iff.
  intros [[[[[Hm Hp] _] Hd] Hl] Hf].
  unfold key_words, cachekeys. simpl map.
  repeat apply Forall_cons_2; try apply Forall_nil_2.
  - done.
  - by rewrite !occurs_append, Hp, qs_stringify_no_blank.
  - by destruct (user_pro c).
  - by rewrite !occurs_append, Hd.
  - by rewrite !occurs_append, Hl.
  - by rewrite !occurs_append, Hf.
  - by rewrite !occurs_append, negotiate_no_blank.
Qed.

(** *** The serialized query determines the query *)

Lemma unescape_escape (c : ascii) (t : string) :
  unescape_char (escape_char c +:+ t) = Some (c, t).
Proof. destruct c as [[] [] [] [] [] [] [] []]; reflexivity. Qed.

Lemma qs_escape_inj (s1 s2 : string) : qs_escape s1 = qs_escape s2 → s1 = s2.
Proof.
  revert s2. induction s1 as [|c1 s1 IH]; intros [|c2 s2] E; [done| | |].
  - apply (f_equal unescape_char) in E. simpl qs_escape in E.
    by rewrite unescape_escape in E.
  - apply (f_equal unescape_char) in E. simpl qs_escape in E.
    by rewrite unescape_escape in E.
  - apply (f_equal unescape_char) in E. simpl qs_escape in E.
    rewrite !unescape_escape in E. injection E as -> E. by rewrite (IH _ E).
Qed.

Lemma escape_char_no_sep (c : ascii) :
  occurs "&" (escape_char c) = false ∧ occurs "=" (escape_char c) = false.
Proof. destruct c as [[] [] [] [] [] [] [] []]; split; reflexivity. Qed.

Lemma qs_escape_no_sep (s : string) :
  occurs "&" (qs_escape s) = false ∧ occurs "=" (qs_escape s) = false.
Proof.
  induction s as [|c s [IH1 IH2]]; [done|].
  destruct (escape_char_no_sep c) as [H1 H2].
  simpl. by rewrite !occurs_append, H1, H2, IH1, IH2.
Qed.

Lemma field_string_no_amp (p : string * string) : occurs "&" (field_string p) = false.
Proof.
  unfold field_string. rewrite !occurs_append.
  destruct (qs_escape_no_sep p.1) as [-> _], (qs_escape_no_sep p.2) as [-> _]. done.
Qed.

Lemma field_string_inj (p1 p2 : string * string) :
  field_string p1 = field_string p2 → p1 = p2.
Proof.
  destruct p1 as [k1 v1], p2 as [k2 v2]. unfold field_string. cbn [fst snd]. intros E.
  destruct (split_at_first "=" (qs_escape k1) (qs_escape k2) (qs_escape v1) (qs_escape v2))
    as [Ek Ev]; [apply qs_escape_no_sep | apply qs_escape_no_sep | exact E |].
  by rewrite (qs_escape_inj _ _ Ek), (qs_escape_inj _ _ Ev).
Qed.

Lemma nonempty_append_r (a b : string) : nonempty b = true → nonempty (a +:+ b) = true.
Proof. destruct a; [by rewrite append_empty|]. by rewrite append_cons. Qed.

Lemma field_string_nonempty (p : string * string) : nonempty (field_string p) = true.
Proof. unfold field_string. by apply nonempty_append_r. Qed.

(** [join] loses nothing on non-empty strings that do not hold the
    separator, whatever the lengths of the lists. *)
Lemma join_fields_inj (c : ascii) (xs ys : list string) :
  Forall (fun x => occurs c x = false ∧ nonempty x = true) xs →
  Forall (fun y => occurs c y = false ∧ nonempty y = true) ys →
  join (String c "") xs = join (String c "") ys → xs = ys.
Proof.
  revert ys. induction xs as [|x xs IH]; intros ys Hx Hy E.
  - destruct ys as [|y ys]; [done|]. exfalso.
    inversion_clear Hy as [|? ? [_ Hy0] _].
    destruct ys as [|y2 ys]; simpl in E.
    + by subst y.
    + destruct y; [done|]. by rewrite append_cons in E.
  - inversion_clear Hx as [|? ? [Hx0 Hx1] Hxs].
    destruct ys as [|y ys].
    { exfalso. destruct xs as [|x2 xs]; simpl in E.
      - by subst x.
      - destruct x; [done|]. by rewrite append_cons in E. }
    inversion_clear Hy as [|? ? [Hy0 Hy1] Hys].
    destruct xs as [|x2 xs], ys as [|y2 ys].
    + simpl in E. by subst.
    + exfalso. rewrite join_cons2 in E. simpl in E. subst x.
      rewrite occurs_append, append_cons, occurs_cons, Ascii.eqb_refl in Hx0.
      by destruct (occurs c y).
    + exfalso. rewrite join_cons2 in E. simpl in E. subst y.
      rewrite occurs_append, append_cons, occurs_cons, Ascii.eqb_refl in Hy0.
      by destruct (occurs c x).
    + rewrite !join_cons2, !append_cons, !append_empty in E.
      destruct (split_at_first c x y _ _ Hx0 Hy0 E) as [-> E'].
      f_equal. by apply IH.
Qed.

(** What [querystring.stringify] writes: the fields of all properties,
    joined by [&]. *)
Lemma stringify_array_rest (k : string) (vs : list string) (fields : string) :
  nonempty fields = true →
  stringify_array (qs_escape k +:+ "=") false vs fields
  = fold_left add_field (map (pair k) vs) fields.
Proof.
  revert fields. induction vs as [|v vs IH]; intros fields N; [done|].
  cbn [stringify_array map fold_left].
  assert ((fields +:+ "&") +:+ (qs_escape k +:+ "=") +:+ qs_escape v
          = add_field fields (k, v)) as ->.
  { unfold add_field, field_string. cbn [fst snd]. by rewrite N, !append_assoc. }
  apply IH. unfold add_field. rewrite N. apply nonempty_append_r, field_string_nonempty.
Qed.

Lemma stringify_field_fields (fields : string) (kv : string * qvalue) :
  stringify_field fields kv = fold_left add_field (pairs_of kv) fields.
Proof.
  destruct kv as [k [v|vs]]; unfold stringify_field, pairs_of; cbn [fst snd].
  - cbn [fold_left]. unfold add_field, field_string. cbn [fst snd].
    by rewrite !append_assoc.
  - destruct vs as [|v vs]; [done|].
    cbn [stringify_array map fold_left].
    assert ((if nonempty fields then fields +:+ "&" else fields)
            +:+ (qs_escape k +:+ "=") +:+ qs_escape v = add_field fields (k, v)) as ->.
    { unfold add_field, field_string. cbn [fst snd]. by rewrite !append_assoc. }
    apply stringify_array_rest. unfold add_field.
    apply nonempty_append_r, field_string_nonempty.
Qed.

Lemma qs_stringify_fields (q : list (string * qvalue)) :
  qs_stringify q = fold_left add_field (flat_map pairs_of q) "".
Proof.
  unfold qs_stringify. generalize ""%string as fields.
  induction q as [|kv q IH]; intros fields; [done|].
  cbn [fold_left flat_map]. rewrite fold_left_app, <- stringify_field_fields. apply IH.
Qed.

Lemma join_merge (sep a b : string) (l : list string) :
  join sep ((a +:+ sep +:+ b) :: l) = join sep (a :: b :: l).
Proof.
  rewrite (join_cons2 sep a b). destruct l as [|c l]; [done|].
  rewrite !join_cons2. by rewrite !append_assoc.
Qed.

Lemma fold_add_field_join (ps : list (string * string)) (acc : string) :
  nonempty acc = true →
  fold_left add_field ps acc = join "&" (acc :: map field_string ps).
Proof.
  revert acc. induction ps as [|p ps IH]; intros acc N; [done|].
  cbn [fold_left map]. rewrite IH.
  - unfold add_field. rewrite N, append_assoc. apply join_merge.
  - unfold add_field. rewrite N. apply nonempty_append_r, field_string_nonempty.
Qed.

Lemma qs_stringify_join (q : list (string * qvalue)) :
  qs_stringify q = join "&" (map field_string (flat_map pairs_of q)).
Proof.
  rewrite qs_stringify_fields. destruct (flat_map pairs_of q) as [|p ps]; [done|].
  cbn [fold_left map]. unfold add_field at 2. cbn [nonempty]. rewrite append_empty.
  apply fold_add_field_join, field_string_nonempty.
Qed.

(** The fields determine the properties when every name occurs once and
    no array is shorter than two. *)
Lemma pairs_of_values (k : string) (v : qvalue) :
  pairs_of (k, v) = map (pair k) (values_of v).
Proof. by destruct v. Qed.

Lemma values_of_inj (v1 v2 : qvalue) :
  parsed_value v1 = true → parsed_value v2 = true →
  values_of v1 = values_of v2 → v1 = v2.
Proof.
  destruct v1 as [s1|l1], v2 as [s2|l2]; cbn; intros P1 P2 E.
  - congruence.
  - subst l2. done.
  - subst l1. done.
  - congruence.
Qed.

Lemma values_of_nonempty (v : qvalue) : parsed_value v = true → values_of v ≠ [].
Proof. destruct v as [s|[|x l]]; done. Qed.

Lemma flat_names (q : list (string * qvalue)) (p : string * string) :
  p ∈ flat_map pairs_of q → fst p ∈ q.*1.
Proof.
  induction q as [|[k v] q IH]; [by intros ?%elem_of_nil|].
  cbn [flat_map]. rewrite elem_of_app, pairs_of_values. intros [H|H].
  - apply list_elem_of_In, in_map_iff in H as (x & <- & _). cbn. apply list_elem_of_here.
  - cbn. apply list_elem_of_further. by apply IH.
Qed.

Lemma run_of_name_inj (k : string) (vs1 vs2 : list string) (r1 r2 : list (string * string)) :
  Forall (fun p => fst p ≠ k) r1 → Forall (fun p => fst p ≠ k) r2 →
  map (pair k) vs1 ++ r1 = map (pair k) vs2 ++ r2 → vs1 = vs2 ∧ r1 = r2.
Proof.
  intros H1 H2. revert vs2.
  induction vs1 as [|v1 vs1 IH]; intros [|v2 vs2] E; cbn in E.
  - done.
  - subst r1. by inversion_clear H1.
  - subst r2. by inversion_clear H2.
  - injection E as -> E. by destruct (IH _ E) as [-> ->].
Qed.

Lemma parsed_query_cons (k : string) (v : qvalue) (q : list (string * qvalue)) :
  parsed_query ((k, v) :: q) = true ↔
  (k ∉ q.*1) ∧ parsed_value v = true ∧ parsed_query q = true.
Proof.
  unfold parsed_query. cbn [forallb fmap list_fmap snd fst].
  rewrite !andb_true_iff, !bool_decide_eq_true, NoDup_cons. tauto.
Qed.

Lemma flat_inj (q1 q2 : list (string * qvalue)) :
  parsed_query q1 = true → parsed_query q2 = true →
  flat_map pairs_of q1 = flat_map pairs_of q2 → q1 = q2.
Proof.
  revert q2. induction q1 as [|[k1 v1] q1 IH]; intros [|[k2 v2] q2] P1 P2 E.
  - done.
  - exfalso. apply parsed_query_cons in P2 as (_ & P2 & _).
    cbn [flat_map] in E. rewrite pairs_of_values in E.
    destruct (values_of v2) eqn:V; [by apply values_of_nonempty in P2|done].
  - exfalso. apply parsed_query_cons in P1 as (_ & P1 & _).
    cbn [flat_map] in E. rewrite pairs_of_values in E.
    destruct (values_of v1) eqn:V; [by apply values_of_nonempty in P1|done].
  - apply parsed_query_cons in P1 as (N1 & V1 & P1), P2 as (N2 & V2 & P2).
    cbn [flat_map] in E. rewrite !pairs_of_values in E.
    assert (k1 = k2) as <-.
    { destruct (values_of v1) eqn:W1; [by apply values_of_nonempty in V1|].
      destruct (values_of v2) eqn:W2; [by apply values_of_nonempty in V2|].
      cbn in E. by injection E. }
    apply run_of_name_inj in E as [EV ER].
    + by rewrite (values_of_inj _ _ V1 V2 EV), (IH _ P1 P2 ER).
    + apply Forall_forall. intros p Hp Ep. apply N1. rewrite <- Ep. by apply flat_names.
    + apply Forall_forall. intros p Hp Ep. apply N2. rewrite <- Ep. by apply flat_names.
Qed.

(** Node's [querystring.stringify] loses nothing of a parsed query. *)
Lemma qs_stringify_inj (q1 q2 : list (string * qvalue)) :
  parsed_query q1 = true → parsed_query q2 = true →
  qs_stringify q1 = qs_stringify q2 → q1 = q2.
Proof.
  intros P1 P2 E. rewrite !qs_stringify_join in E.
  apply (join_fields_inj "&") in E.
  - apply flat_inj; [done|done|].
    revert E. generalize (flat_map pairs_of q1), (flat_map pairs_of q2).
    induction l as [|p l IH]; intros [|p' l'] E; try done.
    cbn in E. injection E as E1 E2. by rewrite (field_string_inj _ _ E1), (IH _ E2).
  - apply Forall_forall. intros x Hx.
    apply list_elem_of_In, in_map_iff in Hx as (p & <- & _).
    split; [apply field_string_no_amp|apply field_string_nonempty].
  - apply Forall_forall. intros x Hx.
    apply list_elem_of_In, in_map_iff in Hx as (p & <- & _).
    split; [apply field_string_no_amp|apply field_string_nonempty].
Qed.

Lemma parsed_query_strip_lang (q : list (string * qvalue)) :
  parsed_query q = true → parsed_query (strip_lang q) = true.
Proof.
  induction q as [|[k v] q IH]; [done|]. intros (N & V & P)%parsed_query_cons.
  unfold strip_lang in *. rewrite filter_cons. cbn [fst].
  destruct (decide (k ≠ "lang_ID")); [|by apply IH].
  apply parsed_query_cons. split; [|by split; [|apply IH]].
  intros H. apply N. apply list_elem_of_fmap in H as (p & -> & Hp).
  apply list_elem_of_filter in Hp as [_ Hp]. apply list_elem_of_fmap. eauto.
Qed.

(** Without that shape the fields do not determine the query: a string
    and an array that holds only that string are written alike. *)
Lemma one_element_array_collides :
  qs_stringify [("a", QStr "x")] = qs_stringify [("a", QArr ["x"])]
  ∧ parsed_query [("a", QArr ["x"])] = false.
Proof. split; reflexivity. Qed.

(** C7, as the code has it: two requests that agree on method, path,
    query without [lang_ID], isPro, the domain, locale and format tags and
    the negotiated encoding get the same key, whatever else differs; and
    two requests whose method, path and tags hold no blank (and whose path
    holds no question mark) get the same key only if they agree on method,
    path, the serialized query without [lang_ID], isPro, the negotiated
    encoding and the domain, locale and format tags, where a missing or
    empty tag counts as the word [none]; and then, their queries being as
    [querystring.parse] builds them, they agree on the query parameters
    without [lang_ID] themselves, names, values and order. *)
Theorem cache_key_dimensions (c1 c2 : Ctx) :
  (method c1 = method c2 → path c1 = path c2 →
   strip_lang (query c1) = strip_lang (query c2) →
   user_pro c1 = user_pro c2 →
   domain_tag (domain c1) = domain_tag (domain c2) →
   lang_tag (locale c1) = lang_tag (locale c2) →
   format_tag (domain c1) = format_tag (domain c2) →
   negotiate (accept_encoding c1) = negotiate (accept_encoding c2) →
   cache_key c1 = cache_key c2)
  ∧ (separable c1 = true → separable c2 = true →
     cache_key c1 = cache_key c2 →
     method c1 = method c2 ∧ path c1 = path c2
     ∧ qs_stringify (strip_lang (query c1)) = qs_stringify (strip_lang (query c2))
     ∧ (parsed_query (query c1) = true → parsed_query (query c2) = true →
        strip_lang (query c1) = strip_lang (query c2))
     ∧ user_pro c1 = user_pro c2
     ∧ domain_tag (domain c1) = domain_tag (domain c2)
     ∧ lang_tag (locale c1) = lang_tag (locale c2)
     ∧ format_tag (domain c1) = format_tag (domain c2)
     ∧ negotiate (accept_encoding c1) = negotiate (accept_encoding c2)).
Proof.
  split.
  - intros Hm Hp Hq Hu Hd Hl Hf He. unfold cache_key, cachekeys.
    by rewrite Hm, Hp, Hq, Hu, Hd, Hl, Hf, He.
  - intros S1 S2 E. rewrite !cache_key_words in E.
    apply (join_inj " ") in E;
      [| done | by apply key_words_no_blank | by apply key_words_no_blank].
    unfold key_words, cachekeys in E. simpl map in E.
    injection E as Em Epq Eu Ed El Ef Ee.
    unfold separable in S1, S2.
    rewrite !andb_true_iff, !negb_true_iff in S1, S2.
    destruct S1 as [[[[[_ _] Q1] _] _] _], S2 as [[[[[_ _] Q2] _] _] _].
    destruct (split_at_first "?" _ _ _ _ Q1 Q2 Epq) as [Ep Eq].
    split; [done|]. split; [done|]. split; [done|].
    split; [intros P1 P2; by apply qs_stringify_inj; [apply parsed_query_strip_lang
                                                     |apply parsed_query_strip_lang|]|].
    repeat split; try done; try by simplify_eq/=.
    by destruct (user_pro c1), (user_pro c2).
Qed.

Lemma cache_key_dimensions_witness :
  cache_key demo_ctx = cache_key demo_ctx_de
  ∧ (method demo_ctx = method demo_ctx_de ∧ path demo_ctx = path demo_ctx_de
     ∧ qs_stringify (strip_lang (query demo_ctx))
       = qs_stringify (strip_lang (query demo_ctx_de))
     ∧ strip_lang (query demo_ctx) = strip_lang (query demo_ctx_de)
     ∧ user_pro demo_ctx = user_pro demo_ctx_de
     ∧ domain_tag (domain demo_ctx) = domain_tag (domain demo_ctx_de)
     ∧ lang_tag (locale demo_ctx) = lang_tag (locale demo_ctx_de)
     ∧ format_tag (domain demo_ctx) = format_tag (domain demo_ctx_de)
     ∧ negotiate (accept_encoding demo_ctx) = negotiate (accept_encoding demo_ctx_de)).
Proof.
  split.
  - apply (proj1 (cache_key_dimensions demo_ctx demo_ctx_de)); reflexivity.
  - destruct (proj2 (cache_key_dimensions demo_ctx demo_ctx_de) eq_refl eq_refl eq_refl)
      as (Hm & Hp & Hs & Hq & Hrest).
    split; [exact Hm|]. split; [exact Hp|]. split; [exact Hs|].
    split; [apply Hq; vm_compute; reflexivity|exact Hrest].
Defined.

(** C7 as stated fails: a request without a resolved domain and a request
    whose domain prefix is the word [none] differ in the domain only and
    get the same key; and two requests whose prefix and locale tag hold
    a blank differ in domain and locale and get the same key. *)
Lemma cache_key_collision_counterexample :
  (domain ctx_no_domain ≠ domain ctx_domain_none
   ∧ cache_key ctx_no_domain = cache_key ctx_domain_none)
  ∧ (domain ctx_blank_a ≠ domain ctx_blank_b
     ∧ locale ctx_blank_a ≠ locale ctx_blank_b
     ∧ cache_key ctx_blank_a = cache_key ctx_blank_b).
Proof. repeat split; (discriminate || reflexivity). Qed.


(** ** The miss path: what each step leaves alone *)

Lemma cache_sets_app (t1 t2 : list Effect) :
  cache_sets (t1 ++ t2) = cache_sets t1 ++ cache_sets t2.
Proof. apply omap_app. Qed.

Lemma forwarded_app (t1 t2 : list Effect) :
  forwarded (t1 ++ t2) = forwarded t1 ++ forwarded t2.
Proof. apply omap_app. Qed.

Lemma run_ops_app key ops1 ops2 w :
  run_ops key (ops1 ++ ops2) w = run_ops key ops2 (run_ops key ops1 w).
Proof. apply fold_left_app. Qed.

Lemma run_ops_cons key op ops w :
  run_ops key (op :: ops) w = run_ops key ops (run_op key w op).
Proof. reflexivity. Qed.

(** A run that has stopped stays as it is. *)
Lemma run_op_stopped key w op : stopped w = true → run_op key w op = w.
Proof. intros H. unfold run_op. by rewrite H. Qed.

Lemma run_ops_stopped key ops w : stopped w = true → run_ops key ops w = w.
Proof.
  induction ops as [|op ops IH]; [done|]. intros H.
  by rewrite run_ops_cons, run_op_stopped, IH.
Qed.

Lemma run_ops_going key ops w : stopped (run_ops key ops w) = false → stopped w = false.
Proof.
  intros H. destruct (stopped w) eqn:E; [|done]. by rewrite run_ops_stopped, E in H.
Qed.

Lemma run_op_was_going key w op : stopped (run_op key w op) = false → stopped w = false.
Proof.
  intros H. destruct (stopped w) eqn:E; [|done]. by rewrite run_op_stopped, E in H.
Qed.

Lemma after_next_going scope w : stopped (after_next scope w) = false → stopped w = false.
Proof.
  unfold after_next. destruct (stopped w) eqn:E; [|done]. by rewrite E.
Qed.

Lemma run_op_going key w op :
  stopped w = false →
  run_op key w op
  = match op with
    | SetAge a => with_cacheCtx {| ctx_age := a; ctx_maxage := ctx_maxage (cacheCtx w) |} w
    | SetMaxage m => with_cacheCtx {| ctx_age := ctx_age (cacheCtx w); ctx_maxage := m |} w
    | SetStatus s => with_res (set_statusCode s) w
    | SetStatusMessage m => with_res (set_statusMessage m) w
    | SetHeader k v => try_res (setHeader k v) w
    | WriteHead s m h => patched_writeHead s m h w
    | Write chunk encoding => patched_write chunk encoding w
    | End data encoding now_ms => patched_end key now_ms data encoding w
    end.
Proof. intros H. unfold run_op. by rewrite H. Qed.

Lemma same_listeners_refl w : same_listeners w w.
Proof. by repeat split. Qed.

Lemma same_listeners_trans w1 w2 w3 :
  same_listeners w1 w2 → same_listeners w2 w3 → same_listeners w1 w3.
Proof. unfold same_listeners. intros (-> & -> & ->) (-> & -> & ->). done. Qed.

Lemma forward_writeHead_frame st m h w :
  same_listeners w (forward_writeHead st m h w)
  ∧ cap (forward_writeHead st m h w) = cap w.
Proof.
  unfold forward_writeHead, same_listeners.
  destruct (res w) as [r|t sh]; [destruct (node_writeHead st m (Some h) r)|]; cbn;
    rewrite cache_sets_app, app_nil_r; done.
Qed.

(** What [writeHead] leaves alone. *)
Lemma patched_writeHead_frame st m h w :
  same_listeners w (patched_writeHead st m h w)
  ∧ chunks (cap (patched_writeHead st m h w)) = chunks (cap w).
Proof.
  unfold patched_writeHead. destruct (suppressed (res w)).
  - by repeat split.
  - match goal with |- context [forward_writeHead ?a ?b ?c ?d] =>
      destruct (forward_writeHead_frame a b c d) as [(A & B & C) ->] end.
    unfold same_listeners. rewrite A, B, C. done.
Qed.

Lemma implicit_header_frame w :
  same_listeners w (implicit_header w)
  ∧ chunks (cap (implicit_header w)) = chunks (cap w).
Proof. apply patched_writeHead_frame. Qed.

Lemma node_write_frame w :
  same_listeners w (node_write w) ∧ chunks (cap (node_write w)) = chunks (cap w).
Proof.
  unfold node_write. destruct (res w) as [r|t sh]; [|by repeat split].
  destruct (r_finished r || r_destroyed r); [by repeat split|].
  destruct (r_headersSent r); [by repeat split|]. apply implicit_header_frame.
Qed.

Lemma patched_write_frame chunk enc w :
  same_listeners w (patched_write chunk enc w)
  ∧ chunks (cap (patched_write chunk enc w)) = chunks (cap w) ++ [chunk_bytes chunk].
Proof.
  unfold patched_write. destruct (suppressed (res w)); [by repeat split|].
  match goal with |- context [node_write ?x] =>
    destruct (node_write_frame x) as [(A & B & C) ->] end.
  unfold same_listeners. rewrite A, B, C. cbn.
  by rewrite cache_sets_app, app_nil_r.
Qed.

Lemma try_res_frame f w : same_listeners w (try_res f w) ∧ cap (try_res f w) = cap w.
Proof. unfold try_res. by destruct (f (res w)). Qed.

(** A step other than [end] leaves both listeners alone and writes
    nothing to the cache. *)
Lemma run_op_not_end key w op :
  is_end op = false → same_listeners w (run_op key w op).
Proof.
  intros E. unfold run_op. destruct (stopped w); [apply same_listeners_refl|].
  destruct op as [| | | | k v | st m h | chunk enc |]; try discriminate;
    try (by repeat split).
  - apply try_res_frame.
  - apply patched_writeHead_frame.
  - apply patched_write_frame.
Qed.

Lemma run_ops_not_end key ops w :
  forallb (fun op => negb (is_end op)) ops = true → same_listeners w (run_ops key ops w).
Proof.
  revert w. induction ops as [|op ops IH]; intros w H; [apply same_listeners_refl|].
  simpl in H. apply andb_true_iff in H as [H1 H2]. apply negb_true_iff in H1.
  rewrite run_ops_cons. eapply same_listeners_trans; [by apply run_op_not_end|by apply IH].
Qed.

(** ** The guard of lines 224, 232 and 247 never changes its mind *)

Lemma node_setHeader_writable k v r r' :
  node_setHeader k v r = Some r' →
  r_writable r' = r_writable r ∧ r_header r' = r_header r
  ∧ r_statusCode r' = r_statusCode r ∧ r_statusMessage r' = r_statusMessage r
  ∧ r_finished r' = r_finished r ∧ r_destroyed r' = r_destroyed r.
Proof.
  unfold node_setHeader. destruct (r_headersSent r); [done|].
  destruct (_ && _); [|done]. by intros [= <-].
Qed.

Lemma node_setHeaders_writable l r r' :
  node_setHeaders l r = Some r' →
  r_writable r' = r_writable r ∧ r_header r' = r_header r
  ∧ r_statusCode r' = r_statusCode r ∧ r_statusMessage r' = r_statusMessage r
  ∧ r_finished r' = r_finished r ∧ r_destroyed r' = r_destroyed r.
Proof.
  revert r. induction l as [|[k v] l IH]; intros r; cbn [node_setHeaders].
  - by intros [= <-].
  - destruct (nonempty k); [|apply IH]. destruct v as [v|]; [|done].
    destruct (node_setHeader k v r) as [r1|] eqn:E; [|done]. cbn.
    intros H. destruct (IH _ H) as (-> & -> & -> & -> & -> & ->).
    by apply node_setHeader_writable in E.
Qed.

(** What Node's [writeHead] does to the response when it returns. *)
Lemma node_writeHead_Some st m h r r' :
  node_writeHead st m h r = Some r' →
  r_header r = None
  ∧ r_writable r' = r_writable r
  ∧ r_statusCode r' = to_int32 st
  ∧ r_header r' = Some (to_int32 st, r_statusMessage r')
  ∧ 100 ≤ to_int32 st ≤ 999
  ∧ r_finished r' = r_finished r ∧ r_destroyed r' = r_destroyed r.
Proof.
  unfold node_writeHead, r_headersSent.
  destruct (r_header r) eqn:Hh; [done|].
  destruct ((to_int32 st <? 100) || (999 <? to_int32 st)) eqn:Hr; [done|].
  apply orb_false_iff in Hr as [H1 H2]. apply Z.ltb_ge in H1, H2.
  match goal with |- context [mbind _ ?x] => destruct x as [r1|] eqn:E1; [|done] end.
  cbn [mbind option_bind]. destruct (valid_header_value _); [|done].
  intros [= <-]. cbn.
  assert (r_writable r1 = r_writable r ∧ r_finished r1 = r_finished r
          ∧ r_destroyed r1 = r_destroyed r) as (-> & -> & ->).
  { destruct m as [s| |]; [| done |];
      destruct h as [[[|kv l]|[|x l]]|]; try (by simplify_eq); try done.
    destruct (r_headers r).
    - by apply node_setHeaders_writable in E1 as (? & _ & _ & _ & ? & ?).
    - destruct (head_only_headers_ok _); by simplify_eq. }
  repeat split; done || lia.
Qed.

Lemma suppressed_write_back hs r : suppressed (write_back_headers hs r) = suppressed r.
Proof. by destruct r. Qed.

Lemma suppressed_set_statusCode v r : suppressed (set_statusCode v r) = suppressed r.
Proof. by destruct r. Qed.

Lemma suppressed_set_statusMessage v r : suppressed (set_statusMessage v r) = suppressed r.
Proof. by destruct r. Qed.

Lemma suppressed_setHeader k v r r' : setHeader k v r = Some r' → suppressed r' = suppressed r.
Proof.
  destruct r as [r|t sh]; cbn.
  - destruct (node_setHeader k v r) as [r1|] eqn:E; [|done]. intros [= <-].
    apply node_setHeader_writable in E as (E & _). unfold suppressed. cbn. by rewrite E.
  - by intros [= <-].
Qed.

Lemma suppressed_forward_writeHead st m h w :
  suppressed (res (forward_writeHead st m h w)) = suppressed (res w).
Proof.
  unfold forward_writeHead. destruct (res w) as [r|t sh] eqn:R; cbn; [|by rewrite R].
  destruct (node_writeHead st m (Some h) r) as [r'|] eqn:E; cbn; [|by rewrite R].
  apply node_writeHead_Some in E as (_ & E & _). unfold suppressed. cbn. by rewrite E.
Qed.

Lemma suppressed_patched_writeHead st m h w :
  suppressed (res (patched_writeHead st m h w)) = suppressed (res w).
Proof.
  unfold patched_writeHead. destruct (suppressed (res w)) eqn:S.
  - cbn. by rewrite suppressed_write_back.
  - rewrite suppressed_forward_writeHead. cbn. by rewrite suppressed_write_back.
Qed.

Lemma suppressed_node_write w : suppressed (res (node_write w)) = suppressed (res w).
Proof.
  unfold node_write. destruct (res w) as [r|t sh] eqn:R; [|by rewrite R].
  destruct (_ || _); [by rewrite <- R|]. destruct (r_headersSent r); [by rewrite R|].
  unfold implicit_header. by rewrite suppressed_patched_writeHead, R.
Qed.

Lemma suppressed_patched_write chunk enc w :
  suppressed (res (patched_write chunk enc w)) = suppressed (res w).
Proof.
  unfold patched_write. destruct (suppressed (res w)) eqn:S; [done|].
  by rewrite suppressed_node_write.
Qed.

Lemma suppressed_node_end data w : suppressed (res (node_end data w)) = suppressed (res w).
Proof.
  unfold node_end. destruct (res w) as [r|t sh] eqn:R; [|by rewrite R].
  destruct (r_finished r); [destruct (chunk_truthy data); by rewrite <- R|].
  destruct (r_destroyed r); [by rewrite <- R|].
  assert (∀ w', suppressed (res w') = suppressed (RealResponse r) →
                suppressed (res match res w' with
                                | RealResponse r' => with_res (fun _ => RealResponse (finish r')) w'
                                | ShadowResponse _ _ => w'
                                end) = suppressed (RealResponse r)) as G.
  { intros w' <-. by destruct (res w') eqn:R'; cbn; rewrite ?R'. }
  destruct (r_headersSent r); apply G; [by rewrite R|].
  unfold implicit_header. by rewrite suppressed_patched_writeHead, R.
Qed.

Lemma suppressed_patched_end key now_ms data enc w :
  suppressed (res (patched_end key now_ms data enc w)) = suppressed (res w).
Proof.
  unfold patched_end. destruct (suppressed (res w)) eqn:S; [done|].
  by rewrite suppressed_node_end.
Qed.

Lemma suppressed_run_op key w op : suppressed (res (run_op key w op)) = suppressed (res w).
Proof.
  unfold run_op. destruct (stopped w); [done|].
  destruct op as [| | st | m | k v | st m h | chunk enc | data enc now_ms]; try done.
  - apply suppressed_set_statusCode.
  - apply suppressed_set_statusMessage.
  - unfold try_res. destruct (setHeader k v (res w)) eqn:E; [|done].
    cbn. by eapply suppressed_setHeader.
  - apply suppressed_patched_writeHead.
  - apply suppressed_patched_write.
  - apply suppressed_patched_end.
Qed.

Lemma suppressed_run_ops key ops w : suppressed (res (run_ops key ops w)) = suppressed (res w).
Proof.
  revert w. induction ops as [|op ops IH]; intros w; [done|].
  by rewrite run_ops_cons, IH, suppressed_run_op.
Qed.

Lemma suppressed_ctx_set k v r r' : ctx_set k v r = Some r' → suppressed r' = suppressed r.
Proof.
  unfold ctx_set. destruct (get_headersSent r); [by intros [= <-]|].
  apply suppressed_setHeader.
Qed.

Lemma suppressed_after_next scope w :
  suppressed (res (after_next scope w)) = suppressed (res w).
Proof.
  unfold after_next. destruct (stopped w); [done|].
  destruct (ctx_set "x-cache" "miss" (res w)) as [r1|] eqn:E1; [|done]. cbn.
  destruct (ctx_set "age" _ r1) as [r2|] eqn:E2; [|done]. cbn.
  destruct (ctx_set "cache-control" _ r2) as [r3|] eqn:E3; [|done]. cbn.
  apply suppressed_ctx_set in E1, E2, E3. congruence.
Qed.

(** ** The captured status and the head *)

Lemma forward_writeHead_sent st m h w :
  stopped (forward_writeHead st m h w) = false →
  suppressed (res w) = true ∨ get_headersSent (res (forward_writeHead st m h w)) = true.
Proof.
  unfold forward_writeHead. destruct (res w) as [r|t sh] eqn:R; [|by left].
  destruct (node_writeHead st m (Some h) r) as [r'|] eqn:E; [|done].
  intros _. right. cbn. apply node_writeHead_Some in E as (_ & _ & _ & E & _).
  unfold r_headersSent. by rewrite E.
Qed.

Lemma patched_writeHead_sent st m h w :
  stopped (patched_writeHead st m h w) = false →
  suppressed (res w) = true ∨ get_headersSent (res (patched_writeHead st m h w)) = true.
Proof.
  unfold patched_writeHead. destruct (suppressed (res w)) eqn:S; [by left|].
  intros H. apply forward_writeHead_sent in H as [H|H]; [|by right].
  cbn in H. rewrite suppressed_write_back in H. congruence.
Qed.

Lemma node_write_sent w :
  stopped (node_write w) = false →
  suppressed (res w) = true ∨ get_headersSent (res (node_write w)) = true.
Proof.
  unfold node_write. destruct (res w) as [r|t sh] eqn:R; [|by left].
  destruct (_ || _); [done|]. destruct (r_headersSent r) eqn:Hs.
  - intros _. right. by rewrite R.
  - intros H. unfold implicit_header in *. apply patched_writeHead_sent in H.
    rewrite R in H. by rewrite R.
Qed.

Lemma get_headersSent_setHeader k v r r' :
  setHeader k v r = Some r' → get_headersSent r' = get_headersSent r.
Proof.
  destruct r as [r|t sh]; cbn.
  - destruct (node_setHeader k v r) as [r1|] eqn:E; [|done]. intros [= <-].
    apply node_setHeader_writable in E as (_ & E & _). cbn. unfold r_headersSent.
    by rewrite E.
  - by intros [= <-].
Qed.

Lemma get_headersSent_ctx_set k v r r' :
  ctx_set k v r = Some r' → get_headersSent r' = get_headersSent r.
Proof.
  unfold ctx_set. destruct (get_headersSent r) eqn:E; [by intros [= <-]|].
  intros H. apply get_headersSent_setHeader in H. congruence.
Qed.

Lemma responseArmed_node_end data w : responseArmed (node_end data w) = responseArmed w.
Proof.
  unfold node_end. destruct (res w) as [r|t sh]; [|done].
  destruct (r_finished r); [by destruct (chunk_truthy data)|].
  destruct (r_destroyed r); [done|].
  destruct (r_headersSent r).
  - by destruct (res w).
  - destruct (implicit_header_frame w) as [(_ & A & _) _].
    by destruct (res (implicit_header w)).
Qed.

Lemma responseArmed_patched_end key now_ms data enc w :
  responseArmed (patched_end key now_ms data enc w) = false.
Proof.
  unfold patched_end. destruct (suppressed (res w)); [done|].
  by rewrite responseArmed_node_end.
Qed.

Lemma head_inv_init r ttlsec : head_inv (init_world r ttlsec).
Proof. intros _ _. right. right. by repeat split. Qed.

Lemma headersSent_set_statusCode v r :
  get_headersSent (set_statusCode v r) = get_headersSent r.
Proof. by destruct r. Qed.

Lemma headersSent_set_statusMessage v r :
  get_headersSent (set_statusMessage v r) = get_headersSent r.
Proof. by destruct r. Qed.

Lemma head_inv_run_op key w op : head_inv w → head_inv (run_op key w op).
Proof.
  intros I. destruct (stopped w) eqn:St; [by rewrite run_op_stopped|].
  rewrite run_op_going by done.
  destruct op as [a | m | st | m | k v | st m h | chunk enc | data enc now_ms].
  - exact I.
  - exact I.
  - intros A _. cbn in *.
    rewrite suppressed_set_statusCode, headersSent_set_statusCode. by apply I.
  - intros A _. cbn in *.
    rewrite suppressed_set_statusMessage, headersSent_set_statusMessage. by apply I.
  - unfold try_res. destruct (setHeader k v (res w)) as [r'|] eqn:E; [|by intros _ ?].
    intros A _. cbn in *. rewrite (suppressed_setHeader _ _ _ _ E).
    rewrite (get_headersSent_setHeader _ _ _ _ E). by apply I.
  - intros _ S. rewrite suppressed_patched_writeHead.
    apply patched_writeHead_sent in S as [S|S]; auto.
  - intros _ S. rewrite suppressed_patched_write.
    unfold patched_write in *. destruct (suppressed (res w)) eqn:Su; [by left|].
    apply node_write_sent in S as [S|S]; [|by auto]. cbn in S. congruence.
  - intros A. by rewrite responseArmed_patched_end in A.
Qed.

Lemma head_inv_run_ops key ops w : head_inv w → head_inv (run_ops key ops w).
Proof.
  revert w. induction ops as [|op ops IH]; intros w I; [done|].
  rewrite run_ops_cons. by apply IH, head_inv_run_op.
Qed.

Lemma head_inv_after_next scope w : head_inv w → head_inv (after_next scope w).
Proof.
  intros I. unfold after_next. destruct (stopped w) eqn:St; [done|].
  destruct (ctx_set "x-cache" "miss" (res w)) as [r1|] eqn:E1; [|by intros _ ?]. cbn.
  destruct (ctx_set "age" _ r1) as [r2|] eqn:E2; [|by intros _ ?]. cbn.
  destruct (ctx_set "cache-control" _ r2) as [r3|] eqn:E3; [|by intros _ ?]. cbn.
  intros A _. cbn in *.
  rewrite (suppressed_ctx_set _ _ _ _ E3), (suppressed_ctx_set _ _ _ _ E2),
    (suppressed_ctx_set _ _ _ _ E1).
  rewrite (get_headersSent_ctx_set _ _ _ _ E3), (get_headersSent_ctx_set _ _ _ _ E2),
    (get_headersSent_ctx_set _ _ _ _ E1).
  by apply I.
Qed.

Lemma pick_header_same (hs : gmap string string) (name : string) :
  pick_header hs name (str_or_empty (hs !! name)) = str_or_empty (hs !! name).
Proof. unfold pick_header. destruct (hs !! name) as [v|]; [|done]. by destruct (nonempty v). Qed.

(** The head that Node builds on its own inside the first [end] captures
    what [end] has just captured. *)
Lemma capture_head_after_end data r c :
  head_untouched c →
  capture_head (get_statusCode r) MUndef (getHeaders r) (capture_end data r c)
  = capture_end data r c.
Proof.
  intros (F & M & T & L & E). unfold capture_head, capture_end, getHeader. cbn.
  rewrite F, M, T, L, E. unfold str_or, num_or. cbn [nonempty truthy Z.eqb negb].
  change (toLowerCase "content-type") with "content-type".
  change (toLowerCase "content-length") with "content-length".
  change (toLowerCase "content-encoding") with "content-encoding".
  by rewrite !pick_header_same.
Qed.

(** The first [end] of a response: what it writes to the cache, and what
    is captured when it returns. *)
Lemma first_end key now_ms data enc w :
  head_inv w → responseArmed w = true → stopped w = false →
  stopped (patched_end key now_ms data enc w) = false →
  cap (patched_end key now_ms data enc w) = capture_end data (res w) (cap w)
  ∧ cacheCtx (patched_end key now_ms data enc w) = cacheCtx w
  ∧ cache_sets (trace (patched_end key now_ms data enc w))
    = cache_sets (trace w)
      ++ (if onFinishFinal w
          then cache_sets (onFinish key now_ms (capture_end data (res w) (cap w)) (cacheCtx w))
          else []).
Proof.
  intros I A St. specialize (I A St).
  unfold patched_end, signalled. rewrite A.
  assert (cache_sets (if onFinishFinal w
                      then onFinish key now_ms (capture_end data (res w) (cap w)) (cacheCtx w)
                      else onFinish_initial)
          = if onFinishFinal w
            then cache_sets (onFinish key now_ms (capture_end data (res w) (cap w)) (cacheCtx w))
            else []) as Hs by (by destruct (onFinishFinal w)).
  destruct (suppressed (res w)) eqn:Su.
  { intros _. cbn. by rewrite cache_sets_app, Hs. }
  destruct I as [I|[I|I]]; [done| |].
  - (* the head is already with Node *)
    unfold node_end. cbn [res emit].
    destruct (res w) as [r|t sh] eqn:R; [|done]. cbn in I.
    destruct (r_finished r).
    { destruct (chunk_truthy data); [done|]. intros _. cbn.
      by rewrite !cache_sets_app, Hs, app_nil_r. }
    destruct (r_destroyed r); [done|]. rewrite I. cbn. intros _.
    by rewrite !cache_sets_app, Hs, app_nil_r.
  - (* Node builds the head inside [end] *)
    unfold node_end. cbn [res emit].
    destruct (res w) as [r|t sh] eqn:R; [|done].
    destruct (r_finished r).
    { destruct (chunk_truthy data); [done|]. intros _. cbn.
      by rewrite !cache_sets_app, Hs, app_nil_r. }
    destruct (r_destroyed r); [done|].
    destruct (r_headersSent r).
    { cbn. intros _. by rewrite !cache_sets_app, Hs, app_nil_r. }
    unfold implicit_header, patched_writeHead. cbn [res emit cap with_cap with_res].
    rewrite Su.
    cbn [writeHead_headers merged_headers merge_header_object fold_left headers_after
         writeHead_message write_back_headers].
    rewrite capture_head_after_end by done.
    unfold forward_writeHead. cbn [res with_cap with_res emit write_back_headers].
    match goal with |- context [node_writeHead ?a ?b ?c r] =>
      destruct (node_writeHead a b c r) as [r'|]; [|done] end.
    cbn. intros _. by rewrite !cache_sets_app, Hs, !app_nil_r.
Qed.

(** ** Write-through on an origin miss *)

Lemma cache_sets_onFinish key now_ms c cc :
  cache_sets (onFinish key now_ms c cc)
  = if (finalStatus c >=? 200) && (finalStatus c <? 500)
    then [(key,
           {| e_head :=
                {| h_iat := Some (now_ms / 1000 - ctx_age cc);
                   h_exp := Some (now_ms / 1000 - ctx_age cc + ctx_maxage cc);
                   h_status := finalStatus c;
                   h_message := finalStatusMessage c;
                   h_type := contentType c;
                   h_length :=
                     str_or (contentLength c)
                       (number_to_string
                          (Z.of_nat (String.length (String.concat "" (chunks c)))));
                   h_encoding := contentEncoding c |};
              e_body := String.concat "" (chunks c) |},
           ctx_maxage cc - ctx_age cc)]
    else [].
Proof. unfold onFinish. by destruct (_ && _). Qed.

Lemma after_next_frame scope w :
  stopped (after_next scope w) = false →
  onFinishFinal (after_next scope w) = true
  ∧ responseArmed (after_next scope w) = responseArmed w
  ∧ cap (after_next scope w) = cap w
  ∧ cacheCtx (after_next scope w) = cacheCtx w
  ∧ trace (after_next scope w) = trace w.
Proof.
  unfold after_next. destruct (stopped w) eqn:St; [by rewrite St|].
  by destruct (_ ≫= _).
Qed.

(** An origin miss, up to the call of [end] that comes after the handler
    has returned. *)
Lemma miss_path_end scope key ttlsec r handler respond data enc now_ms :
  forallb (fun op => negb (is_end op)) (handler ++ respond) = true →
  let w1 := miss_path scope key ttlsec r handler respond in
  let w := miss_path scope key ttlsec r handler (respond ++ [End data enc now_ms]) in
  stopped w = false →
  stopped w1 = false
  ∧ w = patched_end key now_ms data enc w1
  ∧ cap w = capture_end data (res w1) (cap w1)
  ∧ cacheCtx w = cacheCtx w1
  ∧ cache_sets (trace w)
    = cache_sets (onFinish key now_ms (capture_end data (res w1) (cap w1)) (cacheCtx w1)).
Proof.
  intros H w1 w St. rewrite forallb_app in H. apply andb_true_iff in H as [Hh Hr].
  unfold w, miss_path in *. rewrite run_ops_app in *. fold w1 in St |- *.
  rewrite run_ops_cons in *. cbn [run_ops fold_left] in *.
  assert (stopped w1 = false) as St1.
  { destruct (stopped w1) eqn:E; [|done]. by rewrite run_op_stopped, E in St. }
  rewrite run_op_going in * by done.
  set (w0 := run_ops key handler (init_world r ttlsec)) in *.
  assert (stopped (after_next scope w0) = false) as Sta by (by eapply run_ops_going).
  destruct (after_next_frame scope w0 Sta) as (F & A & _ & _ & T).
  destruct (run_ops_not_end key handler (init_world r ttlsec) Hh) as (_ & A0 & S0).
  destruct (run_ops_not_end key respond (after_next scope w0) Hr) as (F1 & A1 & S1).
  fold w0 in A0, S0. cbn in A0, S0. fold w1 in F1, A1, S1.
  assert (head_inv w1) as I.
  { apply head_inv_run_ops, head_inv_after_next, head_inv_run_ops, head_inv_init. }
  destruct (first_end key now_ms data enc w1 I) as (C & CC & S); [congruence|done|done|].
  split; [done|]. split; [done|]. split; [done|]. split; [done|].
  rewrite S, S1, T, S0, F1, F. done.
Qed.




(** ** The headers of a miss *)














(** ** ResponseCapture behind the guard, and on the shadow response *)

Lemma forwarded_onFinish key now_ms c cc : forwarded (onFinish key now_ms c cc) = [].
Proof. unfold onFinish. by destruct (_ && _). Qed.

Lemma forwarded_signalled key now_ms c w : forwarded (signalled key now_ms c w) = [].
Proof.
  unfold signalled. destruct (responseArmed w); [|done].
  destruct (onFinishFinal w); [apply forwarded_onFinish|done].
Qed.

Lemma body_writes_app ops1 ops2 :
  body_writes (ops1 ++ ops2) = body_writes ops1 ++ body_writes ops2.
Proof. apply omap_app. Qed.

(** Behind the guard no step hands a call on, and every chunk is
    captured. *)
Lemma suppressed_step key w op :
  suppressed (res w) = true → stopped (run_op key w op) = false →
  forwarded (trace (run_op key w op)) = forwarded (trace w)
  ∧ chunks (cap (run_op key w op)) = chunks (cap w) ++ body_writes [op].
Proof.
  intros Su St.
  assert (stopped w = false) as St0.
  { destruct (stopped w) eqn:E; [|done]. by rewrite run_op_stopped, E in St. }
  rewrite run_op_going in * by done.
  destruct op as [a | m | st | m | k v | st m h | chunk enc | data enc now_ms];
    cbn [body_writes omap]; rewrite ?app_nil_r; try done.
  - unfold try_res in *. by destruct (setHeader k v (res w)).
  - unfold patched_writeHead. by rewrite Su.
  - unfold patched_write. by rewrite Su.
  - unfold patched_end. rewrite Su. cbn.
    rewrite forwarded_app, forwarded_signalled, app_nil_r.
    by destruct data; rewrite ?app_nil_r.
Qed.

Lemma suppressed_run key ops w :
  suppressed (res w) = true → stopped (run_ops key ops w) = false →
  forwarded (trace (run_ops key ops w)) = forwarded (trace w)
  ∧ chunks (cap (run_ops key ops w)) = chunks (cap w) ++ body_writes ops.
Proof.
  revert w. induction ops as [|op ops IH]; intros w Su St.
  - cbn. by rewrite app_nil_r.
  - rewrite run_ops_cons in *.
    assert (stopped (run_op key w op) = false) as St1 by (by eapply run_ops_going).
    destruct (suppressed_step key w op Su St1) as [F1 C1].
    destruct (IH (run_op key w op)) as [F C]; [by rewrite suppressed_run_op|done|].
    rewrite F, F1, C, C1. split; [done|].
    change (op :: ops) with ([op] ++ ops). by rewrite body_writes_app, app_assoc.
Qed.

(** On the proxy nothing throws, and the target response is never
    touched. *)
Lemma shadow_step key w t sh op :
  res w = ShadowResponse t sh →
  (∃ sh', res (run_op key w op) = ShadowResponse t sh')
  ∧ stopped (run_op key w op) = stopped w.
Proof.
  intros R. unfold run_op. destruct (stopped w) eqn:St; [by eauto|].
  destruct op as [a | m | st | m | k v | st m h | chunk enc | data enc now_ms].
  - cbn. eauto.
  - cbn. eauto.
  - cbn. rewrite R. cbn. eauto.
  - cbn. rewrite R. cbn. eauto.
  - unfold try_res. rewrite R. cbn. eauto.
  - unfold patched_writeHead. rewrite R. cbn. rewrite ?R. cbn. eauto.
  - unfold patched_write. rewrite R. cbn. rewrite ?R. cbn. eauto.
  - unfold patched_end. rewrite R. cbn. rewrite ?R. cbn. eauto.
Qed.

Lemma shadow_run key ops w t sh :
  res w = ShadowResponse t sh →
  (∃ sh', res (run_ops key ops w) = ShadowResponse t sh')
  ∧ stopped (run_ops key ops w) = stopped w.
Proof.
  revert w sh. induction ops as [|op ops IH]; intros w sh R; [by eauto|].
  rewrite run_ops_cons.
  destruct (shadow_step key w t sh op R) as ([sh1 R1] & <-). by eapply IH.
Qed.

Lemma shadow_after_next scope w t sh :
  res w = ShadowResponse t sh →
  (∃ sh', res (after_next scope w) = ShadowResponse t sh')
  ∧ stopped (after_next scope w) = stopped w.
Proof.
  intros R. unfold after_next. destruct (stopped w) eqn:St; [by eauto|].
  rewrite R. cbn. eauto.
Qed.

(** A recache task from line 189 on: whatever the handler does with the
    proxy, nothing throws, no call reaches the original response methods,
    the target response stays as it was, and every chunk is captured. *)
Lemma shadow_never_forwards scope key ttlsec t sh handler respond :
  let w := miss_path scope key ttlsec (ShadowResponse t sh) handler respond in
  stopped w = false
  ∧ forwarded (trace w) = []
  ∧ (∃ sh', res w = ShadowResponse t sh')
  ∧ chunks (cap w) = body_writes (handler ++ respond).
Proof.
  unfold miss_path.
  set (w0 := run_ops key handler (init_world (ShadowResponse t sh) ttlsec)).
  destruct (shadow_run key handler (init_world (ShadowResponse t sh) ttlsec) t sh eq_refl)
    as ([sh0 R0] & St0). fold w0 in R0, St0. cbn in St0.
  destruct (shadow_after_next scope w0 t sh0 R0) as ([sha Ra] & Sta).
  destruct (shadow_run key respond (after_next scope w0) t sha Ra) as (Rf & Stf).
  rewrite Sta, St0 in Stf.
  assert (stopped (after_next scope w0) = false) as Sta' by congruence.
  destruct (suppressed_run key handler (init_world (ShadowResponse t sh) ttlsec))
    as [F0 C0]; [done|done|]. fold w0 in F0, C0.
  destruct (after_next_frame scope w0 Sta') as (_ & _ & Ca & _ & Ta).
  destruct (suppressed_run key respond (after_next scope w0)) as [F1 C1];
    [by rewrite Ra|done|].
  split; [done|]. split; [by rewrite F1, Ta, F0|]. split; [done|].
  by rewrite C1, Ca, C0, body_writes_app.
Qed.

(** C5, where the code breaks it: a recache task whose handler hands
    the content type to [writeHead(status, headers)] on the proxy. No call
    reaches the original methods and status and body are recorded, but
    the header is recorded nowhere: it is not in [newHeaders], the
    captured content type is empty, and so is the type of the entry that
    is written. The same header given with a status message, or with
    [setHeader], is recorded. *)
Theorem shadow_writeHead_loses_headers :
  let run handler :=
    miss_path "" "k" 60 (ShadowResponse fresh_res fresh_shadow) handler
      [End None None 100000] in
  let html := HObj [("content-type", Some "text/html")] in
  let lost := run [WriteHead 200 (MHeaders html) None; Write (ChunkStr "<p>") None] in
  let kept := run [WriteHead 200 (MStr "OK") (Some html); Write (ChunkStr "<p>") None] in
  let named := run [SetHeader "Content-Type" "text/html"; WriteHead 200 MUndef None;
                    Write (ChunkStr "<p>") None] in
  (forwarded (trace lost) = []
   ∧ finalStatus (cap lost) = 200 ∧ chunks (cap lost) = ["<p>"]
   ∧ getHeader (res lost) "content-type" = None
   ∧ contentType (cap lost) = ""
   ∧ (h_type ∘ e_head ∘ snd ∘ fst) <$> cache_sets (trace lost) = [""])
  ∧ (getHeader (res kept) "content-type" = Some "text/html"
     ∧ (h_type ∘ e_head ∘ snd ∘ fst) <$> cache_sets (trace kept) = ["text/html"])
  ∧ (getHeader (res named) "content-type" = Some "text/html"
     ∧ (h_type ∘ e_head ∘ snd ∘ fst) <$> cache_sets (trace named) = ["text/html"]).
Proof. vm_compute. repeat split. Qed.
(** ** The steps of a request, once its task is known *)

Lemma step_PendingSettled s id t p :
  tasks s !! id = Some t → t_pc t = AwaitPending p →
  step s (PendingSettled id)
  = r ← settled s !! p;
    Some (set_task id
            (at_pc (await (promise_catch "cache pending error" r).2 (AwaitGet true)) t)
            (add_console (promise_catch "cache pending error" r).1 s)).
Proof.
  intros Ht Hpc. unfold step. rewrite Ht. cbn [mbind option_bind]. rewrite Hpc.
  destruct (settled s !! p) as [[|e]|]; reflexivity.
Qed.

Lemma step_GetReturned s id t waited cached now_ms :
  tasks s !! id = Some t → t_pc t = AwaitGet waited →
  step s (GetReturned id cached now_ms)
  = match tryRespondWithCache (scope_of (authorization (t_ctx t)))
            (cache_key (t_ctx t)) now_ms cached with
    | Some (ended, calls) =>
        Some (if waited
              then set_task id (at_pc Returned t) (add_served id calls s)
              else after_hit id t ended
                     (set_task id (at_pc Returned t) (add_served id calls s)))
    | None => Some (after_miss id t s)
    end.
Proof.
  intros Ht Hpc. unfold step. rewrite Ht. cbn [mbind option_bind]. rewrite Hpc.
  destruct (tryRespondWithCache _ _ _ _) as [[ended calls]|]; reflexivity.
Qed.

(** ** The recache decision *)

Lemma tryRespondWithCache_hit scope key now_ms c :
  ∃ ended calls,
    tryRespondWithCache scope key now_ms (Some c) = Some (ended, calls)
    ∧ (∀ i e, h_iat (e_head c) = Some i → h_exp (e_head c) = Some e →
              i ≠ 0 → e ≠ 0 →
              age ended = now_ms / 1000 - i ∧ rtl ended = e - i - age ended)
    ∧ ((truthy_opt (h_iat (e_head c)) && truthy_opt (h_exp (e_head c))) = false →
       age ended = 0 ∧ rtl ended = 0).
Proof.
  unfold tryRespondWithCache.
  destruct (h_iat (e_head c)) as [i|] eqn:Hi; destruct (h_exp (e_head c)) as [e|] eqn:He;
    simpl.
  - destruct (truthy i && truthy e) eqn:T; eexists _, _; (split; [reflexivity|]); simpl.
    + split; [|done]. intros ? ? [= <-] [= <-] _ _. done.
    + split; [|done]. intros ? ? [= <-] [= <-] Ni Ne.
      unfold truthy in T. apply andb_false_iff in T as [T|T];
        apply negb_false_iff, Z.eqb_eq in T; done.
  - eexists _, _; (split; [reflexivity|]); simpl. split; [done|]. done.
  - eexists _, _; (split; [reflexivity|]); simpl. split; [done|]. done.
  - eexists _, _; (split; [reflexivity|]); simpl. split; [done|]. done.
Qed.

Lemma recacheable_spec (ended : Ended) :
  recacheable ended = true ↔ rtl ended < age ended ∨ age ended > 900.
Proof.
  unfold recacheable, recache_floor.
  rewrite orb_true_iff, Z.ltb_lt, Z.gtb_gt.
  change (900000 / 1000) with 900. tauto.
Qed.

(** C2, as the code has it: when a request that found no pending origin
    call at entry is served from the cache, a refresh task is scheduled
    for its key if and only if no refresh is pending for the key and the
    entry is recacheable, where recacheable means: the remaining lifetime
    (expiresAt - issuedAt - age) is smaller than the age, or the age
    exceeds 900 seconds; both numbers are 0 for an entry without
    [iat] or [exp]. *)
Theorem refresh_scheduled_iff (s : State) (id : nat) (t : Task) (c : Entry)
    (now_ms : Z) :
  tasks s !! id = Some t → t_pc t = AwaitGet false →
  let key := cache_key (t_ctx t) in
  ∃ ended calls s',
    tryRespondWithCache (scope_of (authorization (t_ctx t))) key now_ms (Some c)
    = Some (ended, calls)
    ∧ step s (GetReturned id (Some c) now_ms) = Some s'
    ∧ served s' = served s ++ [(id, calls)]
    ∧ (∀ i e, h_iat (e_head c) = Some i → h_exp (e_head c) = Some e →
              i ≠ 0 → e ≠ 0 →
              age ended = now_ms / 1000 - i ∧ rtl ended = e - i - age ended)
    ∧ ((truthy_opt (h_iat (e_head c)) && truthy_opt (h_exp (e_head c))) = false →
       age ended = 0 ∧ rtl ended = 0)
    ∧ (PendingRecache s !! key = None
       ∧ (rtl ended < age ended ∨ age ended > 900) →
       PendingRecache s' = <[key := id]> (PendingRecache s)
       ∧ refreshes s' = refreshes s ++ [new_refresh id t ended])
    ∧ (¬ (PendingRecache s !! key = None
          ∧ (rtl ended < age ended ∨ age ended > 900)) →
       PendingRecache s' = PendingRecache s ∧ refreshes s' = refreshes s).
Proof.
  intros Ht Hpc key.
  destruct (tryRespondWithCache_hit (scope_of (authorization (t_ctx t))) key now_ms c)
    as (ended & calls & Htry & Hnum & Hzero).
  exists ended, calls. eexists. split; [exact Htry|].
  split.
  { rewrite (step_GetReturned s id t false _ _ Ht Hpc). fold key. rewrite Htry.
    reflexivity. }
  unfold after_hit. simpl. fold key.
  split; [|split; [exact Hnum|split; [exact Hzero|]]].
  - destruct (PendingRecache s !! key); [done|]. by destruct (recacheable ended).
  - split.
    + intros [Hnone Hre]. apply recacheable_spec in Hre. rewrite Hnone, Hre. done.
    + intros Hno. destruct (PendingRecache s !! key) eqn:Hp; [done|].
      destruct (recacheable ended) eqn:Hre; [|done].
      apply recacheable_spec in Hre. tauto.
Qed.

Lemma refresh_scheduled_iff_witness :
  ∃ ended calls s',
    tryRespondWithCache "" (cache_key demo_ctx) 20000 (Some young_entry)
    = Some (ended, calls)
    ∧ step (set_task 1 {| t_ctx := demo_ctx; t_pc := AwaitGet false; t_armed := false |}
              init_state)
        (GetReturned 1 (Some young_entry) 20000) = Some s'
    ∧ age ended = 10 ∧ rtl ended = 5
    ∧ refreshes s' = [new_refresh 1 {| t_ctx := demo_ctx; t_pc := AwaitGet false;
                                        t_armed := false |} ended].
Proof.
  destruct (refresh_scheduled_iff
              (set_task 1 {| t_ctx := demo_ctx; t_pc := AwaitGet false; t_armed := false |}
                 init_state)
              1 {| t_ctx := demo_ctx; t_pc := AwaitGet false; t_armed := false |}
              young_entry 20000 eq_refl eq_refl)
    as (ended & calls & s' & Htry & Hstep & _ & Hnum & _ & Hyes & _).
  exists ended, calls, s'.
  destruct (Hnum 10 25 eq_refl eq_refl) as [Ha Hr]; [done|done|].
  change (20000 / 1000 - 10) with 10 in Ha. rewrite Ha in Hr.
  change (25 - 10 - 10) with 5 in Hr.
  split; [exact Htry|]. split; [exact Hstep|]. split; [exact Ha|]. split; [exact Hr|].
  apply Hyes. split; [reflexivity|]. left. rewrite Ha, Hr. done.
Defined.

(** C2 as stated fails: an entry that is 10 seconds old with 5 seconds
    left (remaining lifetime not negative, age not above 900) schedules a
    refresh. *)
Lemma refresh_before_expiry_counterexample :
  ∃ s s',
    run init_state [Arrive 1 demo_ctx] = Some s
    ∧ step s (GetReturned 1 (Some young_entry) 20000) = Some s'
    ∧ PendingRecache s !! cache_key demo_ctx = None
    ∧ refreshes s = []
    ∧ length (refreshes s') = 1%nat
    ∧ PendingRecache s' !! cache_key demo_ctx = Some 1%nat
    ∧ (let age := 20000 / 1000 - 10 in
       let remaining := 25 - 10 - age in
       ¬ (remaining < 0 ∨ age > 900)).
Proof.
  eexists _, _. split; [reflexivity|]. split; [reflexivity|].
  repeat split; try reflexivity. vm_compute. intros [H|H]; discriminate.
Qed.

(** ** Waiting for a pending origin call *)

(** What a waiting request does, step by step: a GET request that finds
    a pending origin call for its key suspends on that call's promise
    and does nothing else; it stays suspended until the promise settles;
    then it goes on to read the cache, whatever the promise settled
    with, and the [catch] of line 87 leaves a line on the console only
    for a rejection; after the read, a hit is served from the entry and
    [cache] returns, and a miss sends the request into the origin
    handler. *)
Lemma waiter_steps (s : State) (id p : nat) (ctx : Ctx) :
  tasks s !! id = None → method ctx = "GET" →
  PendingRequest s !! cache_key ctx = Some p →
  let waiting := {| t_ctx := ctx; t_pc := AwaitPending p; t_armed := false |} in
  let reading := {| t_ctx := ctx; t_pc := AwaitGet true; t_armed := false |} in
  (∃ s1, step s (Arrive id ctx) = Some s1
         ∧ tasks s1 !! id = Some waiting
         ∧ PendingRequest s1 = PendingRequest s
         ∧ PendingRecache s1 = PendingRecache s
         ∧ served s1 = served s)
  ∧ (∀ s2, tasks s2 !! id = Some waiting →
       (settled s2 !! p = None → step s2 (PendingSettled id) = None)
       ∧ (∀ r, settled s2 !! p = Some r →
            ∃ s3, step s2 (PendingSettled id) = Some s3
                  ∧ tasks s3 !! id = Some reading
                  ∧ console s3
                    = console s2 ++ match r with
                                    | Fulfilled => []
                                    | Rejected e => [("cache pending error", e)]
                                    end
                  ∧ PendingRequest s3 = PendingRequest s2
                  ∧ served s3 = served s2))
  ∧ (∀ s3, tasks s3 !! id = Some reading →
       (∀ c now_ms,
          ∃ s4 ended calls,
            step s3 (GetReturned id (Some c) now_ms) = Some s4
            ∧ tryRespondWithCache (scope_of (authorization ctx)) (cache_key ctx)
                now_ms (Some c) = Some (ended, calls)
            ∧ served s4 = served s3 ++ [(id, calls)]
            ∧ t_pc <$> tasks s4 !! id = Some Returned
            ∧ PendingRequest s4 = PendingRequest s3)
       ∧ (∀ now_ms,
            ∃ s4, step s3 (GetReturned id None now_ms) = Some s4
                  ∧ t_pc <$> tasks s4 !! id = Some InHandler
                  ∧ served s4 = served s3)).
Proof.
  intros Hfresh Hget Hpend waiting reading. split; [|split].
  - unfold step, arrive. rewrite Hfresh, Hpend, bool_decide_eq_true_2 by done.
    eexists. split; [reflexivity|]. simpl. by rewrite lookup_insert_eq.
  - intros s2 Ht. rewrite (step_PendingSettled s2 id waiting p Ht eq_refl). split.
    + by intros ->.
    + intros r ->. cbn [mbind option_bind]. eexists. split; [reflexivity|].
      destruct r as [|e]; simpl; rewrite lookup_insert_eq, ?app_nil_r; done.
  - intros s3 Ht. split.
    + intros c now_ms.
      rewrite (step_GetReturned s3 id reading true _ _ Ht eq_refl).
      destruct (tryRespondWithCache_hit (scope_of (authorization ctx)) (cache_key ctx)
                  now_ms c) as (ended & calls & Htry & _).
      simpl t_ctx. rewrite Htry. eexists _, ended, calls.
      split; [reflexivity|]. split; [reflexivity|]. simpl.
      by rewrite lookup_insert_eq.
    + intros now_ms.
      rewrite (step_GetReturned s3 id reading true _ _ Ht eq_refl).
      simpl tryRespondWithCache. eexists. split; [reflexivity|].
      unfold after_miss. destruct (no_max_age _); simpl; by rewrite lookup_insert_eq.
Qed.

(** C8, evaluated on the code: request 1 misses and registers, request 2
    arrives for the same key and waits on the promise of request 1; the
    origin handler of request 1 throws, [cache] of request 1 rejects,
    the response is ended by the error handling of the application and
    ['finish'] is emitted. The promise of lines 258-266 has [resolve]
    only: it is fulfilled, the [catch] of line 87 never runs, and the
    console holds no line about the failed call. The rest of the claim
    holds on this run: nothing reaches the waiting request, which reads
    the cache again; on a miss it enters the origin handler and
    registers itself; on a hit it is served by [writeHead] with the
    stored status, message and headers and [end] with the stored body,
    and returns. *)
Theorem failed_origin_call_is_not_logged :
  ∃ s, run init_state
         [Arrive 1 demo_ctx; GetReturned 1 None 20000; Arrive 2 demo_ctx;
          HandlerSettled 1 (Rejected "boom"); Finish 1; PendingSettled 2] = Some s
       ∧ t_pc <$> tasks s !! 1%nat = Some (Failed "boom")
       ∧ settled s !! 1%nat = Some Fulfilled
       ∧ console s = []
       ∧ t_pc <$> tasks s !! 2%nat = Some (AwaitGet true)
       ∧ PendingRequest s !! cache_key demo_ctx = None
       ∧ (∃ s', step s (GetReturned 2 None 21000) = Some s'
                ∧ t_pc <$> tasks s' !! 2%nat = Some InHandler
                ∧ PendingRequest s' !! cache_key demo_ctx = Some 2%nat
                ∧ served s' = [] ∧ console s' = [])
       ∧ (∃ s', step s (GetReturned 2 (Some young_entry) 21000) = Some s'
                ∧ t_pc <$> tasks s' !! 2%nat = Some Returned
                ∧ served s'
                  = [(2%nat,
                      [CallWriteHead 200 (MStr "OK")
                         (Some (HObj [("content-type", Some "text/plain");
                                      ("content-length", Some "2");
                                      ("content-encoding", Some "");
                                      ("x-cache", Some "hit");
                                      ("x-cache-key", Some (cache_key demo_ctx));
                                      ("age", Some "11");
                                      ("cache-control", Some "max-age=15")]));
                       CallEnd (Some (ChunkBuf "ok")) None])]
                ∧ refreshes s' = [] ∧ console s' = []).
Proof.
  eexists. split; [vm_compute; reflexivity|].
  repeat split; try (vm_compute; reflexivity).
  - eexists. split; [vm_compute; reflexivity|]. repeat split; vm_compute; reflexivity.
  - eexists. split; [vm_compute; reflexivity|]. repeat split; vm_compute; reflexivity.
Qed.

(** ** One origin call per key *)

(** C1, evaluated on the code: two identical GET requests enter [cache]
    while nothing is cached and nothing is pending; both pass the check of
    line 86 before either reaches line 258, both read the cache and miss,
    and both origin handlers execute at the same time. The registration of
    the first request is overwritten by the second. *)
Theorem concurrent_misses_both_run :
  ∃ s, run init_state
         [Arrive 1 demo_ctx; Arrive 2 demo_ctx;
          GetReturned 1 None 0; GetReturned 2 None 0] = Some s
       ∧ t_pc <$> tasks s !! 1%nat = Some InHandler
       ∧ t_pc <$> tasks s !! 2%nat = Some InHandler
       ∧ size (in_handler (cache_key demo_ctx) s) = 2%nat
       ∧ PendingRequest s !! cache_key demo_ctx = Some 2%nat.
Proof. eexists. split; [vm_compute; reflexivity|]. vm_compute. done. Qed.

(** The same for waiters: two requests that waited for one origin call
    which stored nothing both fall through, and both handlers execute at
    the same time. *)
Lemma released_waiters_both_run :
  ∃ s, run init_state
         [Arrive 1 demo_ctx; GetReturned 1 None 0;
          Arrive 2 demo_ctx; Arrive 3 demo_ctx;
          HandlerSettled 1 Fulfilled; Finish 1;
          PendingSettled 2; PendingSettled 3;
          GetReturned 2 None 0; GetReturned 3 None 0] = Some s
       ∧ t_pc <$> tasks s !! 2%nat = Some InHandler
       ∧ t_pc <$> tasks s !! 3%nat = Some InHandler
       ∧ size (in_handler (cache_key demo_ctx) s) = 2%nat.
Proof. eexists. split; [vm_compute; reflexivity|]. vm_compute. done. Qed.

(** ** Requests with a max-age override *)

(** C10, evaluated on the code: the header [server; max-age=0;] carries
    the [server] token and a [max-age] directive, the override
    [maxAgeSeconds = 0] is derived from it, and the request registers in
    [PendingRequest] all the same, because [!opts.maxAgeSeconds] is true
    for 0. The recache task itself sends this header for an entry that is
    one second old. *)
Theorem max_age_zero_registers :
  cache_control replay_of_fresh_entry = "server; max-age=0;"
  ∧ matches "server" (cache_control replay_of_fresh_entry) = true
  ∧ maxAgeMatch (cache_control replay_of_fresh_entry) = Some "0"
  ∧ maxAgeSeconds (cache_opts (cache_control replay_of_fresh_entry)) = Some 0
  ∧ ∃ s, run init_state
           [Arrive 1 replay_of_fresh_entry; GetReturned 1 None 0] = Some s
         ∧ PendingRequest init_state !! cache_key replay_of_fresh_entry = None
         ∧ PendingRequest s !! cache_key replay_of_fresh_entry = Some 1%nat.
Proof.
  split; [vm_compute; reflexivity|]. split; [vm_compute; reflexivity|].
  split; [vm_compute; reflexivity|]. split; [vm_compute; reflexivity|].
  eexists. split; [vm_compute; reflexivity|]. vm_compute. done.
Qed.

(** With an override other than 0 the miss path leaves [PendingRequest]
    as it is. *)
Lemma nonzero_override_does_not_register (s : State) (id : nat) (t : Task) (n : Z) :
  maxAgeSeconds (cache_opts (cache_control (t_ctx t))) = Some n → n ≠ 0 →
  PendingRequest (after_miss id t s) = PendingRequest s
  ∧ t_armed <$> tasks (after_miss id t s) !! id = Some (t_armed t).
Proof.
  intros Hn Hz. unfold after_miss, no_max_age. rewrite Hn. simpl.
  unfold truthy. apply Z.eqb_neq in Hz. rewrite Hz. simpl.
  by rewrite lookup_insert_eq.
Qed.

Lemma own_step_keeps_registry (s s' : State) (id : nat) (t : Task) (e : Event) :
  own_event id e = true → tasks s !! id = Some t → t_armed t = false →
  no_max_age (cache_opts (cache_control (t_ctx t))) = false →
  step s e = Some s' →
  PendingRequest s' = PendingRequest s
  ∧ ∃ t', tasks s' !! id = Some t' ∧ t_ctx t' = t_ctx t ∧ t_armed t' = false.
Proof.
  intros Hown Ht Ha Hno Hstep.
  destruct e as [i c|i|i cached now_ms|i r|i|i replay|i res]; try discriminate;
    apply bool_decide_eq_true in Hown as ->; simpl in Hstep;
    rewrite Ht in Hstep; simpl in Hstep.
  - destruct (t_pc t); try done. destruct (settled s !! p) as [r|]; [|done].
    simpl in Hstep. destruct (promise_catch _ r). injection Hstep as <-.
    simpl. rewrite lookup_insert_eq. eauto.
  - destruct (t_pc t) as [| |waited| | |]; try done.
    destruct (tryRespondWithCache _ _ _ _) as [[ended calls]|].
    + destruct waited; injection Hstep as <-.
      * simpl. rewrite lookup_insert_eq. eauto.
      * unfold after_hit. simpl.
        destruct (PendingRecache s !! _); [|destruct (recacheable ended)];
          simpl; rewrite lookup_insert_eq; eauto.
    + injection Hstep as <-. unfold after_miss. rewrite Hno. simpl.
      rewrite lookup_insert_eq. eauto.
  - destruct (t_pc t); try done. injection Hstep as <-.
    simpl. rewrite lookup_insert_eq. eauto.
  - unfold on_finish in Hstep. rewrite Ha in Hstep.
    destruct (t_pc t); try done; injection Hstep as <-; eauto.
Qed.

(** A request whose header carries [server] and [max-age=<n>] with [n]
    other than 0 leaves [PendingRequest] as it found it, from its arrival
    through all of its own steps. *)
Lemma nonzero_override_leaves_registry (s s' : State) (id : nat) (ctx : Ctx)
    (ds : string) (es : list Event) :
  matches "server" (cache_control ctx) = true →
  maxAgeMatch (cache_control ctx) = Some ds → parseInt ds ≠ 0 →
  forallb (own_event id) es = true →
  run s (Arrive id ctx :: es) = Some s' →
  PendingRequest s' = PendingRequest s.
Proof.
  intros Hsrv Hm Hz Hes Hrun. simpl in Hrun.
  destruct (arrive id ctx s) as [s1|] eqn:Harr; [|done]. simpl in Hrun.
  assert (no_max_age (cache_opts (cache_control ctx)) = false) as Hno.
  { unfold no_max_age, cache_opts. simpl. rewrite Hm, Hsrv. simpl.
    unfold truthy. apply Z.eqb_neq in Hz. by rewrite Hz. }
  assert (PendingRequest s1 = PendingRequest s
          ∧ ∃ t, tasks s1 !! id = Some t ∧ t_ctx t = ctx ∧ t_armed t = false)
    as [HP (t & Ht & Hc & Ha)].
  { unfold arrive in Harr. destruct (tasks s !! id); [done|].
    injection Harr as <-. simpl. rewrite lookup_insert_eq. eauto. }
  rewrite <- HP. clear HP Harr. revert s1 t Ht Hc Ha Hrun.
  induction es as [|e es IH]; intros s1 t Ht Hc Ha Hrun.
  - by injection Hrun as <-.
  - simpl in Hes. apply andb_true_iff in Hes as [He Hes].
    simpl in Hrun. destruct (step s1 e) as [s2|] eqn:Hs; [|done]. simpl in Hrun.
    rewrite <- Hc in Hno.
    destruct (own_step_keeps_registry s1 s2 id t e He Ht Ha Hno Hs)
      as (HP & t' & Ht' & Hc' & Ha').
    rewrite <- HP. rewrite Hc in Hno.
    apply (IH Hes s2 t'); [done|congruence|done|done].
Qed.

(** ** One refresh per key *)

Section filter_facts.
Context {A : Type} (P Q : A → Prop) `{!∀ x, Decision (P x)} `{!∀ x, Decision (Q x)}.

Lemma filter_filter_nil (l : list A) :
  filter P l = [] → filter P (filter Q l) = [].
Proof.
  induction l as [|x l IH]; [done|].
  rewrite !filter_cons. destruct (decide (P x)) as [HP|HP]; [done|].
  intros E. destruct (decide (Q x)); [|by apply IH].
  rewrite filter_cons. destruct (decide (P x)); [done|by apply IH].
Qed.

Lemma filter_filter_length (l : list A) :
  (length (filter P (filter Q l)) ≤ length (filter P l))%nat.
Proof.
  induction l as [|x l IH]; [done|].
  rewrite !filter_cons. destruct (decide (Q x)), (decide (P x));
    rewrite ?filter_cons; repeat case_decide; simpl; try done; lia.
Qed.

(** When at most one element satisfies [P] and it fails [Q], none of the
    elements that satisfy [Q] satisfies [P]. *)
Lemma filter_filter_only (l : list A) (r : A) :
  (length (filter P l) ≤ 1)%nat → r ∈ l → P r → ¬ Q r →
  filter P (filter Q l) = [].
Proof.
  induction l as [|x l IH]; intros Hlen Hin HP HQ; [by apply elem_of_nil in Hin|].
  rewrite filter_cons in Hlen.
  destruct (decide (P x)) as [HPx|HPx].
  - simpl in Hlen. assert (filter P l = []) as Hnil.
    { apply length_zero_iff_nil. lia. }
    apply elem_of_cons in Hin as [->|Hin].
    + rewrite filter_cons. destruct (decide (Q x)); [done|].
      by apply filter_filter_nil.
    + exfalso. by eapply (filter_nil_not_elem_of P l r).
  - apply elem_of_cons in Hin as [->|Hin]; [done|].
    rewrite filter_cons. destruct (decide (Q x)).
    + rewrite filter_cons. destruct (decide (P x)); [done|]. by apply IH.
    + by apply IH.
Qed.

Lemma filter_map_same (f : A → A) (l : list A) :
  (∀ x, P (f x) ↔ P x) → filter P (map f l) = map f (filter P l).
Proof.
  intros Hf. induction l as [|x l IH]; [done|].
  simpl. rewrite !filter_cons.
  destruct (decide (P (f x))) as [H1|H1], (decide (P x)) as [H2|H2];
    simpl; rewrite ?IH; try done.
  - exfalso. apply H2. by apply Hf.
  - exfalso. apply H1. by apply Hf.
Qed.
End filter_facts.

Lemma recache_inv_init : recache_inv init_state.
Proof. intros key. split; [done|]. unfold refreshes_for. simpl. lia. Qed.

Lemma arrive_frame id ctx s s' :
  arrive id ctx s = Some s' →
  PendingRecache s' = PendingRecache s ∧ refreshes s' = refreshes s
  ∧ PendingRequest s' = PendingRequest s.
Proof.
  unfold arrive. destruct (tasks s !! id); [done|]. by intros [= <-].
Qed.

Lemma find_refresh_Some id p s r :
  find_refresh id p s = Some r → r ∈ refreshes s ∧ r_id r = id ∧ r_pc r = p.
Proof.
  unfold find_refresh. intros H. apply find_some in H as [Hin Hb].
  apply bool_decide_eq_true in Hb. split; [by apply list_elem_of_In|done].
Qed.

(** Every step keeps the invariant of the recache registry. *)
Lemma step_recache_inv s e s' : step s e = Some s' → recache_inv s → recache_inv s'.
Proof.
  intros Hstep I. destruct e as [id ctx|id|id cached now_ms|id r|id|id replay|id res].
  - apply arrive_frame in Hstep as (HP & HR & _).
    intros key. unfold refreshes_for. rewrite HP, HR. apply I.
  - simpl in Hstep. destruct (tasks s !! id) as [t|]; [|done]. simpl in Hstep.
    destruct (t_pc t); try done. destruct (settled s !! p) as [r|]; [|done].
    simpl in Hstep. destruct (promise_catch _ r). by injection Hstep as <-.
  - simpl in Hstep. destruct (tasks s !! id) as [t|]; [|done]. simpl in Hstep.
    destruct (t_pc t) as [| |waited| | |]; try done.
    destruct (tryRespondWithCache _ _ _ _) as [[ended calls]|].
    + destruct waited; injection Hstep as <-; [exact I|].
      unfold after_hit. simpl.
      destruct (PendingRecache s !! cache_key (t_ctx t)) eqn:HP; [exact I|].
      destruct (recacheable ended); [|exact I].
      intros key. unfold refreshes_for. simpl. rewrite filter_app, filter_cons, filter_nil.
      destruct (I key) as [I1 I2]. unfold refreshes_for in I1, I2.
      simpl. destruct (decide (cache_key (t_ctx t) = key)) as [<-|Hne].
      * rewrite lookup_insert_eq, (I1 HP). by split.
      * rewrite lookup_insert_ne, app_nil_r by done. by split.
    + injection Hstep as <-. unfold after_miss.
      by destruct (no_max_age _).
  - simpl in Hstep. destruct (tasks s !! id) as [t|]; [|done]. simpl in Hstep.
    destruct (t_pc t); try done. by injection Hstep as <-.
  - simpl in Hstep. destruct (tasks s !! id) as [t|]; [|done]. simpl in Hstep.
    unfold on_finish in Hstep.
    destruct (t_pc t); try done; injection Hstep as <-; by destruct (t_armed t).
  - simpl in Hstep. destruct (find_refresh id RWaitClose s) as [r|]; [|done].
    simpl in Hstep. apply arrive_frame in Hstep as (HP & HR & _).
    intros key. unfold refreshes_for. rewrite HP, HR. simpl.
    rewrite (filter_map_same (fun r => r_key r = key)); [|intros x; by case_bool_decide].
    rewrite length_map. destruct (I key) as [I1 I2]. split; [|done].
    intros HN. unfold refreshes_for in I1. by rewrite (I1 HN).
  - simpl in Hstep. destruct (find_refresh id RReplay s) as [r|] eqn:Hf; [|done].
    simpl in Hstep. injection Hstep as <-.
    apply find_refresh_Some in Hf as (Hin & Hid & _).
    intros key. unfold refreshes_for. simpl.
    destruct (I key) as [I1 I2]. unfold refreshes_for in I1, I2. split.
    + destruct (decide (r_key r = key)) as [<-|Hne].
      * intros _. apply (filter_filter_only _ _ _ r); [done|done|done|]. by intros [].
      * rewrite lookup_delete_ne by done. intros HN. by apply filter_filter_nil, I1.
    + etrans; [apply filter_filter_length|done].
Qed.

Lemma run_recache_inv es s s' : run s es = Some s' → recache_inv s → recache_inv s'.
Proof.
  revert s. induction es as [|e es IH]; intros s Hrun I.
  - by injection Hrun as <-.
  - simpl in Hrun. destruct (step s e) as [s1|] eqn:Hs; [|done].
    simpl in Hrun. eapply IH; [done|]. by eapply step_recache_inv.
Qed.

(** A step adds a refresh for a key only when none is pending for it. *)
Lemma step_no_second_refresh s e s' key :
  step s e = Some s' → is_Some (PendingRecache s !! key) →
  (length (refreshes_for key s') ≤ length (refreshes_for key s))%nat.
Proof.
  intros Hstep [x HP]. destruct e as [id ctx|id|id cached now_ms|id r|id|id replay|id res].
  - apply arrive_frame in Hstep as (_ & HR & _). unfold refreshes_for. by rewrite HR.
  - simpl in Hstep. destruct (tasks s !! id) as [t|]; [|done]. simpl in Hstep.
    destruct (t_pc t); try done. destruct (settled s !! p) as [r|]; [|done].
    simpl in Hstep. destruct (promise_catch _ r). by injection Hstep as <-.
  - simpl in Hstep. destruct (tasks s !! id) as [t|]; [|done]. simpl in Hstep.
    destruct (t_pc t) as [| |waited| | |]; try done.
    destruct (tryRespondWithCache _ _ _ _) as [[ended calls]|].
    + destruct waited; injection Hstep as <-; [done|].
      unfold after_hit. simpl.
      destruct (PendingRecache s !! cache_key (t_ctx t)) eqn:HP'; [done|].
      destruct (recacheable ended); [|done].
      unfold refreshes_for. simpl. rewrite filter_app, filter_cons, filter_nil. simpl.
      destruct (decide (cache_key (t_ctx t) = key)) as [E|_]; [|by rewrite app_nil_r].
      rewrite E in HP'. congruence.
    + injection Hstep as <-. unfold after_miss. by destruct (no_max_age _).
  - simpl in Hstep. destruct (tasks s !! id) as [t|]; [|done]. simpl in Hstep.
    destruct (t_pc t); try done. by injection Hstep as <-.
  - simpl in Hstep. destruct (tasks s !! id) as [t|]; [|done]. simpl in Hstep.
    unfold on_finish in Hstep.
    destruct (t_pc t); try done; injection Hstep as <-; by destruct (t_armed t).
  - simpl in Hstep. destruct (find_refresh id RWaitClose s) as [r|]; [|done].
    simpl in Hstep. apply arrive_frame in Hstep as (_ & HR & _).
    unfold refreshes_for. rewrite HR. simpl.
    rewrite (filter_map_same (fun r => r_key r = key)); [|intros y; by case_bool_decide].
    by rewrite length_map.
  - simpl in Hstep. destruct (find_refresh id RReplay s) as [r|] eqn:Hf; [|done].
    simpl in Hstep. injection Hstep as <-.
    unfold refreshes_for. simpl. apply filter_filter_length.
Qed.

(** C6: in every reachable state each key has at most one live recache
    task; while [PendingRecache] holds an entry for a key no step adds a
    task for it; and when the application call of a recache task ends -
    with a status below 500, with a 5xx status, or by throwing - the step
    removes the entry of its key from [PendingRecache] and the task from
    the live ones. *)
Theorem one_refresh_per_key (s : State) :
  reachable s →
  (∀ key, (length (refreshes_for key s) ≤ 1)%nat)
  ∧ (∀ key e s', is_Some (PendingRecache s !! key) → step s e = Some s' →
       (length (refreshes_for key s') ≤ length (refreshes_for key s))%nat)
  ∧ (∀ id r res, find_refresh id RReplay s = Some r →
       ∃ s', step s (ReplaySettled id res) = Some s'
             ∧ PendingRecache s' !! r_key r = None
             ∧ refreshes_for (r_key r) s' = []
             ∧ console s' = console s ++ replay_lines (r_key r) res).
Proof.
  intros [es Hrun].
  pose proof (run_recache_inv es init_state s Hrun recache_inv_init) as I.
  split; [|split].
  - intros key. apply I.
  - intros key e s' HP Hstep. by eapply step_no_second_refresh.
  - intros id r res Hf. eexists. split.
    { unfold step. rewrite Hf. reflexivity. }
    apply find_refresh_Some in Hf as (Hin & Hid & _). simpl.
    split; [apply lookup_delete_eq|]. split; [|done].
    unfold refreshes_for. simpl.
    apply (filter_filter_only _ _ _ r); [apply I|done|done|]. by intros [].
Qed.

Lemma one_refresh_per_key_witness :
  reachable replaying_state
  ∧ (∀ key, (length (refreshes_for key replaying_state) ≤ 1)%nat)
  ∧ (∃ r, find_refresh 1 RReplay replaying_state = Some r
          ∧ r_key r = cache_key demo_ctx
          ∧ ∃ s', step replaying_state (ReplaySettled 1 (ReplayStatus 503)) = Some s'
                  ∧ PendingRecache s' !! r_key r = None
                  ∧ refreshes_for (r_key r) s' = []
                  ∧ console s'
                    = console replaying_state
                      ++ replay_lines (r_key r) (ReplayStatus 503)).
Proof.
  assert (reachable replaying_state) as R.
  { exists replay_events. vm_compute. reflexivity. }
  split; [exact R|]. split.
  - exact (proj1 (one_refresh_per_key replaying_state R)).
  - eexists. split; [vm_compute; reflexivity|]. split; [vm_compute; reflexivity|].
    apply (proj2 (proj2 (one_refresh_per_key replaying_state R))).
    vm_compute. reflexivity.
Defined.

(** ** The max-age override and the header of the recache task *)

Lemma is_digit_pretty_N_char (d : N) : is_digit (pretty_N_char d) = true.
Proof. unfold pretty_N_char. by repeat case_match. Qed.

Lemma digit_value_pretty_N_char (d : N) :
  (d < 10)%N → digit_value (pretty_N_char d) = Z.of_N d.
Proof.
  intros H.
  assert (d = 0 ∨ d = 1 ∨ d = 2 ∨ d = 3 ∨ d = 4 ∨ d = 5 ∨ d = 6 ∨ d = 7
          ∨ d = 8 ∨ d = 9)%N as Hd by lia.
  repeat (destruct Hd as [->|Hd]; [reflexivity|]). by subst.
Qed.

Lemma pretty_N_go_append (x : N) (s t : string) :
  pretty_N_go x s +:+ t = pretty_N_go x (s +:+ t).
Proof.
  revert s. induction (N.lt_wf_0 x) as [x _ IH]; intros s.
  destruct (decide (x = 0)%N) as [->|Hx]; [by rewrite !pretty_N_go_0|].
  rewrite (pretty_N_go_step x s), (pretty_N_go_step x (s +:+ t)) by lia.
  rewrite IH by (apply N.div_lt; lia). by rewrite append_cons.
Qed.

Lemma take_digits_pretty_N_go (x : N) (s : string) :
  take_digits (pretty_N_go x s) = pretty_N_go x (take_digits s).
Proof.
  revert s. induction (N.lt_wf_0 x) as [x _ IH]; intros s.
  destruct (decide (x = 0)%N) as [->|Hx]; [by rewrite !pretty_N_go_0|].
  rewrite (pretty_N_go_step x s), (pretty_N_go_step x (take_digits s)) by lia.
  rewrite IH by (apply N.div_lt; lia). simpl. by rewrite is_digit_pretty_N_char.
Qed.

Lemma parseInt_from_pretty_N_go (x : N) :
  ∃ k, 0 ≤ k ∧ ∀ acc s,
    parseInt_from acc (pretty_N_go x s) = parseInt_from (acc * 10 ^ k + Z.of_N x) s.
Proof.
  induction (N.lt_wf_0 x) as [x _ IH].
  destruct (decide (x = 0)%N) as [->|Hx].
  { exists 0. split; [done|]. intros acc s. rewrite pretty_N_go_0. f_equal. simpl. lia. }
  destruct (IH (x `div` 10)%N) as (k & Hk & E); [apply N.div_lt; lia|].
  exists (k + 1). split; [lia|]. intros acc s.
  rewrite pretty_N_go_step by lia. rewrite E. simpl. f_equal.
  rewrite digit_value_pretty_N_char by (apply N.mod_upper_bound; lia).
  rewrite Z.pow_add_r by lia. rewrite N2Z.inj_div, N2Z.inj_mod.
  change (Z.of_N 10) with 10. pose proof (Z.div_mod (Z.of_N x) 10). lia.
Qed.

Lemma pretty_nonneg (n : Z) : 0 ≤ n → pretty n = pretty (Z.to_N n).
Proof. intros H. by destruct n. Qed.

Lemma pretty_N_nonempty (x : N) : ∃ c s, pretty x = String c s ∧ is_digit c = true.
Proof.
  unfold pretty, pretty_N. destruct (decide (x = 0)%N) as [->|Hx]; [by eexists _, _|].
  assert (∀ y s, (∃ c s', s = String c s' ∧ is_digit c = true) →
                 ∃ c s', pretty_N_go y s = String c s' ∧ is_digit c = true) as G.
  { intros y. induction (N.lt_wf_0 y) as [y _ IH]; intros s Hs.
    destruct (decide (y = 0)%N) as [->|Hy]; [by rewrite pretty_N_go_0|].
    rewrite pretty_N_go_step by lia. apply IH; [apply N.div_lt; lia|].
    eexists _, _. split; [done|]. apply is_digit_pretty_N_char. }
  rewrite pretty_N_go_step by lia. apply G.
  eexists _, _. split; [done|]. apply is_digit_pretty_N_char.
Qed.

(** [parseInt] reads back what [toString] printed, for a number that is
    not negative. *)
Lemma parseInt_pretty (n : Z) : 0 ≤ n → parseInt (pretty n) = n.
Proof.
  intros H. rewrite pretty_nonneg by done. unfold pretty, pretty_N, parseInt.
  destruct (decide (Z.to_N n = 0)%N) as [E|E].
  - assert (n = 0) as -> by lia. reflexivity.
  - destruct (parseInt_from_pretty_N_go (Z.to_N n)) as (k & _ & ->).
    unfold parseInt_from. rewrite Z2N.id by done. lia.
Qed.

Lemma take_digits_pretty (n : Z) (c : ascii) (rest : string) :
  0 ≤ n → is_digit c = false →
  take_digits (pretty n +:+ String c rest) = pretty n.
Proof.
  intros H Hc. rewrite pretty_nonneg by done. unfold pretty, pretty_N.
  destruct (decide (Z.to_N n = 0)%N); [by simpl; rewrite Hc|].
  rewrite pretty_N_go_append, take_digits_pretty_N_go, append_empty. simpl.
  by rewrite Hc.
Qed.

Lemma maxAgeMatch_unfold (cc : string) :
  maxAgeMatch cc
  = match (if String.prefix "max-age=" cc
           then match take_digits (string_drop 8 cc) with
                | EmptyString => None
                | ds => Some ds
                end
           else None) with
    | Some ds => Some ds
    | None => match cc with
              | EmptyString => None
              | String _ cc' => maxAgeMatch cc'
              end
    end.
Proof. by destruct cc. Qed.

Lemma prefix_max_age_other (c : ascii) (s : string) :
  c ≠ "m"%char → String.prefix "max-age=" (String c s) = false.
Proof. intros H. cbn [String.prefix]. by destruct (ascii_dec "m" c). Qed.

Lemma maxAgeMatch_skip (c : ascii) (s : string) :
  c ≠ "m"%char → maxAgeMatch (String c s) = maxAgeMatch s.
Proof. intros H. by rewrite maxAgeMatch_unfold, prefix_max_age_other. Qed.

Lemma prefix_nil (s : string) : String.prefix "" s = true.
Proof. by destruct s. Qed.

Lemma prefix_cons_same (c : ascii) (s1 s2 : string) :
  String.prefix (String c s1) (String c s2) = String.prefix s1 s2.
Proof. cbn [String.prefix]. by destruct (ascii_dec c c). Qed.

Lemma prefix_max_age_here (s : string) :
  String.prefix "max-age=" ("max-age=" +:+ s) = true.
Proof.
  change ("max-age=" +:+ s)
    with (String "m" (String "a" (String "x" (String "-" (String "a" (String "g"
           (String "e" (String "=" s)))))))).
  rewrite !prefix_cons_same. apply prefix_nil.
Qed.

Lemma maxAgeMatch_here (s ds : string) (c : ascii) :
  take_digits s = String c ds → maxAgeMatch ("max-age=" +:+ s) = Some (String c ds).
Proof.
  intros H. rewrite maxAgeMatch_unfold.
  rewrite prefix_max_age_here.
  change (string_drop 8 ("max-age=" +:+ s)) with s. by rewrite H.
Qed.

Lemma maxAgeMatch_without_m (s : string) : occurs "m" s = false → maxAgeMatch s = None.
Proof.
  induction s as [|c s IH]; [done|].
  rewrite occurs_cons. destruct (Ascii.eqb "m" c) eqn:E; [done|]. intros H.
  apply Ascii.eqb_neq in E. rewrite maxAgeMatch_skip by done. by apply IH.
Qed.

Lemma occurs_m_pretty_N_go (x : N) (s : string) :
  occurs "m" s = false → occurs "m" (pretty_N_go x s) = false.
Proof.
  revert s. induction (N.lt_wf_0 x) as [x _ IH]; intros s Hs.
  destruct (decide (x = 0)%N) as [->|Hx]; [by rewrite pretty_N_go_0|].
  rewrite pretty_N_go_step by lia. apply IH; [apply N.div_lt; lia|].
  rewrite occurs_cons, Hs. unfold pretty_N_char. by repeat case_match.
Qed.

Lemma number_to_string_exact (z : Z) :
  Z.abs z ≤ 2 ^ 53 → number_to_string z = pretty z.
Proof.
  intros H. unfold number_to_string.
  by destruct (Z.leb_spec (Z.abs z) (2 ^ 53)); [|lia].
Qed.

(** The header of line 101 for a half age [h]. *)
Lemma recache_header_chars (h : Z) :
  "server; max-age=" +:+ pretty h +:+ ";"
  = String "s" (String "e" (String "r" (String "v" (String "e" (String "r"
      (String ";" (String " " ("max-age=" +:+ pretty h +:+ ";")))))))).
Proof. reflexivity. Qed.

Lemma recache_cache_control_exact (ended : Ended) :
  Z.abs (age ended) ≤ 2 ^ 53 →
  recache_cache_control ended = "server; max-age=" +:+ pretty (age ended / 2) +:+ ";".
Proof.
  intros H. unfold recache_cache_control. rewrite number_to_string_exact; [done|].
  assert (- 2 ^ 53 ≤ age ended / 2) by (apply Z.div_le_lower_bound; lia).
  assert (age ended / 2 ≤ 2 ^ 53) by (apply Z.div_le_upper_bound; lia).
  lia.
Qed.

Lemma maxAgeMatch_recache (h : Z) :
  0 ≤ h → maxAgeMatch ("server; max-age=" +:+ pretty h +:+ ";") = Some (pretty h).
Proof.
  intros H2. rewrite recache_header_chars.
  rewrite !maxAgeMatch_skip by done.
  pose proof (take_digits_pretty h ";" "" H2 eq_refl) as T.
  destruct (pretty_N_nonempty (Z.to_N h)) as (c & ds & E & _).
  rewrite <- pretty_nonneg in E by done.
  rewrite (maxAgeMatch_here _ ds c) by congruence. congruence.
Qed.

Lemma maxAgeMatch_recache_negative (h : Z) :
  h < 0 → maxAgeMatch ("server; max-age=" +:+ pretty h +:+ ";") = None.
Proof.
  intros H2. rewrite recache_header_chars.
  rewrite !maxAgeMatch_skip by done.
  destruct h as [|p|p] eqn:E; [lia|lia|].
  change (pretty (Z.neg p)) with ("-" +:+ pretty (N.pos p)).
  rewrite maxAgeMatch_unfold.
  rewrite prefix_max_age_here.
  change (string_drop 8 ("max-age=" +:+ ("-" +:+ pretty (N.pos p)) +:+ ";"))
    with (String "-" (pretty (N.pos p) +:+ ";")).
  cbn [take_digits]. change (is_digit "-") with false. cbn iota.
  change ("max-age=" +:+ ("-" +:+ pretty (N.pos p)) +:+ ";")
    with (String "m" (String "a" (String "x" (String "-" (String "a" (String "g"
           (String "e" (String "=" (String "-" (pretty (N.pos p) +:+ ";")))))))))).
  cbn iota. rewrite !maxAgeMatch_skip by done.
  apply maxAgeMatch_without_m. rewrite occurs_append.
  unfold pretty, pretty_N. destruct (decide _) as [|_]; [done|].
  by rewrite occurs_m_pretty_N_go.
Qed.

Lemma matches_server_recache (h : Z) :
  matches "server" ("server; max-age=" +:+ pretty h +:+ ";") = true.
Proof.
  rewrite recache_header_chars. cbn [matches].
  change "server"%string
    with (String "s" (String "e" (String "r" (String "v" (String "e" (String "r" "")))))).
  by rewrite !prefix_cons_same, prefix_nil.
Qed.

Lemma matches_unfold (pat s : string) :
  matches pat s
  = (String.prefix pat s
     || match s with EmptyString => false | String _ s' => matches pat s' end).
Proof. by destruct s. Qed.

Lemma matches_without_first (c : ascii) (pat s : string) :
  occurs c s = false → matches (String c pat) s = false.
Proof.
  induction s as [|d s IH]; [done|].
  rewrite occurs_cons. destruct (Ascii.eqb c d) eqn:E; [done|]. intros H.
  apply Ascii.eqb_neq in E. rewrite matches_unfold, (IH H).
  cbn [String.prefix]. by destruct (ascii_dec c d).
Qed.

Lemma occurs_pretty_N_go (c : ascii) (x : N) (s : string) :
  is_digit c = false → occurs c (pretty_N_go x s) = occurs c s.
Proof.
  intros Hc. revert s. induction (N.lt_wf_0 x) as [x _ IH]; intros s.
  destruct (decide (x = 0)%N) as [->|Hx]; [by rewrite pretty_N_go_0|].
  rewrite pretty_N_go_step by lia. rewrite IH by (apply N.div_lt; lia).
  rewrite occurs_cons. destruct (Ascii.eqb c _) eqn:E; [|done].
  apply Ascii.eqb_eq in E. subst c. by rewrite is_digit_pretty_N_char in Hc.
Qed.

Lemma occurs_pretty (c : ascii) (n : Z) :
  is_digit c = false → c ≠ "-"%char → occurs c (pretty n) = false.
Proof.
  intros Hc Hm.
  assert (∀ x : N, occurs c (pretty x) = false) as G.
  { intros x. unfold pretty, pretty_N. destruct (decide _).
    - rewrite occurs_cons. destruct (Ascii.eqb c "0") eqn:E; [|done].
      apply Ascii.eqb_eq in E. by subst c.
    - by rewrite occurs_pretty_N_go. }
  destruct n as [|p|p]; [apply (G 0%N)|apply (G (N.pos p))|].
  change (pretty (Z.neg p)) with (String "-" (pretty (N.pos p))).
  rewrite occurs_cons, (G (N.pos p)). apply Ascii.eqb_neq in Hm. by rewrite Hm.
Qed.

Lemma occurs_n_recache (h : Z) :
  occurs "n" ("server; max-age=" +:+ pretty h +:+ ";") = false.
Proof. rewrite !occurs_append, occurs_pretty by done. done. Qed.

(** X1: the header that a recache task installs on the request it
    replays never disables cache reads or writes. For an age that is not
    negative the policy reads back the override that line 101 wrote, half
    the age rounded down, and the replay registers as a pending origin
    call exactly when that half is 0, so for an age below 2. For a
    negative age the header holds no [max-age=] followed by a digit, and
    no override is derived. This is for an age of at most 2^53 in size,
    which prints as its decimal digits. *)
Theorem recache_header_round_trip (r : Refresh) (rv : Resolved) :
  let o := cache_opts (cache_control (replay_ctx r rv)) in
  let a := age (r_ended r) in
  Z.abs a ≤ 2 ^ 53 →
  noCache o = false ∧ noStore o = false
  ∧ (0 ≤ a → maxAgeSeconds o = Some (a / 2) ∧ (no_max_age o = true ↔ a < 2))
  ∧ (a < 0 → maxAgeSeconds o = None ∧ no_max_age o = true).
Proof.
  intros o a Hsafe.
  unfold o, replay_ctx. cbn [cache_control].
  rewrite recache_cache_control_exact by done. fold a.
  assert (matches "no-cache" ("server; max-age=" +:+ pretty (a / 2) +:+ ";") = false) as Hc.
  { apply matches_without_first, occurs_n_recache. }
  assert (matches "no-store" ("server; max-age=" +:+ pretty (a / 2) +:+ ";") = false) as Hs.
  { apply matches_without_first, occurs_n_recache. }
  unfold cache_opts, shouldRead, shouldWrite, no_max_age.
  cbn [noCache noStore maxAgeSeconds].
  rewrite Hc, Hs, matches_server_recache. cbn [negb orb].
  split; [done|]. split; [done|]. split.
  - intros Ha. rewrite maxAgeMatch_recache by (apply Z.div_pos; lia).
    rewrite parseInt_pretty by (apply Z.div_pos; lia).
    split; [done|]. cbn [truthy_opt]. unfold truthy. rewrite negb_involutive, Z.eqb_eq.
    split; intros H.
    + apply Z.div_small_iff in H; lia.
    + apply Z.div_small. lia.
  - intros Ha. rewrite maxAgeMatch_recache_negative; [done|].
    apply Z.div_lt_upper_bound; lia.
Qed.

Lemma recache_header_round_trip_witness :
  maxAgeSeconds (cache_opts (cache_control
     (replay_ctx (new_refresh 1 {| t_ctx := demo_ctx; t_pc := Returned; t_armed := false |}
                    {| rtl := 5; age := 10 |}) (resolved_of demo_ctx)))) = Some (10 / 2)
  ∧ (no_max_age (cache_opts (cache_control
        (replay_ctx (new_refresh 1 {| t_ctx := demo_ctx; t_pc := Returned; t_armed := false |}
                       {| rtl := 5; age := 10 |}) (resolved_of demo_ctx)))) = true ↔ 10 < 2).
Proof.
  apply (proj1 (proj2 (proj2
           (recache_header_round_trip
              (new_refresh 1 {| t_ctx := demo_ctx; t_pc := Returned; t_armed := false |}
                 {| rtl := 5; age := 10 |}) (resolved_of demo_ctx)
              ltac:(simpl; lia))))).
  simpl. lia.
Defined.

Lemma parseInt_from_nonneg (ds : string) (acc : Z) : 0 ≤ acc → 0 ≤ parseInt_from acc ds.
Proof.
  revert acc. induction ds as [|c ds IH]; intros acc H; [done|].
  simpl. apply IH. unfold digit_value. destruct (Ascii.is_nat c); lia.
Qed.

Lemma maxAgeMatch_matches (cc ds : string) :
  maxAgeMatch cc = Some ds → matches "max-age=" cc = true.
Proof.
  induction cc as [|c cc IH]; rewrite maxAgeMatch_unfold, matches_unfold.
  - by destruct (String.prefix _ _).
  - destruct (String.prefix "max-age=" (String c cc)); [done|].
    intros H. by rewrite IH.
Qed.

(** X2: whatever the cache-control header holds, an override is derived
    only when it contains [server] and a [max-age=] directive; the
    override is never negative; a [max-age] without the [server] token is
    ignored. *)
Theorem max_age_override_needs_server (cc : string) :
  (∀ n, maxAgeSeconds (cache_opts cc) = Some n →
        0 ≤ n ∧ matches "server" cc = true ∧ matches "max-age=" cc = true)
  ∧ (matches "server" cc = false → maxAgeSeconds (cache_opts cc) = None)
  ∧ (matches "max-age=" cc = false → maxAgeSeconds (cache_opts cc) = None).
Proof.
  unfold cache_opts. simpl. split; [|split].
  - intros n. destruct (maxAgeMatch cc) as [ds|] eqn:M; [|done].
    destruct (matches "server" cc); [|done]. intros [= <-].
    split; [by apply parseInt_from_nonneg|]. split; [done|].
    by eapply maxAgeMatch_matches.
  - intros ->. by destruct (maxAgeMatch cc).
  - intros H. destruct (maxAgeMatch cc) as [ds|] eqn:M; [|done].
    apply maxAgeMatch_matches in M. congruence.
Qed.

Lemma max_age_override_needs_server_witness :
  maxAgeSeconds (cache_opts "max-age=60") = None.
Proof.
  apply (proj1 (proj2 (max_age_override_needs_server "max-age=60"))).
  vm_compute. reflexivity.
Defined.


(** ** The usual flow is followed to its end *)

Lemma all_chars_append (p : ascii → bool) (a b : string) :
  all_chars p (a +:+ b) = all_chars p a && all_chars p b.
Proof.
  induction a as [|c a IH]; [by rewrite append_empty|].
  rewrite append_cons. cbn. by rewrite IH, andb_assoc.
Qed.

Lemma header_char_digit (c : ascii) : is_digit c = true → header_char c = true.
Proof. destruct c as [[] [] [] [] [] [] [] []]; done. Qed.

Lemma valid_pretty_N_go (x : N) (s : string) :
  valid_header_value s = true → valid_header_value (pretty_N_go x s) = true.
Proof.
  revert s. induction (N.lt_wf_0 x) as [x _ IH]; intros s Hs.
  destruct (decide (x = 0)%N) as [->|Hx]; [by rewrite pretty_N_go_0|].
  rewrite pretty_N_go_step by lia. apply IH; [apply N.div_lt; lia|].
  unfold valid_header_value in *. cbn.
  by rewrite header_char_digit, Hs by apply is_digit_pretty_N_char.
Qed.

Lemma valid_pretty_N (x : N) : valid_header_value (pretty x) = true.
Proof.
  unfold pretty, pretty_N. destruct (decide (x = 0)%N); [done|].
  by apply valid_pretty_N_go.
Qed.

Lemma valid_number_to_string (z : Z) :
  Z.abs z ≤ 2 ^ 53 → valid_header_value (number_to_string z) = true.
Proof.
  intros H. rewrite number_to_string_exact by done. destruct z as [|p|p].
  - done.
  - apply (valid_pretty_N (Npos p)).
  - change (pretty (Z.neg p)) with ("-" +:+ pretty (Npos p)).
    pose proof (valid_pretty_N (Npos p)) as V.
    unfold valid_header_value in *. rewrite all_chars_append. by rewrite V.
Qed.

Lemma valid_cache_control_value (scope : string) (n : Z) :
  valid_header_value scope = true → Z.abs n ≤ 2 ^ 53 →
  valid_header_value (cache_control_value scope n) = true.
Proof.
  intros Hs Hn. pose proof (valid_number_to_string n Hn) as Hv.
  destruct scope as [|c scope].
  - change (cache_control_value "" n) with ("max-age=" +:+ number_to_string n).
    unfold valid_header_value in *. by rewrite all_chars_append, Hv.
  - change (cache_control_value (String c scope) n)
      with (String c scope +:+ ", " +:+ "max-age=" +:+ number_to_string n).
    unfold valid_header_value in *. by rewrite !all_chars_append, Hs, Hv.
Qed.

Lemma valid_status_text (st : Z) : valid_header_value (status_text st) = true.
Proof.
  unfold status_text. destruct (List.find _ STATUS_CODES) as [e|] eqn:E; [|done].
  apply find_some in E as [E _].
  assert (Forall (fun e => valid_header_value (snd e) = true) STATUS_CODES) as F
    by (vm_compute; repeat constructor).
  rewrite Forall_forall in F. by apply F, list_elem_of_In.
Qed.

Lemma untouched_setHeader k v r :
  untouched_res r → valid_header_name k = true → valid_header_value v = true →
  ∃ r', node_setHeader k v r = Some r' ∧ untouched_res r'.
Proof.
  intros (H & F & D & M & S) Hk Hv. unfold node_setHeader, r_headersSent.
  rewrite H, Hk, Hv. eexists. split; [reflexivity|]. unfold untouched_res. cbn.
  repeat split; (done || lia).
Qed.

Lemma plain_inv_run_op key w op :
  plain_op op = true → plain_inv w → plain_inv (run_op key w op).
Proof.
  intros P (St & A & M & r & R & U). rewrite run_op_going by done.
  destruct op as [a | m | st | m | k v | st m h | chunk enc | data enc now_ms];
    try done; cbn in P.
  - apply Z.leb_le in P. split; [done|]. split; [done|]. split; [done|]. by exists r.
  - apply Z.leb_le in P. split; [done|]. split; [done|]. split; [done|]. by exists r.
  - apply andb_true_iff in P as [P1 P2]. apply Z.leb_le in P1, P2.
    split; [done|]. split; [done|]. split; [done|]. cbn. rewrite R. cbn.
    eexists. split; [reflexivity|]. unfold untouched_res in *. cbn.
    destruct U as (? & ? & ? & ? & ?). repeat split; (done || lia).
  - split; [done|]. split; [done|]. split; [done|]. cbn. rewrite R. cbn.
    eexists. split; [reflexivity|]. unfold untouched_res in *. cbn.
    destruct U as (? & ? & ? & ? & ?). repeat split; (done || lia).
  - apply andb_true_iff in P as [P1 P2].
    destruct (untouched_setHeader k v r U P1 P2) as (r' & E & U').
    unfold try_res. rewrite R. cbn. rewrite E. cbn.
    split; [done|]. split; [done|]. split; [done|]. by exists r'.
Qed.

Lemma plain_inv_run_ops key ops w :
  forallb plain_op ops = true → plain_inv w → plain_inv (run_ops key ops w).
Proof.
  revert w. induction ops as [|op ops IH]; intros w P I; [done|].
  cbn in P. apply andb_true_iff in P as [P1 P2].
  rewrite run_ops_cons. by apply IH, plain_inv_run_op.
Qed.

Lemma plain_inv_after_next scope w :
  valid_header_value scope = true → plain_inv w → plain_inv (after_next scope w).
Proof.
  intros Hs (St & A & M & r & R & U). unfold after_next. rewrite St, R.
  assert (∀ k v r0, untouched_res r0 → valid_header_name k = true →
                    valid_header_value v = true →
                    ∃ r', ctx_set k v (RealResponse r0) = Some (RealResponse r')
                          ∧ untouched_res r') as G.
  { intros k v r0 U0 Hk Hv. destruct (untouched_setHeader k v r0 U0 Hk Hv) as (r' & E & U').
    exists r'. split; [|done]. unfold ctx_set. cbn. unfold r_headersSent.
    destruct U0 as (-> & _). by rewrite E. }
  destruct (G "x-cache" "miss" r U eq_refl eq_refl) as (r1 & -> & U1).
  cbn [mbind option_bind].
  destruct (G "age" (number_to_string (ctx_age (cacheCtx w))) r1 U1 eq_refl
              (valid_number_to_string _ A)) as (r2 & -> & U2).
  cbn [mbind option_bind].
  destruct (G "cache-control" (cache_control_value scope (ctx_maxage (cacheCtx w))) r2 U2
              eq_refl (valid_cache_control_value _ _ Hs M)) as (r3 & -> & U3).
  split; [done|]. split; [done|]. split; [done|]. by exists r3.
Qed.

(** The usual flow of a Koa application is followed to its end: a
    handler that sets status, headers and cache context and leaves the
    body to Koa, on a response that nothing has touched, and then the
    one [end]: Node throws on none of the calls. *)
Lemma plain_miss_is_followed (scope key : string) (ttlsec : Z) (r : RealRes)
    (handler : list HandlerOp) (data : option Chunk) (enc : option string) (now_ms : Z) :
  untouched_res r → valid_header_value scope = true → Z.abs ttlsec ≤ 2 ^ 53 →
  forallb plain_op handler = true →
  stopped (miss_path scope key ttlsec (RealResponse r) handler [End data enc now_ms])
  = false.
Proof.
  intros U Hs Ht P. unfold miss_path.
  assert (plain_inv (init_world (RealResponse r) ttlsec)) as I0.
  { split; [done|]. split; [cbn; lia|]. split; [done|]. by exists r. }
  pose proof (plain_inv_after_next scope _ Hs (plain_inv_run_ops key handler _ P I0)) as I.
  set (w1 := after_next scope _) in *. destruct I as (St & _ & _ & r1 & R & U1).
  cbn [run_ops fold_left]. rewrite run_op_going by done.
  unfold patched_end. destruct (suppressed (res w1)); [done|].
  unfold node_end. cbn [res emit]. rewrite R.
  destruct U1 as (H & F & D & M & S). rewrite F, D. unfold r_headersSent. rewrite H.
  unfold implicit_header, patched_writeHead. cbn [res emit with_cap with_res].
  destruct (suppressed (RealResponse r1)).
  { cbn. done. }
  unfold forward_writeHead.
  cbn [res emit with_cap with_res write_back_headers writeHead_message headers_after
       writeHead_headers].
  assert (∃ r', node_writeHead (get_statusCode (RealResponse r1)) MUndef (Some (HObj [])) r1
                = Some r') as [r' ->].
  { unfold node_writeHead, r_headersSent. rewrite H. cbn [get_statusCode].
    destruct (Z.ltb_spec (to_int32 (r_statusCode r1)) 100); [lia|].
    destruct (Z.ltb_spec 999 (to_int32 (r_statusCode r1))); [lia|].
    cbn [orb mbind option_bind].
    destruct (nonempty (r_statusMessage r1)); rewrite ?M, ?valid_status_text; by eexists. }
  done.
Qed.

(** ** ResponseCapture on the client's response *)

Lemma node_end_chunks data w : chunks (cap (node_end data w)) = chunks (cap w).
Proof.
  unfold node_end. destruct (res w) as [r|t sh]; [|done].
  destruct (r_finished r); [by destruct (chunk_truthy data)|].
  destruct (r_destroyed r); [done|].
  destruct (r_headersSent r).
  - by destruct (res w).
  - destruct (implicit_header_frame w) as [_ <-].
    by destruct (res (implicit_header w)).
Qed.

(** Every chunk that is written is captured, on any response. *)
Lemma chunks_run_op key w op :
  stopped w = false →
  chunks (cap (run_op key w op)) = chunks (cap w) ++ body_writes [op].
Proof.
  intros St. rewrite run_op_going by done.
  destruct op as [a | m | st | m | k v | st m h | chunk enc | data enc now_ms];
    cbn [body_writes omap]; rewrite ?app_nil_r; try done.
  - by destruct (try_res_frame (setHeader k v) w) as [_ ->].
  - apply patched_writeHead_frame.
  - apply patched_write_frame.
  - unfold patched_end. destruct (suppressed (res w)).
    + cbn. by destruct data; rewrite ?app_nil_r.
    + rewrite node_end_chunks. cbn. by destruct data; rewrite ?app_nil_r.
Qed.

Lemma chunks_run_ops key ops w :
  stopped (run_ops key ops w) = false →
  chunks (cap (run_ops key ops w)) = chunks (cap w) ++ body_writes ops.
Proof.
  revert w. induction ops as [|op ops IH]; intros w St.
  - cbn. by rewrite app_nil_r.
  - rewrite run_ops_cons in *. rewrite IH by done.
    rewrite chunks_run_op by (by eapply run_op_was_going, run_ops_going).
    change (op :: ops) with ([op] ++ ops). by rewrite body_writes_app, app_assoc.
Qed.

Lemma chunks_miss_path scope key ttlsec r handler respond :
  stopped (miss_path scope key ttlsec r handler respond) = false →
  chunks (cap (miss_path scope key ttlsec r handler respond))
  = body_writes (handler ++ respond).
Proof.
  unfold miss_path. intros St. rewrite chunks_run_ops by done.
  pose proof (run_ops_going _ _ _ St) as Sta.
  destruct (after_next_frame _ _ Sta) as (_ & _ & -> & _).
  rewrite chunks_run_ops by (by eapply after_next_going).
  by rewrite body_writes_app.
Qed.








(** X4: when the guard of lines 224, 232 and 247 holds (the [writable]
    property of the response is false, or the response is the proxy of a
    recache task), no call reaches the original response methods,
    whatever the handler does, and every chunk is captured; when the
    response is ended after the handler has returned, and not before, and
    the final status is in [200,500), the entry is written with the whole
    body. *)
Theorem suppressed_writes_are_captured (scope key : string) (ttlsec : Z) (r : Response)
    (handler respond : list HandlerOp) (data : option Chunk) (enc : option string)
    (now_ms : Z) :
  suppressed r = true →
  forallb (fun op => negb (is_end op)) (handler ++ respond) = true →
  let ops := handler ++ respond ++ [End data enc now_ms] in
  let w := miss_path scope key ttlsec r handler (respond ++ [End data enc now_ms]) in
  stopped w = false →
  forwarded (trace w) = []
  ∧ chunks (cap w) = body_writes ops
  ∧ (200 ≤ finalStatus (cap w) < 500 →
     ∃ e, cache_sets (trace w)
          = [(key, e, ctx_maxage (cacheCtx w) - ctx_age (cacheCtx w))]
          ∧ e_body e = String.concat "" (body_writes ops)).
Proof.
  intros Su H ops w St.
  assert (chunks (cap w) = body_writes ops) as C by (by apply chunks_miss_path).
  split; [|split; [done|]].
  - unfold w, miss_path in *.
    pose proof (run_ops_going _ _ _ St) as Sta.
    destruct (suppressed_run key (respond ++ [End data enc now_ms])
                (after_next scope (run_ops key handler (init_world r ttlsec))))
      as [-> _]; [by rewrite suppressed_after_next, suppressed_run_ops|done|].
    destruct (after_next_frame _ _ Sta) as (_ & _ & _ & _ & ->).
    destruct (suppressed_run key handler (init_world r ttlsec)) as [-> _];
      [done|by eapply after_next_going|done].
  - intros Hst.
    destruct (miss_path_end scope key ttlsec r handler respond data enc now_ms H St)
      as (_ & _ & Cw & CC & S).
    fold w in Cw, CC, S. rewrite S, cache_sets_onFinish, <- Cw, <- CC.
    assert ((finalStatus (cap w) >=? 200) && (finalStatus (cap w) <? 500) = true) as ->.
    { apply andb_true_iff. split; [apply Z.geb_le|apply Z.ltb_lt]; lia. }
    eexists. split; [reflexivity|]. cbn. by rewrite C.
Qed.

Lemma suppressed_writes_are_captured_witness :
  forwarded (trace (miss_path "" "k" 60 (ShadowResponse fresh_res fresh_shadow)
                      [SetStatus 200; Write (ChunkStr "ab") None]
                      ([] ++ [End (Some (ChunkStr "c")) None 100000]))) = []
  ∧ chunks (cap (miss_path "" "k" 60 (ShadowResponse fresh_res fresh_shadow)
                   [SetStatus 200; Write (ChunkStr "ab") None]
                   ([] ++ [End (Some (ChunkStr "c")) None 100000]))) = ["ab"; "c"]
  ∧ ∃ e, cache_sets (trace (miss_path "" "k" 60 (ShadowResponse fresh_res fresh_shadow)
                              [SetStatus 200; Write (ChunkStr "ab") None]
                              ([] ++ [End (Some (ChunkStr "c")) None 100000])))
         = [("k", e, 60 - 0)]
         ∧ e_body e = "abc".
Proof.
  destruct (suppressed_writes_are_captured "" "k" 60
              (ShadowResponse fresh_res fresh_shadow)
              [SetStatus 200; Write (ChunkStr "ab") None] []
              (Some (ChunkStr "c")) None 100000 eq_refl eq_refl eq_refl)
    as (F & C & E).
  split; [exact F|]. split; [exact C|].
  apply E. vm_compute. split; [discriminate|reflexivity].
Defined.

(** ** From the write-through to the next hit *)



(** ** Headers given to [writeHead] *)

Lemma merge_header_array_pair k v rest hs :
  merge_header_array (Some k :: v :: rest) hs
  = merge_header_array rest (if nonempty k then <[k := str_or_empty v]> hs else hs).
Proof. reflexivity. Qed.

Lemma merge_header_array_flatten (l : list (string * option string)) hs :
  Forall (fun kv => nonempty (fst kv) = true) l →
  merge_header_array (flatten_pairs l) hs = merge_header_object l hs.
Proof.
  intros Hl. revert hs. induction Hl as [|[k v] l Hk _ IH]; intros hs; [done|].
  cbn [flatten_pairs flat_map app fst snd] in *.
  rewrite merge_header_array_pair, Hk. apply IH.
Qed.

Lemma merge_header_array_odd (l : list (string * option string)) hs k :
  Forall (fun kv => nonempty (fst kv) = true) l → nonempty k = true →
  merge_header_array (flatten_pairs l ++ [Some k]) hs = <[k := ""]> (merge_header_object l hs).
Proof.
  intros Hl Hk. revert hs. induction Hl as [|[k' v] l Hk' _ IH]; intros hs.
  - cbn. by rewrite Hk.
  - cbn [flatten_pairs flat_map app fst snd] in *.
    rewrite merge_header_array_pair, Hk'. apply IH.
Qed.

Lemma trace_forward_writeHead st m h w :
  trace (forward_writeHead st m h w) = trace w ++ [Forward (CallWriteHead st m (Some h))].
Proof.
  unfold forward_writeHead. destruct (res w) as [r|t sh]; [|done].
  by destruct (node_writeHead st m (Some h) r).
Qed.

(** X7: the two ways of handing headers to [writeHead] are captured
    alike: a flat array [[k1, v1, k2, v2, ...]] whose names are not empty
    leaves the same header table in [setHeaders] and, when the call
    returns, the same captured status, message, content type, length and
    encoding as the object with these properties; a name at the end of
    an array of odd length is recorded with the empty value. Behind the
    guard of line 224 the two calls leave the same state altogether. On
    a writable response they do not: the object reaches the original
    [writeHead] with its properties, the array reaches it emptied by the
    [shift] calls of lines 207-208. *)
Theorem header_array_matches_object (l : list (string * option string)) :
  Forall (fun kv => nonempty (fst kv) = true) l →
  (∀ hs, merge_header_array (flatten_pairs l) hs = merge_header_object l hs)
  ∧ (∀ hs k, nonempty k = true →
       merge_header_array (flatten_pairs l ++ [Some k]) hs
       = <[k := ""]> (merge_header_object l hs))
  ∧ (∀ st s w,
       cap (patched_writeHead st (MStr s) (Some (HArr (flatten_pairs l))) w)
       = cap (patched_writeHead st (MStr s) (Some (HObj l)) w)
       ∧ (suppressed (res w) = true →
          patched_writeHead st (MStr s) (Some (HArr (flatten_pairs l))) w
          = patched_writeHead st (MStr s) (Some (HObj l)) w)
       ∧ (suppressed (res w) = false →
          trace (patched_writeHead st (MStr s) (Some (HArr (flatten_pairs l))) w)
          = trace w ++ [Forward (CallWriteHead st (MStr s) (Some (HArr [])))]
          ∧ trace (patched_writeHead st (MStr s) (Some (HObj l)) w)
            = trace w ++ [Forward (CallWriteHead st (MStr s) (Some (HObj l)))])).
Proof.
  intros Hl. split; [|split].
  - intros hs. by apply merge_header_array_flatten.
  - intros hs k Hk. by apply merge_header_array_odd.
  - intros st s w. split; [|split].
    + unfold patched_writeHead. destruct (suppressed (res w)).
      * cbn. by rewrite merge_header_array_flatten.
      * do 2 match goal with |- context [forward_writeHead ?a ?b ?c ?d] =>
          destruct (forward_writeHead_frame a b c d) as [_ ->] end.
        cbn. by rewrite merge_header_array_flatten.
    + intros Su. unfold patched_writeHead. rewrite Su. cbn.
      by rewrite merge_header_array_flatten.
    + intros Su. unfold patched_writeHead. rewrite Su.
      by rewrite !trace_forward_writeHead.
Qed.

Lemma header_array_matches_object_witness :
  merge_header_array
    (flatten_pairs [("content-type", Some "text/plain"); ("x-a", None)]) ∅
  = merge_header_object [("content-type", Some "text/plain"); ("x-a", None)] ∅.
Proof.
  apply (proj1 (header_array_matches_object
                  [("content-type", Some "text/plain"); ("x-a", None)]
                  ltac:(repeat constructor))).
Defined.
(** ** The language override *)

Lemma strip_lang_insert q1 v q2 :
  strip_lang (q1 ++ ("lang_ID", v) :: q2) = strip_lang (q1 ++ q2).
Proof.
  unfold strip_lang. rewrite !filter_app, filter_cons.
  by destruct (decide _) as [N|_]; [destruct N|].
Qed.

(** X8: the [lang_ID] parameter never reaches the key: a request gets the
    same key with the parameter, wherever it stands in the query and
    whatever it holds (a string or an array), as without it. *)
Theorem lang_ID_never_in_key (c : Ctx) (q1 q2 : list (string * qvalue)) (v : qvalue) :
  cache_key (with_query (q1 ++ ("lang_ID", v) :: q2) c)
  = cache_key (with_query (q1 ++ q2) c).
Proof.
  unfold cache_key, cachekeys, with_query. simpl. by rewrite strip_lang_insert.
Qed.

(** ** Registrations and promises *)

Lemma pending_inv_init : pending_inv init_state.
Proof.
  repeat split; simpl; intros; try done.
  by apply elem_of_nil in H.
Qed.

(** Moving a request that is not registered to another program point. *)
Lemma pending_inv_move (s : State) (id : nat) (t : Task) (p : pc) :
  pending_inv s → tasks s !! id = Some t →
  (past_registration (t_pc t) = true → past_registration p = true) →
  pending_inv (set_task id (at_pc p t) s).
Proof.
  intros (A & B & C & D) Ht Hp. split; [|split; [|split]]; simpl.
  - intros k q Hk. destruct (A k q Hk) as (tq & Hq & Ha & Hc).
    destruct (decide (id = q)) as [->|Hne].
    + rewrite lookup_insert_eq. exists (at_pc p t). by simplify_eq.
    + rewrite lookup_insert_ne by done. eauto.
  - intros i ti Hi Ha. destruct (decide (id = i)) as [->|Hne].
    + rewrite lookup_insert_eq in Hi. simplify_eq. simpl in *.
      destruct (B i t Ht Ha) as [Hpast Hs]. auto.
    + rewrite lookup_insert_ne in Hi by done. eauto.
  - intros i r Hi. destruct (C i r Hi) as (-> & ti & Hti & Hpast & Ha).
    split; [done|]. destruct (decide (id = i)) as [->|Hne].
    + rewrite lookup_insert_eq. exists (at_pc p t). simplify_eq. auto.
    + rewrite lookup_insert_ne by done. eauto.
  - exact D.
Qed.

Lemma pending_inv_side (s s' : State) :
  pending_inv s →
  PendingRequest s' = PendingRequest s → tasks s' = tasks s →
  settled s' = settled s →
  (∀ line, line ∈ console s' → line ∈ console s ∨ line.1 ≠ "cache pending error") →
  pending_inv s'.
Proof.
  intros (A & B & C & D) HP HT HS HC. unfold pending_inv. rewrite HP, HT, HS.
  split; [done|]. split; [done|]. split; [done|].
  intros line Hl. destruct (HC line Hl) as [H|H]; [by apply D|done].
Qed.

Lemma arrive_pending_inv id ctx s s' :
  arrive id ctx s = Some s' → pending_inv s → pending_inv s'.
Proof.
  unfold arrive. destruct (tasks s !! id) eqn:Hfresh; [done|].
  intros [= <-] (A & B & C & D). split; [|split; [|split]]; simpl.
  - intros k q Hk. destruct (A k q Hk) as (tq & Hq & Ha & Hc).
    rewrite lookup_insert_ne by congruence. eauto.
  - intros i ti Hi Ha. destruct (decide (id = i)) as [->|Hne].
    + rewrite lookup_insert_eq in Hi. by simplify_eq.
    + rewrite lookup_insert_ne in Hi by done. eauto.
  - intros i r Hi. destruct (C i r Hi) as (-> & ti & Hti & Hpast & Ha).
    split; [done|]. rewrite lookup_insert_ne by congruence. eauto.
  - exact D.
Qed.

(** Every step keeps the invariant of the registrations. *)
Lemma step_pending_inv s e s' : step s e = Some s' → pending_inv s → pending_inv s'.
Proof.
  intros Hstep I. destruct e as [id ctx|id|id cached now_ms|id r|id|id replay|id res].
  - by eapply arrive_pending_inv.
  - simpl in Hstep. destruct (tasks s !! id) as [t|] eqn:Ht; [|done]. simpl in Hstep.
    destruct (t_pc t) as [|p| | | |] eqn:Hpc; try done.
    destruct (settled s !! p) as [r|] eqn:Hr; [|done]. simpl in Hstep.
    pose proof I as (A & B & C & D). destruct (C p r Hr) as (-> & _).
    simpl in Hstep. injection Hstep as <-.
    apply (pending_inv_move _ id t (AwaitGet true)).
    + apply (pending_inv_side s); try done.
      simpl. intros line. rewrite app_nil_r. auto.
    + done.
    + by rewrite Hpc.
  - simpl in Hstep. destruct (tasks s !! id) as [t|] eqn:Ht; [|done]. simpl in Hstep.
    destruct (t_pc t) as [| |waited| | |] eqn:Hpc; try done.
    destruct (tryRespondWithCache _ _ _ _) as [[ended calls]|].
    + assert (pending_inv (set_task id (at_pc Returned t) (add_served id calls s))) as I'.
      { apply (pending_inv_move _ id t Returned); [|done|done].
        apply (pending_inv_side s); try done. simpl. auto. }
      destruct waited; injection Hstep as <-; [exact I'|].
      unfold after_hit.
      destruct (PendingRecache _ !! _); [exact I'|].
      destruct (recacheable ended); [|exact I'].
      apply (pending_inv_side _ _ I'); try done. simpl. auto.
    + injection Hstep as <-. unfold after_miss.
      destruct (no_max_age _).
      * pose proof I as (A & B & C & D). split; [|split; [|split]]; simpl.
        -- intros k q Hk. destruct (decide (cache_key (t_ctx t) = k)) as [<-|Hne].
           ++ rewrite lookup_insert_eq in Hk. simplify_eq.
              rewrite lookup_insert_eq. eauto.
           ++ rewrite lookup_insert_ne in Hk by done.
              destruct (A k q Hk) as (tq & Hq & Ha & Hc).
              destruct (decide (id = q)) as [->|Hq'].
              ** simplify_eq.
              ** rewrite lookup_insert_ne by done. eauto.
        -- intros i ti Hi Ha. destruct (decide (id = i)) as [->|Hne].
           ++ rewrite lookup_insert_eq in Hi. simplify_eq. simpl. split; [done|].
              destruct (settled s !! i) as [r|] eqn:Hr; [|done].
              destruct (C i r Hr) as (_ & ti & Hti & Hpast & _).
              simplify_eq. by rewrite Hpc in Hpast.
           ++ rewrite lookup_insert_ne in Hi by done. eauto.
        -- intros i r Hi. destruct (C i r Hi) as (-> & ti & Hti & Hpast & Ha).
           split; [done|]. destruct (decide (id = i)) as [->|Hne].
           ++ simplify_eq. by rewrite Hpc in Hpast.
           ++ rewrite lookup_insert_ne by done. eauto.
        -- exact D.
      * apply (pending_inv_move _ id t InHandler); done.
  - simpl in Hstep. destruct (tasks s !! id) as [t|] eqn:Ht; [|done]. simpl in Hstep.
    destruct (t_pc t) eqn:Hpc; try done. injection Hstep as <-.
    apply pending_inv_move; [done|done|]. by destruct r.
  - simpl in Hstep. destruct (tasks s !! id) as [t|] eqn:Ht; [|done]. simpl in Hstep.
    assert (past_registration (t_pc t) = true) as Hpast by (by destruct (t_pc t)).
    assert (on_finish id t s = s') as <- by (by destruct (t_pc t); simplify_eq).
    clear Hstep. unfold on_finish. destruct (t_armed t) eqn:Harm; [|exact I].
    pose proof I as (A & B & C & D). split; [|split; [|split]]; simpl.
    + intros k q Hk. destruct (decide (cache_key (t_ctx t) = k)) as [<-|Hne].
      * by rewrite lookup_delete_eq in Hk.
      * rewrite lookup_delete_ne in Hk by done.
        destruct (A k q Hk) as (tq & Hq & Ha & Hc).
        destruct (decide (id = q)) as [->|Hq'].
        -- simplify_eq.
        -- rewrite lookup_insert_ne by done. eauto.
    + intros i ti Hi Ha. destruct (decide (id = i)) as [->|Hne].
      * rewrite lookup_insert_eq in Hi. by simplify_eq.
      * rewrite lookup_insert_ne in Hi by done. rewrite lookup_insert_ne by done. eauto.
    + intros i r Hi. destruct (decide (id = i)) as [->|Hne].
      * rewrite lookup_insert_eq in Hi. simplify_eq. split; [done|].
        rewrite lookup_insert_eq. eauto.
      * rewrite lookup_insert_ne in Hi by done.
        destruct (C i r Hi) as (-> & ti & Hti & Hp & Ha).
        split; [done|]. rewrite lookup_insert_ne by done. eauto.
    + exact D.
  - simpl in Hstep. destruct (find_refresh id RWaitClose s) as [r|]; [|done].
    simpl in Hstep. eapply arrive_pending_inv; [done|].
    apply (pending_inv_side s); try done. simpl. auto.
  - simpl in Hstep. destruct (find_refresh id RReplay s) as [r|]; [|done].
    simpl in Hstep. injection Hstep as <-.
    apply (pending_inv_side s); try done. simpl. intros line Hl.
    apply elem_of_app in Hl as [Hl|Hl]; [by left|right].
    unfold replay_lines in Hl. destruct res as [st|e].
    + destruct (_ && _); [by apply elem_of_nil in Hl|].
      apply list_elem_of_singleton in Hl. by subst.
    + apply list_elem_of_singleton in Hl. by subst.
Qed.

Lemma run_pending_inv es s s' : run s es = Some s' → pending_inv s → pending_inv s'.
Proof.
  revert s. induction es as [|e es IH]; intros s Hrun I.
  - by injection Hrun as <-.
  - simpl in Hrun. destruct (step s e) as [s1|] eqn:Hs; [|done].
    simpl in Hrun. eapply IH; [done|]. by eapply step_pending_inv.
Qed.

(** X9: in every reachable state a registration in [PendingRequest] names
    a request of that key that has registered, whose ['finish'] listener
    still waits and whose promise has not settled; a settled promise is
    fulfilled, never rejected, and no registration names its request any
    more; and the console never receives the line of line 87. *)
Theorem registrations_are_live (s : State) :
  reachable s →
  (∀ k p, PendingRequest s !! k = Some p →
          ∃ t, tasks s !! p = Some t ∧ cache_key (t_ctx t) = k
               ∧ t_armed t = true ∧ past_registration (t_pc t) = true
               ∧ settled s !! p = None)
  ∧ (∀ p r, settled s !! p = Some r →
            r = Fulfilled ∧ ∀ k, PendingRequest s !! k ≠ Some p)
  ∧ (∀ line, line ∈ console s → line.1 ≠ "cache pending error").
Proof.
  intros [es Hrun].
  destruct (run_pending_inv es init_state s Hrun pending_inv_init) as (A & B & C & D).
  split; [|split; [|exact D]].
  - intros k p Hk. destruct (A k p Hk) as (t & Ht & Ha & Hc).
    destruct (B p t Ht Ha) as [Hp Hs]. eauto 10.
  - intros p r Hr. destruct (C p r Hr) as (-> & t & Ht & Hp & Ha).
    split; [done|]. intros k Hk. destruct (A k p Hk) as (t' & Ht' & Ha' & _).
    simplify_eq. congruence.
Qed.

Lemma registrations_are_live_witness :
  reachable one_in_flight
  ∧ ∃ t, tasks one_in_flight !! 1%nat = Some t
         ∧ cache_key (t_ctx t) = cache_key demo_ctx
         ∧ t_armed t = true ∧ past_registration (t_pc t) = true
         ∧ settled one_in_flight !! 1%nat = None.
Proof.
  assert (reachable one_in_flight) as R.
  { exists [Arrive 1 demo_ctx; GetReturned 1 None 0]. vm_compute. reflexivity. }
  split; [exact R|].
  apply (proj1 (registrations_are_live one_in_flight R) (cache_key demo_ctx) 1%nat).
  vm_compute. reflexivity.
Defined.

(** ** Requests that are not GET *)

(** X10: a request with another method than GET passes through: on
    arrival nothing is registered, read, served or logged, and none of
    the steps of [cache] is ever taken for it. *)
Theorem non_get_bypasses_cache (s : State) (id : nat) (ctx : Ctx) :
  tasks s !! id = None → method ctx ≠ "GET" →
  let bypassed := {| t_ctx := ctx; t_pc := Bypassed; t_armed := false |} in
  ∃ s', step s (Arrive id ctx) = Some s'
        ∧ tasks s' !! id = Some bypassed
        ∧ PendingRequest s' = PendingRequest s
        ∧ PendingRecache s' = PendingRecache s
        ∧ refreshes s' = refreshes s
        ∧ served s' = served s
        ∧ settled s' = settled s
        ∧ console s' = console s
        ∧ ∀ s2 e, tasks s2 !! id = Some bypassed → own_event id e = true →
                  step s2 e = None.
Proof.
  intros Hfresh Hm bypassed. unfold step, arrive.
  rewrite Hfresh, bool_decide_eq_false_2 by done.
  eexists. split; [reflexivity|]. simpl. rewrite lookup_insert_eq.
  repeat (split; [done|]).
  intros s2 e Ht He.
  destruct e as [i c|i|i cached now_ms|i r|i|i replay|i res]; try discriminate;
    apply bool_decide_eq_true in He as ->; simpl; by rewrite Ht.
Qed.

Lemma non_get_bypasses_cache_witness :
  ∃ s', step one_in_flight (Arrive 2 post_ctx) = Some s'
        ∧ tasks s' !! 2%nat
          = Some {| t_ctx := post_ctx; t_pc := Bypassed; t_armed := false |}
        ∧ PendingRequest s' = PendingRequest one_in_flight.
Proof.
  destruct (non_get_bypasses_cache one_in_flight 2 post_ctx eq_refl)
    as (s' & H1 & H2 & H3 & _); [discriminate|].
  exists s'. auto.
Defined.

(** ** Releasing the slot *)

(** X11: once a request has registered, its ['finish'] signal releases
    the slot wherever the request is - still in the handler, returned, or
    failed: the entry of its key is removed from [PendingRequest]
    (whichever request put it there), its promise is fulfilled, and every
    request that waits for that promise can go on to read the cache. A
    second ['finish'] changes nothing. *)
Theorem finish_releases_once (s : State) (id : nat) (t : Task) :
  tasks s !! id = Some t → t_armed t = true → past_registration (t_pc t) = true →
  ∃ s1, step s (Finish id) = Some s1
        ∧ PendingRequest s1 = delete (cache_key (t_ctx t)) (PendingRequest s)
        ∧ settled s1 !! id = Some Fulfilled
        ∧ tasks s1 !! id = Some {| t_ctx := t_ctx t; t_pc := t_pc t; t_armed := false |}
        ∧ step s1 (Finish id) = Some s1
        ∧ ∀ w tw, tasks s1 !! w = Some tw → t_pc tw = AwaitPending id →
                  ∃ s2, step s1 (PendingSettled w) = Some s2
                        ∧ tasks s2 !! w = Some (at_pc (AwaitGet true) tw)
                        ∧ console s2 = console s1.
Proof.
  intros Ht Ha Hp.
  assert (step s (Finish id) = Some (on_finish id t s)) as E.
  { simpl. rewrite Ht. simpl. by destruct (t_pc t). }
  exists (on_finish id t s). split; [exact E|].
  unfold on_finish. rewrite Ha. simpl. rewrite !lookup_insert_eq.
  split; [done|]. split; [done|]. split; [done|]. split.
  - rewrite ?lookup_insert_eq. simpl. by destruct (t_pc t).
  - intros w tw Hw Hpc. rewrite Hw. simpl. rewrite Hpc. rewrite ?lookup_insert_eq. simpl.
    eexists. split; [reflexivity|]. simpl. rewrite ?lookup_insert_eq, ?app_nil_r. done.
Qed.

Lemma finish_releases_once_witness :
  ∃ s1, step one_in_flight (Finish 1) = Some s1
        ∧ PendingRequest s1
          = delete (cache_key demo_ctx) (PendingRequest one_in_flight)
        ∧ settled s1 !! 1%nat = Some Fulfilled.
Proof.
  destruct (finish_releases_once one_in_flight 1
              {| t_ctx := demo_ctx; t_pc := InHandler; t_armed := true |}
              eq_refl eq_refl eq_refl) as (s1 & H1 & H2 & H3 & _).
  exists s1. auto.
Defined.

(** ** Responses served from the cache *)

Lemma served_inv_init : served_inv init_state.
Proof.
  split; simpl; [constructor|]. intros id H. by apply elem_of_nil in H.
Qed.

(** A step that serves nothing and leaves returned requests as they are
    keeps the invariant. *)
Lemma served_inv_keep (s s' : State) :
  served_inv s → served s' = served s →
  (∀ id t, tasks s !! id = Some t → t_pc t = Returned → t_armed t = false →
           ∃ t', tasks s' !! id = Some t' ∧ t_pc t' = Returned ∧ t_armed t' = false) →
  served_inv s'.
Proof.
  intros [N A] Hs Ht. unfold served_inv. rewrite Hs. split; [done|].
  intros id Hid. destruct (A id Hid) as (t & H1 & H2 & H3). eauto.
Qed.

Lemma set_task_keeps_returned (s : State) (id : nat) (t t' : Task) :
  tasks s !! id = Some t → (t_pc t = Returned → t_pc t' = Returned ∧ t_armed t' = t_armed t) →
  ∀ i ti, tasks s !! i = Some ti → t_pc ti = Returned → t_armed ti = false →
          ∃ t2, tasks (set_task id t' s) !! i = Some t2 ∧ t_pc t2 = Returned
                ∧ t_armed t2 = false.
Proof.
  intros Ht Hk i ti Hi Hpc Ha. simpl. destruct (decide (id = i)) as [->|Hne].
  - rewrite lookup_insert_eq. simplify_eq. destruct (Hk Hpc) as [? ?].
    eexists. split; [done|]. split; [done|]. congruence.
  - rewrite lookup_insert_ne by done. eauto.
Qed.

Lemma arrive_served_inv id ctx s s' :
  arrive id ctx s = Some s' → served_inv s → served_inv s'.
Proof.
  unfold arrive. destruct (tasks s !! id) eqn:Hfresh; [done|].
  intros [= <-] I. apply (served_inv_keep s); [done|done|].
  intros i ti Hi Hpc Ha. simpl. rewrite lookup_insert_ne by congruence. eauto.
Qed.

Lemma step_served_inv s e s' :
  step s e = Some s' → pending_inv s → served_inv s → served_inv s'.
Proof.
  intros Hstep (_ & B & _) I. destruct e as [id ctx|id|id cached now_ms|id r|id|id replay|id res].
  - by eapply arrive_served_inv.
  - simpl in Hstep. destruct (tasks s !! id) as [t|] eqn:Ht; [|done]. simpl in Hstep.
    destruct (t_pc t) as [|p| | | |] eqn:Hpc; try done.
    destruct (settled s !! p) as [r|]; [|done]. simpl in Hstep.
    destruct (promise_catch _ r) as [lines r']. injection Hstep as <-.
    apply (served_inv_keep s); [done|done|].
    apply (set_task_keeps_returned (add_console lines s) id t); [done|congruence].
  - simpl in Hstep. destruct (tasks s !! id) as [t|] eqn:Ht; [|done]. simpl in Hstep.
    destruct (t_pc t) as [| |waited| | |] eqn:Hpc; try done.
    destruct (tryRespondWithCache _ _ _ _) as [[ended calls]|].
    + assert (served_inv (set_task id (at_pc Returned t) (add_served id calls s))) as I'.
      { destruct I as [N A]. split; simpl.
        - rewrite fmap_app. simpl. apply NoDup_app. split; [done|]. split.
          + intros i Hi Hi'. apply list_elem_of_singleton in Hi'. subst i.
            destruct (A id Hi) as (t0 & H1 & H2 & _). simplify_eq. congruence.
          + apply NoDup_singleton.
        - intros i Hi. rewrite fmap_app in Hi. simpl in Hi.
          apply elem_of_app in Hi as [Hi|Hi].
          + destruct (A i Hi) as (ti & H1 & H2 & H3).
            destruct (decide (id = i)) as [->|Hne]; [simplify_eq; congruence|].
            rewrite lookup_insert_ne by done. eauto.
          + apply list_elem_of_singleton in Hi. subst i. rewrite lookup_insert_eq.
            eexists. split; [done|]. split; [done|]. simpl.
            destruct (t_armed t) eqn:Ha; [|done].
            destruct (B id t Ht Ha) as [Hpast _]. by rewrite Hpc in Hpast. }
      destruct waited; injection Hstep as <-; [exact I'|].
      unfold after_hit.
      destruct (PendingRecache _ !! _); [exact I'|].
      destruct (recacheable ended); [|exact I'].
      apply (served_inv_keep _ _ I'); [done|]. simpl. eauto.
    + injection Hstep as <-. unfold after_miss.
      destruct (no_max_age _); (apply (served_inv_keep s); [done|done|]).
      * intros i ti Hi Hpc' Ha. simpl.
        destruct (decide (id = i)) as [->|Hne]; [simplify_eq; congruence|].
        rewrite lookup_insert_ne by done. eauto.
      * apply (set_task_keeps_returned s id t); [done|congruence].
  - simpl in Hstep. destruct (tasks s !! id) as [t|] eqn:Ht; [|done]. simpl in Hstep.
    destruct (t_pc t) eqn:Hpc; try done. injection Hstep as <-.
    apply (served_inv_keep s); [done|done|].
    apply (set_task_keeps_returned s id t); [done|congruence].
  - simpl in Hstep. destruct (tasks s !! id) as [t|] eqn:Ht; [|done]. simpl in Hstep.
    assert (on_finish id t s = s') as <- by (by destruct (t_pc t); simplify_eq).
    unfold on_finish. destruct (t_armed t) eqn:Harm; [|exact I].
    apply (served_inv_keep s); [done|done|].
    intros i ti Hi Hpc' Ha. simpl.
    destruct (decide (id = i)) as [->|Hne]; [simplify_eq; congruence|].
    rewrite lookup_insert_ne by done. eauto.
  - simpl in Hstep. destruct (find_refresh id RWaitClose s) as [r|]; [|done].
    simpl in Hstep. eapply arrive_served_inv; [done|].
    apply (served_inv_keep s); [done|done|]. simpl. eauto.
  - simpl in Hstep. destruct (find_refresh id RReplay s) as [r|]; [|done].
    simpl in Hstep. injection Hstep as <-.
    apply (served_inv_keep s); [done|done|]. simpl. eauto.
Qed.

Lemma run_served_inv es s s' :
  run s es = Some s' → pending_inv s → served_inv s → served_inv s'.
Proof.
  revert s. induction es as [|e es IH]; intros s Hrun P I.
  - by injection Hrun as <-.
  - simpl in Hrun. destruct (step s e) as [s1|] eqn:Hs; [|done].
    simpl in Hrun. eapply IH; [done| |].
    + by eapply step_pending_inv.
    + by eapply step_served_inv.
Qed.

(** X12: in every reachable state no request has been served from the
    cache twice, and a request that was served has returned from [cache]
    without registering a pending origin call; it is not in the origin
    handler for any key. *)
Theorem served_requests_skip_the_handler (s : State) :
  reachable s →
  NoDup (served s).*1
  ∧ ∀ id calls, (id, calls) ∈ served s →
      (∃ t, tasks s !! id = Some t ∧ t_pc t = Returned ∧ t_armed t = false)
      ∧ (∀ key, in_handler key s !! id = None)
      ∧ (∀ key, PendingRequest s !! key ≠ Some id).
Proof.
  intros [es Hrun].
  pose proof (run_pending_inv es init_state s Hrun pending_inv_init) as (A & _).
  destruct (run_served_inv es init_state s Hrun pending_inv_init served_inv_init)
    as [N S].
  split; [exact N|]. intros id calls Hin.
  assert (id ∈ (served s).*1) as Hid.
  { apply list_elem_of_fmap. by exists (id, calls). }
  destruct (S id Hid) as (t & Ht & Hpc & Ha). split; [eauto|]. split.
  - intros key. unfold in_handler. apply map_lookup_filter_None. right.
    intros t' Ht' [Hpc' _]. simpl in *. simplify_eq. congruence.
  - intros key Hk. destruct (A key id Hk) as (t' & Ht' & Ha' & _).
    simplify_eq. congruence.
Qed.

Lemma served_requests_skip_the_handler_witness :
  reachable replaying_state ∧ NoDup (served replaying_state).*1.
Proof.
  assert (reachable replaying_state) as R.
  { exists replay_events. vm_compute. reflexivity. }
  split; [exact R|]. exact (proj1 (served_requests_skip_the_handler replaying_state R)).
Defined.

(** ** The negotiated encoding *)

Lemma prefix_append (p b : string) : String.prefix p (p +:+ b) = true.
Proof.
  induction p as [|c p IH]; [apply prefix_nil|].
  by rewrite append_cons, prefix_cons_same.
Qed.

(** A pattern is found wherever it stands. *)
Lemma matches_anywhere (pat a b : string) : matches pat (a +:+ pat +:+ b) = true.
Proof.
  induction a as [|c a IH].
  - rewrite append_empty, matches_unfold, prefix_append. done.
  - rewrite append_cons, matches_unfold, IH. apply orb_true_r.
Qed.

(** X13: the encoding in the key is [br] for every accept-encoding header
    that holds the letters [br] anywhere, whatever else it lists and
    whatever quality it gives them; without [br], it is [gzip] when
    [gzip] occurs anywhere; without both, [deflate] when that occurs; and
    [identity] exactly when none of the three occurs. *)
Theorem negotiate_by_substring (e : string) :
  (∀ a b, e = a +:+ "br" +:+ b → negotiate e = "br")
  ∧ (∀ a b, matches "br" e = false → e = a +:+ "gzip" +:+ b → negotiate e = "gzip")
  ∧ (∀ a b, matches "br" e = false → matches "gzip" e = false →
            e = a +:+ "deflate" +:+ b → negotiate e = "deflate")
  ∧ (negotiate e = "identity"
     ↔ matches "br" e = false ∧ matches "gzip" e = false
       ∧ matches "deflate" e = false).
Proof.
  unfold negotiate. split; [|split; [|split]].
  - intros a b ->. by rewrite matches_anywhere.
  - intros a b -> ->. by rewrite matches_anywhere.
  - intros a b -> -> ->. by rewrite matches_anywhere.
  - destruct (matches "br" e), (matches "gzip" e), (matches "deflate" e);
      split; try done; intros (? & ? & ?); done.
Qed.

Lemma negotiate_by_substring_witness :
  negotiate ("gzip;q=1.0, " +:+ "br" +:+ ";q=0") = "br".
Proof.
  exact (proj1 (negotiate_by_substring ("gzip;q=1.0, " +:+ "br" +:+ ";q=0"))
           "gzip;q=1.0, " ";q=0" eq_refl).
Defined.


(** ** The status that decides *)













(** ** The headers that go into the entry *)












(** ** The recache registry and its tasks *)

Lemma refresh_inv_init : refresh_inv init_state.
Proof.
  split; [|split]; simpl.
  - intros r H. by apply elem_of_nil in H.
  - intros k id H. done.
  - constructor.
Qed.

(** A step that leaves the registry and the tasks alone and forgets no
    served response keeps the invariant. *)
Lemma refresh_inv_keep (s s' : State) :
  refresh_inv s → PendingRecache s' = PendingRecache s → refreshes s' = refreshes s →
  (∀ id, id ∈ (served s).*1 → id ∈ (served s').*1) →
  refresh_inv s'.
Proof.
  intros (R1 & R2 & R3) HP HR HS. unfold refresh_inv. rewrite HP, HR.
  split; [|done]. intros r Hr. destruct (R1 r Hr) as (? & ? & ? & ?). auto.
Qed.

Lemma arrive_refresh_inv id ctx s s' :
  arrive id ctx s = Some s' → refresh_inv s → refresh_inv s'.
Proof.
  unfold arrive. destruct (tasks s !! id); [done|].
  intros [= <-] I. by apply (refresh_inv_keep s).
Qed.

Lemma at_rpc_map_ids (id : nat) (l : list Refresh) :
  r_id <$> map (fun r' => if bool_decide (r_id r' = id) then at_rpc RReplay r' else r') l
  = r_id <$> l.
Proof.
  induction l as [|r l IH]; [done|]. cbn [map fmap list_fmap]. f_equal; [|exact IH].
  by case_bool_decide.
Qed.

Lemma step_refresh_inv s e s' :
  step s e = Some s' → served_inv s → refresh_inv s → refresh_inv s'.
Proof.
  intros Hstep [_ SA] I.
  destruct e as [id ctx|id|id cached now_ms|id r|id|id replay|id res].
  - by eapply arrive_refresh_inv.
  - simpl in Hstep. destruct (tasks s !! id) as [t|] eqn:Ht; [|done]. simpl in Hstep.
    destruct (t_pc t); try done. destruct (settled s !! p) as [r|]; [|done].
    simpl in Hstep. destruct (promise_catch _ r). injection Hstep as <-.
    by apply (refresh_inv_keep s).
  - simpl in Hstep. destruct (tasks s !! id) as [t|] eqn:Ht; [|done]. simpl in Hstep.
    destruct (t_pc t) as [| |waited| | |] eqn:Hpc; try done.
    destruct (tryRespondWithCache _ _ _ _) as [[ended calls]|].
    + assert (refresh_inv (set_task id (at_pc Returned t) (add_served id calls s))) as I'.
      { apply (refresh_inv_keep s); [done|done|done|].
        intros i Hi. simpl. rewrite fmap_app. apply elem_of_app. by left. }
      destruct waited; injection Hstep as <-; [exact I'|].
      unfold after_hit. simpl.
      destruct (PendingRecache s !! cache_key (t_ctx t)) eqn:HP; [exact I'|].
      destruct (recacheable ended) eqn:Hre; [|exact I'].
      destruct I as (R1 & R2 & R3). split; [|split]; simpl.
      * intros r Hr. apply elem_of_app in Hr as [Hr|Hr].
        -- destruct (R1 r Hr) as (H1 & H2 & H3 & H4).
           rewrite lookup_insert_ne by (intros E; rewrite <- E in H1; congruence).
           split; [done|]. split; [|done]. rewrite fmap_app. apply elem_of_app. by left.
        -- apply list_elem_of_singleton in Hr. subst r. simpl.
           rewrite lookup_insert_eq. split; [done|]. split; [|done].
           rewrite fmap_app. apply elem_of_app. right. simpl. apply list_elem_of_here.
      * intros k i Hk. destruct (decide (cache_key (t_ctx t) = k)) as [<-|Hne].
        -- rewrite lookup_insert_eq in Hk. simplify_eq.
           exists {| r_id := i; r_key := cache_key (t_ctx t); r_ctx := t_ctx t;
                     r_ended := ended; r_pc := RWaitClose |}.
           split; [|done]. apply elem_of_app. right. apply list_elem_of_here.
        -- rewrite lookup_insert_ne in Hk by done.
           destruct (R2 k i Hk) as (r & Hr & ? & ?). exists r. split; [|done].
           apply elem_of_app. by left.
      * rewrite fmap_app. simpl. apply NoDup_app. split; [done|]. split.
        -- intros i Hi Hi'. apply list_elem_of_singleton in Hi'. subst i.
           apply list_elem_of_fmap in Hi as (r & -> & Hr).
           destruct (R1 r Hr) as (_ & Hs & _).
           destruct (SA (r_id r) Hs) as (t0 & H1 & H2 & _). simplify_eq. congruence.
        -- apply NoDup_singleton.
    + injection Hstep as <-. unfold after_miss.
      destruct (no_max_age _); by apply (refresh_inv_keep s).
  - simpl in Hstep. destruct (tasks s !! id) as [t|] eqn:Ht; [|done]. simpl in Hstep.
    destruct (t_pc t); try done. injection Hstep as <-. by apply (refresh_inv_keep s).
  - simpl in Hstep. destruct (tasks s !! id) as [t|] eqn:Ht; [|done]. simpl in Hstep.
    assert (on_finish id t s = s') as <- by (by destruct (t_pc t); simplify_eq).
    unfold on_finish. destruct (t_armed t); [|exact I]. by apply (refresh_inv_keep s).
  - simpl in Hstep. destruct (find_refresh id RWaitClose s) as [r|]; [|done].
    simpl in Hstep. eapply arrive_refresh_inv; [done|].
    destruct I as (R1 & R2 & R3). split; [|split]; simpl.
    + intros r' Hr'. apply list_elem_of_In, in_map_iff in Hr' as (r0 & <- & Hr0).
      apply list_elem_of_In in Hr0.
      destruct (R1 r0 Hr0) as (? & ? & ? & ?). by case_bool_decide.
    + intros k i Hk. destruct (R2 k i Hk) as (r0 & Hr0 & ? & ?).
      exists (if bool_decide (r_id r0 = id) then at_rpc RReplay r0 else r0).
      split; [|by case_bool_decide].
      apply list_elem_of_In, in_map_iff. exists r0. split; [done|].
      by apply list_elem_of_In.
    + exact (eq_ind_r NoDup R3 (at_rpc_map_ids id (refreshes s))).
  - simpl in Hstep. destruct (find_refresh id RReplay s) as [r|] eqn:Hf; [|done].
    simpl in Hstep. injection Hstep as <-.
    apply find_refresh_Some in Hf as (Hin & Hid & _).
    destruct I as (R1 & R2 & R3). destruct (R1 r Hin) as (Hr1 & _).
    assert (∀ r', r' ∈ refreshes s → r_id r' = r_id r → r' = r) as Uniq.
    { intros r' Hr' E. apply list_elem_of_lookup in Hr' as [i Hi].
      apply list_elem_of_lookup in Hin as [j Hj].
      assert (i = j) as ->; [|congruence].
      eapply NoDup_lookup; [exact R3| |]; rewrite list_lookup_fmap.
      - by rewrite Hi.
      - by rewrite Hj, E. }
    split; [|split]; simpl.
    + intros r' Hr'. apply list_elem_of_filter in Hr' as [Hne Hr'].
      destruct (R1 r' Hr') as (H1 & H2 & H3 & H4).
      rewrite lookup_delete_ne; [done|].
      intros E. rewrite E in Hr1. rewrite Hr1 in H1. injection H1 as H1.
      apply Hne. congruence.
    + intros k i Hk. destruct (decide (r_key r = k)) as [<-|Hne].
      { by rewrite lookup_delete_eq in Hk. }
      rewrite lookup_delete_ne in Hk by done.
      destruct (R2 k i Hk) as (r' & Hr' & Hk' & Hi').
      exists r'. split; [|done]. apply list_elem_of_filter. split; [|done].
      intros E. apply Hne. rewrite <- Hk'. f_equal. symmetry. apply Uniq; [done|congruence].
    + apply NoDup_fmap_2_strong; [|apply NoDup_filter].
      * intros x y Hx Hy E. apply list_elem_of_filter in Hx as [_ Hx], Hy as [_ Hy].
        apply list_elem_of_lookup in Hx as [i Hi]. apply list_elem_of_lookup in Hy as [j Hj].
        assert (i = j) as ->; [|congruence].
        eapply NoDup_lookup; [exact R3| |]; rewrite list_lookup_fmap.
        -- by rewrite Hi.
        -- by rewrite Hj, E.
      * eapply NoDup_fmap_1. exact R3.
Qed.

Lemma run_refresh_inv es s s' :
  run s es = Some s' → pending_inv s → served_inv s → refresh_inv s → refresh_inv s'.
Proof.
  revert s. induction es as [|e es IH]; intros s Hrun P S I.
  - by injection Hrun as <-.
  - simpl in Hrun. destruct (step s e) as [s1|] eqn:Hs; [|done].
    simpl in Hrun. eapply IH; [done| | |].
    + by eapply step_pending_inv.
    + by eapply step_served_inv.
    + by eapply step_refresh_inv.
Qed.

(** X15: in every reachable state [PendingRecache] holds an entry for a
    key exactly when a recache task for that key is live, and the entry
    names the request that scheduled it; every live task was scheduled,
    for the key of its own request, by a request that was served an
    entry that was recacheable. *)
Theorem recache_registry_matches_tasks (s : State) :
  reachable s →
  (∀ k, is_Some (PendingRecache s !! k) ↔ refreshes_for k s ≠ [])
  ∧ (∀ r, r ∈ refreshes s →
       PendingRecache s !! r_key r = Some (r_id r)
       ∧ r_key r = cache_key (r_ctx r)
       ∧ recacheable (r_ended r) = true
       ∧ ∃ calls, (r_id r, calls) ∈ served s).
Proof.
  intros [es Hrun].
  destruct (run_refresh_inv es init_state s Hrun pending_inv_init served_inv_init
              refresh_inv_init) as (R1 & R2 & R3).
  split.
  - intros k. split.
    + intros [id Hk]. destruct (R2 k id Hk) as (r & Hr & Hkr & _).
      intros E. assert (r ∈ refreshes_for k s) as Hin.
      { apply list_elem_of_filter. by split. }
      rewrite E in Hin. by apply elem_of_nil in Hin.
    + intros Hne. destruct (refreshes_for k s) as [|r l] eqn:E; [done|].
      assert (r ∈ refreshes_for k s) as Hin by (rewrite E; apply list_elem_of_here).
      apply list_elem_of_filter in Hin as [Hk Hr].
      destruct (R1 r Hr) as (H1 & _). rewrite <- Hk. eauto.
  - intros r Hr. destruct (R1 r Hr) as (H1 & H2 & H3 & H4).
    split; [done|]. split; [done|]. split; [done|].
    apply list_elem_of_fmap in H2 as ([i calls] & -> & Hin). eauto.
Qed.

Lemma recache_registry_matches_tasks_witness :
  reachable replaying_state
  ∧ (is_Some (PendingRecache replaying_state !! cache_key demo_ctx)
     ↔ refreshes_for (cache_key demo_ctx) replaying_state ≠ []).
Proof.
  assert (reachable replaying_state) as R.
  { exists replay_events. vm_compute. reflexivity. }
  split; [exact R|].
  exact (proj1 (recache_registry_matches_tasks replaying_state R) (cache_key demo_ctx)).
Defined.


(** ** [writeHead] without a status message *)

Lemma run_op_without_headers key w op :
  run_op key w (without_headers op) = run_op key w op.
Proof.
  destruct op as [a|m|st|m|k v|st m h|chunk enc|data enc now_ms]; try reflexivity.
  by destruct m as [s|hh|].
Qed.

Lemma run_ops_without_headers key ops w :
  run_ops key (without_headers <$> ops) w = run_ops key ops w.
Proof.
  revert w. induction ops as [|op ops IH]; intros w; [done|].
  cbn [fmap list_fmap]. rewrite !run_ops_cons, run_op_without_headers. apply IH.
Qed.

(** X16: the header argument of a [writeHead] call that has no string
    status message, [writeHead(status, headers)], has no effect: the
    calls handed on, the captured values, the stored entry and the
    response are those of [writeHead(status)]; what is handed on to the
    original method is the status with an empty header object. *)
Theorem writeHead_headers_need_a_message (scope key : string) (ttlsec : Z) (r : Response)
    (handler respond : list HandlerOp) (st : Z) (h : HeadersArg) (w : World) :
  miss_path scope key ttlsec r (without_headers <$> handler) (without_headers <$> respond)
  = miss_path scope key ttlsec r handler respond
  ∧ trace (patched_writeHead st (MHeaders h) None w)
    = (if suppressed (res w) then trace w
       else trace w ++ [Forward (CallWriteHead st MUndef (Some (HObj [])))])
  ∧ contentType (cap (patched_writeHead st (MHeaders h) None w))
    = (if nonempty (str_or_empty (getHeader (res w) "content-type"))
       then str_or_empty (getHeader (res w) "content-type")
       else contentType (cap w)).
Proof.
  split; [|split].
  - unfold miss_path. by rewrite !run_ops_without_headers.
  - unfold patched_writeHead. destruct (suppressed (res w)); [done|].
    unfold forward_writeHead. cbn [res with_cap with_res].
    destruct (write_back_headers _ (res w)) as [r0|]; [|done].
    by match goal with |- context [node_writeHead ?a ?b ?c r0] =>
         destruct (node_writeHead a b c r0) end.
  - assert (cap (patched_writeHead st (MHeaders h) None w)
            = capture_head st (MHeaders h) (getHeaders (res w)) (cap w)) as ->.
    { unfold patched_writeHead. destruct (suppressed (res w)); [done|].
      match goal with |- context [forward_writeHead ?a ?b ?c ?d] =>
        destruct (forward_writeHead_frame a b c d) as [_ ->] end. done. }
    cbn [capture_head contentType]. unfold pick_header, getHeader.
    change (toLowerCase "content-type") with "content-type".
    by destruct (getHeaders (res w) !! "content-type").
Qed.
